(** * get_game_data: a shallow embedding of the harvesting pipeline

    The development follows [scripting/get_game_data.py] function by
    function.  Python [str] values are lists of characters, the filesystem
    is an explicit tree that every effectful function threads through, and
    a Python exception is the [Raise] branch of a small error monad.

    The standard-library calls the script relies on ([re.findall],
    [str.replace], [fnmatch], [pathlib], [shutil.copytree], [json.dump],
    [subprocess.run]) are embedded for the inputs the script can hand them;
    each section says what is left out. *)

From Stdlib Require Import List Arith Lia Bool Ascii ZArith.
From Stdlib Require String.
From Stdlib Require Import Numbers.DecimalString.
From Stdlib Require Numbers.DecimalNat Numbers.DecimalFacts.
Import ListNotations.
Import String.StringSyntax.
Local Open Scope string_scope.
Local Open Scope list_scope.
Local Open Scope nat_scope.

(** ** Python values *)

(** A Python [str]: a sequence of code points.  Code points are the 256
    values of [ascii], read as Latin-1. *)
Definition str := list ascii.

(** [py "game"] is the Python literal ["game"]. *)
Definition py (s : String.string) : str := String.list_ascii_of_string s.

Definition str_eqb (a b : str) : bool :=
  if list_eq_dec ascii_dec a b then true else false.

(** Built-in exceptions the script can run into. *)
Inductive exn :=
| IndexError
| FileNotFoundError
| FileExistsError
| NotADirectoryError
| IsADirectoryError.

(** The outcome of a call: a value, or a raised exception. *)
Inductive result (A : Type) :=
| Ok (a : A)
| Raise (e : exn).

Arguments Ok {A} a.
Arguments Raise {A} e.

Definition bind {A B} (r : result A) (k : A -> result B) : result B :=
  match r with
  | Ok a => k a
  | Raise e => Raise e
  end.

Declare Scope py_scope.
Delimit Scope py_scope with py.
Notation "x <- c ;; k" := (bind c (fun x => k))
  (at level 61, c at next level, right associativity) : py_scope.
Open Scope py_scope.

(** ** Case folding

    [str.lower] on one code point.  In Latin-1 the cased letters with a
    lower-case partner inside the range are A-Z, and U+00C0..U+00DE
    without the multiplication sign U+00D7. *)
Definition lower (c : ascii) : ascii :=
  let n := nat_of_ascii c in
  if ((65 <=? n) && (n <=? 90)) ||
     ((192 <=? n) && (n <=? 222) && negb (n =? 215))
  then ascii_of_nat (n + 32)
  else c.

(** Two characters are equal under [re.IGNORECASE]. *)
Definition ci_eqb (a b : ascii) : bool := Ascii.eqb (lower a) (lower b).

(** [b] starts with [a], letter case ignored. *)
Fixpoint ci_prefixb (a b : str) : bool :=
  match a, b with
  | [], _ => true
  | x :: a', y :: b' => ci_eqb x y && ci_prefixb a' b'
  | _ :: _, [] => false
  end.

(** [str.startswith]. *)
Fixpoint prefixb (a b : str) : bool :=
  match a, b with
  | [], _ => true
  | x :: a', y :: b' => Ascii.eqb x y && prefixb a' b'
  | _ :: _, [] => false
  end.

(** [str.replace(old, new)]: every occurrence of [old], scanning left to
    right without overlap.  [skip] counts the characters of a replaced
    occurrence still to pass over. *)
Fixpoint replace_from (old new : str) (skip : nat) (s : str) : str :=
  match s with
  | [] => []
  | c :: s' =>
      match skip with
      | S k => replace_from old new k s'
      | 0 =>
          if prefixb old s
          then new ++ replace_from old new (length old - 1) s'
          else c :: replace_from old new 0 s'
      end
  end.

(** An empty [old] matches between every two characters and at both ends. *)
Definition replace (old new s : str) : str :=
  match old with
  | [] => new ++ flat_map (fun c => c :: new) s
  | _ :: _ => replace_from old new 0 s
  end.

(** [sep.join(l)]. *)
Fixpoint join (sep : str) (l : list str) : str :=
  match l with
  | [] => []
  | [x] => x
  | x :: l' => x ++ sep ++ join sep l'
  end.

(** ** Paths

    A resolved [pathlib.Path] is the list of its components below the root;
    [name] is its last component (empty for the root itself), and
    [joinpath] adds one plain name. *)
Definition path := list str.

Definition name (p : path) : str := last p [].

Definition parent (p : path) : path := removelast p.

Definition joinpath (p : path) (child : str) : path := p ++ [child].

(** ** Regular expressions: the part of [re] the script reaches

    The pattern language covered: ordinary characters, [.], and the greedy
    quantifiers [*], [+], [?] on a single character.  [compile] returns
    [None] on anything else (groups, classes, anchors, alternation,
    escapes, braces, lazy or stacked quantifiers, and patterns [re]
    rejects). *)
Module Re.

Inductive atom :=
| Lit (c : ascii)
| AnyChar.

Inductive quant := One | Opt | Star | Plus.

Definition item : Type := atom * quant.
Definition regex := list item.

(** [sre_parse.SPECIAL_CHARS]: every other character stands for itself. *)
Definition SPECIAL_CHARS : str := py ".\[{()*+?^$|".
Definition REPEAT_CHARS : str := py "*+?{".

Definition is_special (c : ascii) : bool := existsb (Ascii.eqb c) SPECIAL_CHARS.
Definition is_repeat (c : ascii) : bool := existsb (Ascii.eqb c) REPEAT_CHARS.

Definition atom_of (c : ascii) : option atom :=
  if Ascii.eqb c "." then Some AnyChar
  else if is_special c then None
  else Some (Lit c).

Definition quant_of (c : ascii) : option quant :=
  if Ascii.eqb c "*" then Some Star
  else if Ascii.eqb c "+" then Some Plus
  else if Ascii.eqb c "?" then Some Opt
  else None.

Fixpoint compile (p : str) : option regex :=
  match p with
  | [] => Some []
  | c :: p1 =>
      match atom_of c with
      | None => None
      | Some a =>
          match p1 with
          | [] => Some [(a, One)]
          | q :: p2 =>
              match quant_of q with
              | None => option_map (cons (a, One)) (compile p1)
              | Some k =>
                  match p2 with
                  | [] => Some [(a, k)]
                  | r :: _ =>
                      if is_repeat r then None
                      else option_map (cons (a, k)) (compile p2)
                  end
              end
          end
      end
  end.

(** One character against one atom, under [re.IGNORECASE] and without
    [re.DOTALL]: the dot takes anything but a newline. *)
Definition atom_matches (a : atom) (c : ascii) : bool :=
  match a with
  | Lit l => ci_eqb l c
  | AnyChar => negb (Ascii.eqb c "010")
  end.

(** Greedy repetition of [a], then the continuation [k]: as many
    characters as possible first, one fewer on each failure of [k]. *)
Fixpoint star_loop (a : atom) (k : nat -> str -> option nat)
         (n : nat) (s : str) : option nat :=
  match s with
  | c :: s' =>
      if atom_matches a c then
        match star_loop a k (S n) s' with
        | Some m => Some m
        | None => k n s
        end
      else k n s
  | [] => k n s
  end.

(** The backtracking matcher anchored at the head of [s]: the length of
    the first match in priority order that [ok] accepts, [n] characters
    being consumed already. *)
Fixpoint match_here (r : regex) (ok : nat -> bool) (n : nat) (s : str)
  : option nat :=
  match r with
  | [] => if ok n then Some n else None
  | (a, q) :: r' =>
      let k := match_here r' ok in
      match q with
      | One =>
          match s with
          | c :: s' => if atom_matches a c then k (S n) s' else None
          | [] => None
          end
      | Opt =>
          match s with
          | c :: s' =>
              if atom_matches a c then
                match k (S n) s' with
                | Some m => Some m
                | None => k n s
                end
              else k n s
          | [] => k n s
          end
      | Star => star_loop a k n s
      | Plus =>
          match s with
          | c :: s' => if atom_matches a c then star_loop a k (S n) s' else None
          | [] => None
          end
      end
  end.

(** [must_advance]: the match following an empty match may not be empty
    at the same position. *)
Definition accepts (must_advance : bool) (n : nat) : bool :=
  negb must_advance || negb (n =? 0).

(** Leftmost match: offset of its start in [s] (counted from [pos]) and
    its length.  Only the first position is under [must_advance]. *)
Fixpoint search (r : regex) (must_advance : bool) (pos : nat) (s : str)
  : option (nat * nat) :=
  match match_here r (accepts must_advance) 0 s with
  | Some n => Some (pos, n)
  | None =>
      match s with
      | [] => None
      | _ :: s' => search r false (S pos) s'
      end
  end.

Fixpoint findall_from (fuel : nat) (r : regex) (must_advance : bool) (s : str)
  : list str :=
  match fuel with
  | 0 => []
  | S fuel' =>
      match search r must_advance 0 s with
      | None => []
      | Some (b, n) =>
          firstn n (skipn b s)
            :: findall_from fuel' r (n =? 0) (skipn (b + n) s)
      end
  end.

(** [re.findall(pattern, s, flags=re.IGNORECASE)] for a compiled pattern
    without groups: the matched texts, left to right.  Every round but
    one after an empty match consumes a character, so twice the length
    plus two rounds are enough. *)
Definition findall (r : regex) (s : str) : list str :=
  findall_from (2 * length s + 2) r false s.

End Re.

(** ** Name Transformer *)

(** [l[0]]: the list indexed at its first place.  Nothing is tested
    before; on the empty list Python raises [IndexError]. *)
Definition first_item (l : list str) : result str :=
  match l with
  | [] => Raise IndexError
  | m :: _ => Ok m
  end.

(** One pass of the loop body: the first element of [findall] is replaced
    by the empty string throughout [dirname].
    Indexing the empty list raises [IndexError]. *)
Definition strip_match (r : Re.regex) (dirname : str) : result str :=
  match Re.findall r dirname with
  | [] => Raise IndexError
  | m :: _ => Ok (replace m [] dirname)
  end.

Fixpoint names_loop (r : Re.regex) (paths : list path) : result (list str) :=
  match paths with
  | [] => Ok []
  | p :: ps =>
      new_dirname <- strip_match r (name p) ;;
      new_names <- names_loop r ps ;;
      Ok (new_dirname :: new_names)
  end.

(** [get_names_from_paths(paths, to_strip)].  [None]: [to_strip] is outside
    the pattern language of [Re.compile].  With no path the pattern is
    never looked at. *)
Definition get_names_from_paths (paths : list path) (to_strip : str)
  : option (result (list str)) :=
  match paths with
  | [] => Some (Ok [])
  | _ :: _ =>
      match Re.compile to_strip with
      | None => None
      | Some r => Some (names_loop r paths)
      end
  end.

(** ** What the specification's words say

    The first position at which [p] occurs in [s], letter case ignored. *)
Fixpoint find_ci (p s : str) : option nat :=
  if ci_prefixb p s then Some 0
  else match s with
       | [] => None
       | _ :: s' => option_map S (find_ci p s')
       end.

Definition contains_ci (p s : str) : bool :=
  match find_ci p s with Some _ => true | None => false end.

(** [old] occurs in [s], letter case respected. *)
Fixpoint occurs (old s : str) : bool :=
  prefixb old s || match s with [] => false | _ :: s' => occurs old s' end.

(** A pattern without regular-expression metacharacters. *)
Definition literal (p : str) : bool :=
  forallb (fun c => negb (Re.is_special c)) p.

(** The Name Transformer as section 4.3 words it: cut out the first
    case-insensitive occurrence of the pattern and nothing else.  [None]
    when the pattern does not occur. *)
Definition remove_first_ci (p s : str) : option str :=
  match find_ci p s with
  | Some i => Some (firstn i s ++ skipn (i + length p) s)
  | None => None
  end.

(** What the code does to a name that holds the literal pattern: the first
    case-insensitive occurrence goes, and so does every later copy of the
    text matched there. *)
Definition strip_every_copy (p s : str) : str :=
  match find_ci p s with
  | Some i =>
      let m := firstn (length p) (skipn i s) in
      firstn i s ++ replace m [] (skipn (i + length p) s)
  | None => s
  end.

(** ** The filesystem

    A tree of regular files and directories; a directory lists its
    entries in enumeration order.  Symbolic links, permissions and
    timestamps are not represented.  The filesystem state is the root
    directory. *)
#[warnings="-register-all"]
Inductive node :=
| File (data : str)
| Dir (entries : list (str * node)).

Definition entries_t := list (str * node).

Fixpoint assoc (k : str) (es : entries_t) : option node :=
  match es with
  | [] => None
  | (k', v) :: es' => if str_eqb k k' then Some v else assoc k es'
  end.

(** Overwrite the entry [k] in place, or add it.  A new entry is put at
    the end of the listing; a real directory lists a new entry where its
    filesystem puts it. *)
Fixpoint set_entry (k : str) (v : node) (es : entries_t) : entries_t :=
  match es with
  | [] => [(k, v)]
  | (k', v') :: es' =>
      if str_eqb k k' then (k, v) :: es' else (k', v') :: set_entry k v es'
  end.

Fixpoint lookup (p : path) (n : node) : option node :=
  match p with
  | [] => Some n
  | c :: p' =>
      match n with
      | Dir es =>
          match assoc c es with
          | Some m => lookup p' m
          | None => None
          end
      | File _ => None
      end
  end.

(** Put [v] at [p]; the directory that holds [p] has to be there. *)
Fixpoint store (p : path) (v : node) (n : node) : node :=
  match p with
  | [] => v
  | c :: p' =>
      match n with
      | Dir es =>
          match p' with
          | [] => Dir (set_entry c v es)
          | _ :: _ =>
              match assoc c es with
              | Some m => Dir (set_entry c (store p' v m) es)
              | None => n
              end
          end
      | File _ => n
      end
  end.

Definition is_dir_node (n : option node) : bool :=
  match n with Some (Dir _) => true | _ => false end.

(** [os.scandir]: the entries of a directory ([glob] treats anything else
    as empty). *)
Definition scandir (fs : node) (dir : path) : entries_t :=
  match lookup dir fs with
  | Some (Dir es) => es
  | _ => []
  end.

(** *** Path strings

    [pathlib.PurePosixPath(s)]: whether [s] is anchored at the root, and
    its components; empty components and [.] are dropped, [..] is kept.
    Two leading slashes are read like one, as the kernel and [resolve]
    read them. *)
Fixpoint split_on (sep : ascii) (s : str) : list str :=
  match s with
  | [] => [[]]
  | c :: s' =>
      if Ascii.eqb c sep then [] :: split_on sep s'
      else match split_on sep s' with
           | [] => [[c]]
           | w :: ws => (c :: w) :: ws
           end
  end.

Record pure_path := { absolute : bool; parts : list str }.

Definition Path (s : str) : pure_path :=
  {| absolute := prefixb (py "/") s;
     parts := filter (fun c => negb (str_eqb c []) && negb (str_eqb c (py ".")))
                     (split_on "/" s) |}.

Definition is_dotdot (c : str) : bool := str_eqb c (py "..").

(** Where a path starts: the root, or the working directory. *)
Definition anchor (cwd : path) (pp : pure_path) : path :=
  if absolute pp then [] else cwd.

(** The kernel's path walk from directory [cur]: every component is looked
    up in a directory that exists. *)
Fixpoint walk (fs : node) (cur : path) (comps : list str) : result path :=
  match comps with
  | [] => Ok cur
  | c :: cs =>
      match lookup cur fs with
      | Some (Dir _) =>
          if is_dotdot c then walk fs (parent cur) cs
          else match lookup (joinpath cur c) fs with
               | Some _ => walk fs (joinpath cur c) cs
               | None => Raise FileNotFoundError
               end
      | Some (File _) => Raise NotADirectoryError
      | None => Raise FileNotFoundError
      end
  end.

(** [Path.is_dir()]: false when the path cannot be walked. *)
Definition is_dir (fs : node) (cwd : path) (pp : pure_path) : bool :=
  match walk fs (anchor cwd pp) (parts pp) with
  | Ok q => is_dir_node (lookup q fs)
  | Raise _ => false
  end.

(** [os.mkdir]: the new state, or the state untouched and an exception. *)
Definition os_mkdir (fs : node) (cwd : path) (pp : pure_path)
  : node * result unit :=
  match parts pp with
  | [] => (fs, Raise FileExistsError)
  | _ :: _ =>
      let leaf := last (parts pp) [] in
      match walk fs (anchor cwd pp) (removelast (parts pp)) with
      | Raise e => (fs, Raise e)
      | Ok d =>
          match lookup d fs with
          | Some (Dir es) =>
              if is_dotdot leaf then (fs, Raise FileExistsError)
              else match assoc leaf es with
                   | Some _ => (fs, Raise FileExistsError)
                   | None => (store (joinpath d leaf) (Dir []) fs, Ok tt)
                   end
          | Some (File _) => (fs, Raise NotADirectoryError)
          | None => (fs, Raise FileNotFoundError)
          end
      end
  end.

(** [Path.mkdir(exist_ok=...)] with [parents] at its default [False]: a
    [FileNotFoundError] of [os.mkdir] is re-raised as it is; any other
    [OSError] is swallowed when [exist_ok] holds and the path is a
    directory. *)
Definition mkdir (exist_ok : bool) (fs : node) (cwd : path) (pp : pure_path)
  : node * result unit :=
  match os_mkdir fs cwd pp with
  | (fs', Ok tt) => (fs', Ok tt)
  | (fs', Raise FileNotFoundError) => (fs', Raise FileNotFoundError)
  | (fs', Raise e) =>
      if exist_ok && is_dir fs' cwd pp then (fs', Ok tt) else (fs', Raise e)
  end.

(** [os.path.realpath]: [..] drops the last component reached so far; in
    strict mode every other component has to exist ([os.lstat]). *)
Fixpoint realpath_from (fs : node) (strict : bool) (cur : path)
         (comps : list str) : result path :=
  match comps with
  | [] => Ok cur
  | c :: cs =>
      if is_dotdot c then realpath_from fs strict (parent cur) cs
      else if strict then
        match lookup (joinpath cur c) fs with
        | Some _ => realpath_from fs strict (joinpath cur c) cs
        | None =>
            match lookup cur fs with
            | Some (File _) => Raise NotADirectoryError
            | _ => Raise FileNotFoundError
            end
        end
      else realpath_from fs strict (joinpath cur c) cs
  end.

(** [Path.resolve(strict)]. *)
Definition resolve (fs : node) (cwd : path) (pp : pure_path) (strict : bool)
  : result path :=
  realpath_from fs strict (anchor cwd pp) (parts pp).

(** Truth value of a [str]: only the empty string is false. *)
Definition truthy (s : str) : bool :=
  match s with [] => false | _ :: _ => true end.

(** ** Path Resolver

    [pathlib.Path(dir_file).resolve(dir_file)]: the path string is handed
    to [resolve] a second time, as its [strict] argument. *)
Definition get_absolute_path (fs : node) (cwd : path) (dir_file : str)
  : result path :=
  resolve fs cwd (Path dir_file) (truthy dir_file).

(** ** Target Preparer *)
Definition setup_target_dir (fs : node) (cwd : path) (dirname : str)
  : node * result path :=
  match mkdir true fs cwd (Path dirname) with
  | (fs', Ok tt) => (fs', get_absolute_path fs' cwd dirname)
  | (fs', Raise e) => (fs', Raise e)
  end.


(** ** Shell patterns: the part of [fnmatch] the script reaches

    [*], [?], bracket classes with an optional leading [!], and ordinary
    characters.  A class that holds a hyphen (a range) is outside the
    pattern language covered: [translate] returns [None]. *)
Module Fnmatch.

Inductive single :=
| Char (c : ascii)
| AnyOne
| Class (negated : bool) (members : str).

Inductive item :=
| AnySeq
| Single (x : single).

(** The text up to the first closing bracket, if there is one. *)
Fixpoint until_close (s : str) : option str :=
  match s with
  | [] => None
  | c :: s' =>
      if Ascii.eqb c "]" then Some []
      else option_map (cons c) (until_close s')
  end.

(** The class that opens just before [r]: its text between the brackets
    ([stuff] in [fnmatch.translate]); a closing bracket right after the
    opening one or after [!] belongs to the class. *)
Definition class_text (r : str) : option str :=
  let '(bang, r1) :=
    match r with
    | c :: r' => if Ascii.eqb c "!" then ([c], r') else ([], r)
    | [] => ([], r)
    end in
  let '(first, r2) :=
    match r1 with
    | c :: r' => if Ascii.eqb c "]" then ([c], r') else ([], r1)
    | [] => ([], r1)
    end in
  option_map (fun body => bang ++ first ++ body) (until_close r2).

Definition class_of (stuff : str) : option single :=
  if existsb (Ascii.eqb "-") stuff then None
  else match stuff with
       | c :: members =>
           if Ascii.eqb c "!" then Some (Class true members)
           else Some (Class false stuff)
       | [] => Some (Class false [])
       end.

(** [skip]: characters of a class still to pass over. *)
Fixpoint translate_from (skip : nat) (pat : str) : option (list item) :=
  match pat with
  | [] => Some []
  | c :: r =>
      match skip with
      | S k => translate_from k r
      | 0 =>
          if Ascii.eqb c "*" then option_map (cons AnySeq) (translate_from 0 r)
          else if Ascii.eqb c "?" then
            option_map (cons (Single AnyOne)) (translate_from 0 r)
          else if Ascii.eqb c "[" then
            match class_text r with
            | None => option_map (cons (Single (Char c))) (translate_from 0 r)
            | Some stuff =>
                match class_of stuff with
                | None => None
                | Some cl =>
                    option_map (cons (Single cl))
                               (translate_from (S (length stuff)) r)
                end
            end
          else option_map (cons (Single (Char c))) (translate_from 0 r)
      end
  end.

Definition translate (pat : str) : option (list item) := translate_from 0 pat.

Definition single_matches (x : single) (c : ascii) : bool :=
  match x with
  | Char l => Ascii.eqb l c
  | AnyOne => true
  | Class negated members => xorb negated (existsb (Ascii.eqb c) members)
  end.

(** The whole of [s] against the pattern, letter case respected (the
    POSIX flavour of [pathlib]). *)
Fixpoint fullmatch (g : list item) (s : str) : bool :=
  match g with
  | [] => match s with [] => true | _ :: _ => false end
  | AnySeq :: g' =>
      (fix star (t : str) : bool :=
         fullmatch g' t || match t with [] => false | _ :: t' => star t' end) s
  | Single x :: g' =>
      match s with
      | c :: s' => single_matches x c && fullmatch g' s'
      | [] => false
      end
  end.

End Fnmatch.

(** The patterns [glob] and [rglob] are modelled for: one component, not
    empty, not [.] or [..], without a separator and without [**]. *)
Definition one_component (pattern : str) : bool :=
  truthy pattern
  && negb (existsb (Ascii.eqb "/") pattern)
  && negb (occurs (py "**") pattern)
  && negb (str_eqb pattern (py ".")) && negb (str_eqb pattern (py "..")).

(** [Path.glob(pattern)]: the children of [dir] whose name matches, in
    enumeration order; nothing when [dir] is not a directory. *)
Definition glob (fs : node) (dir : path) (pattern : str) : option (list path) :=
  if negb (one_component pattern) then None
  else
    match Fnmatch.translate pattern with
    | None => None
    | Some g =>
        Some (map (fun e => joinpath dir (fst e))
                  (filter (fun e => Fnmatch.fullmatch g (fst e)) (scandir fs dir)))
    end.

(** [Path.rglob(pattern)] below a directory node: the matches among its
    entries first, then those of each subdirectory in turn. *)
Fixpoint rglob_node (g : list Fnmatch.item) (dir : path) (n : node) : list path :=
  match n with
  | File _ => []
  | Dir es =>
      map (fun e => joinpath dir (fst e))
          (filter (fun e => Fnmatch.fullmatch g (fst e)) es)
      ++ flat_map (fun e =>
                     match e with
                     | (nm, Dir _ as child) => rglob_node g (joinpath dir nm) child
                     | (_, File _) => []
                     end) es
  end.

Definition rglob (fs : node) (dir : path) (pattern : str) : option (list path) :=
  if negb (one_component pattern) then None
  else
    match Fnmatch.translate pattern with
    | None => None
    | Some g =>
        Some (match lookup dir fs with
              | Some n => rglob_node g dir n
              | None => []
              end)
    end.

(** ** Game Directory Finder *)

Definition DIR_PATTERN : str := py "*[g|G][a|A][m|M][e|E]*".
Definition FILE_EXTENSION : str := py "*.go".
Definition COMPILE_COMMAND : list str := [py "go"; py "build"].

(** [[item for item in source_dir.glob(DIR_PATTERN) if item.is_dir()]]. *)
Definition find_all_game_paths (fs : node) (source_dir : path)
  : option (list path) :=
  option_map (filter (fun item => is_dir_node (lookup item fs)))
             (glob fs source_dir DIR_PATTERN).


(** [DIR_PATTERN] as [fnmatch] reads it: a vertical bar inside brackets is
    one more member of the class. *)
Definition DIR_GLOB : list Fnmatch.item :=
  [Fnmatch.AnySeq;
   Fnmatch.Single (Fnmatch.Class false (py "g|G"));
   Fnmatch.Single (Fnmatch.Class false (py "a|A"));
   Fnmatch.Single (Fnmatch.Class false (py "m|M"));
   Fnmatch.Single (Fnmatch.Class false (py "e|E"));
   Fnmatch.AnySeq].

Definition in_class (members : str) (c : ascii) : bool :=
  existsb (Ascii.eqb c) members.

(** Four characters in a row, each from its bracket class. *)
Fixpoint game_like (s : str) : bool :=
  match s with
  | [] => false
  | c1 :: t =>
      match t with
      | c2 :: c3 :: c4 :: _ =>
          in_class (py "g|G") c1 && in_class (py "a|A") c2
          && in_class (py "m|M") c3 && in_class (py "e|E") c4
      | _ => false
      end
      || game_like t
  end.


(** ** Directory Materializer

    [shutil.copytree(src, dst, dirs_exist_ok=True)] on the source subtree
    and on what the destination path holds.  The two subtrees are separate
    parts of the filesystem, so reading the source is not affected by the
    writes. *)

(** [shutil.copy2(src, dst)] of a regular file named [nm] into the
    directory entries [dst]: when [dst/nm] is a directory the file goes
    inside it, under the same name. *)
Definition copy2 (rel : path) (nm : str) (data : str) (dst : entries_t)
  : entries_t * list path :=
  match assoc nm dst with
  | Some (Dir sub) =>
      match assoc nm sub with
      | Some (Dir _) => (dst, [joinpath rel nm])
      | _ => (set_entry nm (Dir (set_entry nm (File data) sub)) dst, [])
      end
  | _ => (set_entry nm (File data) dst, [])
  end.

(** The loop of [_copytree] over the source entries: the destination
    entries are threaded through, the failures collected. *)
Fixpoint copy_entries (copy_one : node -> str -> entries_t -> entries_t * list path)
         (src dst : entries_t) : entries_t * list path :=
  match src with
  | [] => (dst, [])
  | (nm, child) :: rest =>
      let '(dst1, errors1) := copy_one child nm dst in
      let '(dst2, errors2) := copy_entries copy_one rest dst1 in
      (dst2, errors1 ++ errors2)
  end.

(** One source entry [nm].  A directory is copied by the recursive
    [copytree]: [os.makedirs(dst/nm, exist_ok=True)] fails on a regular
    file in the way, and that failure, like those from below, is recorded
    under the entry's path [rel/nm] while the loop goes on. *)
Fixpoint copy_entry (rel : path) (n : node) (nm : str) (dst : entries_t)
  : entries_t * list path :=
  match n with
  | File data => copy2 rel nm data dst
  | Dir sub =>
      match assoc nm dst with
      | Some (File _) => (dst, [joinpath rel nm])
      | Some (Dir d) =>
          let '(d', errors) := copy_entries (copy_entry (joinpath rel nm)) sub d in
          (set_entry nm (Dir d') dst, errors)
      | None =>
          let '(d', errors) := copy_entries (copy_entry (joinpath rel nm)) sub [] in
          (set_entry nm (Dir d') dst, errors)
      end
  end.

Inductive copy_outcome :=
| Copied
| CopyErrors (failed : list path)
| CopyRaised (e : exn).

(** [copytree(src, dst, dirs_exist_ok=True)]: what the destination path
    holds afterwards, and how the call ended. *)
Definition copytree (src : node) (dst : option node) : option node * copy_outcome :=
  match src with
  | File _ => (dst, CopyRaised NotADirectoryError)
  | Dir es =>
      match dst with
      | Some (File _) => (dst, CopyRaised FileExistsError)
      | _ =>
          let d := match dst with Some (Dir d) => d | _ => [] end in
          let '(d', errors) := copy_entries (copy_entry []) es d in
          (Some (Dir d'),
           match errors with [] => Copied | _ :: _ => CopyErrors errors end)
      end
  end.

Definition copy_and_overwrite (source : node) (dest : option node)
  : option node * copy_outcome :=
  copytree source dest.

(** Entry names are unique inside every directory of the tree. *)
Fixpoint nodupb (l : list str) : bool :=
  match l with
  | [] => true
  | x :: l' => negb (existsb (str_eqb x) l') && nodupb l'
  end.

Fixpoint well_formed (n : node) : bool :=
  match n with
  | File _ => true
  | Dir es =>
      nodupb (map fst es)
      && forallb (fun e => match e with (_, child) => well_formed child end) es
  end.

(** What [copy_entry] leaves under the name [nm], given what was there,
    and the failures it records. *)
Definition entry_value (rel : path) (n : node) (nm : str) (old : option node)
  : node * list path :=
  match n with
  | File data =>
      match old with
      | Some (Dir sub) =>
          match assoc nm sub with
          | Some (Dir _) => (Dir sub, [joinpath rel nm])
          | _ => (Dir (set_entry nm (File data) sub), [])
          end
      | _ => (File data, [])
      end
  | Dir sub =>
      match old with
      | Some (File x) => (File x, [joinpath rel nm])
      | Some (Dir d) =>
          let '(d', errors) := copy_entries (copy_entry (joinpath rel nm)) sub d in
          (Dir d', errors)
      | None =>
          let '(d', errors) := copy_entries (copy_entry (joinpath rel nm)) sub [] in
          (Dir d', errors)
      end
  end.

(** The destination paths a copy does not write to: walking [p] down the
    source ends at a name the source does not have, or passes a regular
    file of the source, unless [p] is that file's path with the file's
    name once more at the end (where [copy2] puts the file when the
    destination has a directory in its place). *)
Fixpoint spared (p : path) (src : entries_t) : bool :=
  match p with
  | [] => false
  | c :: p' =>
      match assoc c src with
      | None => true
      | Some (Dir sub) => spared p' sub
      | Some (File _) =>
          match p' with
          | [] => false
          | [c'] => negb (str_eqb c' c)
          | _ :: _ :: _ => true
          end
      end
  end.

(** ** Metadata Writer *)

#[warnings="-register-all"]
Inductive json :=
| JStr (s : str)
| JInt (n : nat)
| JList (items : list json)
| JDict (members : list (str * json)).

Definition hex_digit (n : nat) : ascii :=
  nth n (py "0123456789abcdef") "0"%char.

(** One character of a string under [ensure_ascii=True]. *)
Definition escape_char (c : ascii) : str :=
  let n := nat_of_ascii c in
  if n =? 34 then py "\" ++ [c]
  else if n =? 92 then py "\\"
  else if n =? 10 then py "\n"
  else if n =? 13 then py "\r"
  else if n =? 9 then py "\t"
  else if n =? 8 then py "\b"
  else if n =? 12 then py "\f"
  else if (32 <=? n) && (n <=? 126) then [c]
  else py "\u00" ++ [hex_digit (n / 16); hex_digit (n mod 16)].

Definition quote : str := [ascii_of_nat 34].

Definition encode_str (s : str) : str :=
  quote ++ flat_map escape_char s ++ quote.

Definition encode_int (n : nat) : str :=
  py (NilEmpty.string_of_uint (Nat.to_uint n)).

(** [json.dumps] with its default separators. *)
Fixpoint dumps (j : json) : str :=
  match j with
  | JStr s => encode_str s
  | JInt n => encode_int n
  | JList items => py "[" ++ join (py ", ") (map dumps items) ++ py "]"
  | JDict members =>
      py "{"
      ++ join (py ", ")
              (map (fun kv => match kv with
                              | (k, v) => encode_str k ++ py ": " ++ dumps v
                              end) members)
      ++ py "}"
  end.

(** [open(p, "w")], writing [content], closing: the file is created or
    replaced as a whole. *)
Definition write_text (fs : node) (p : path) (content : str) : node * result unit :=
  match walk fs [] (parent p) with
  | Raise e => (fs, Raise e)
  | Ok d =>
      match lookup d fs with
      | Some (Dir es) =>
          match assoc (name p) es with
          | Some (Dir _) => (fs, Raise IsADirectoryError)
          | _ => (store p (File content) fs, Ok tt)
          end
      | Some (File _) => (fs, Raise NotADirectoryError)
      | None => (fs, Raise FileNotFoundError)
      end
  end.

Definition metadata (dirs : list str) : json :=
  JDict [(py "game_names", JList (map JStr dirs));
         (py "number_of_games", JInt (length dirs))].

Definition make_json_metadata_file (fs : node) (p : path) (dirs : list str)
  : node * result unit :=
  let data := metadata dirs in
  let json_path := joinpath p (py "metadata.json") in
  write_text fs json_path (dumps data).

(** [data[k]] on a decoded object. *)
Fixpoint member_of (k : str) (members : list (str * json)) : option json :=
  match members with
  | [] => None
  | (k', v) :: rest => if str_eqb k k' then Some v else member_of k rest
  end.

Definition member (k : str) (j : json) : option json :=
  match j with
  | JDict members => member_of k members
  | _ => None
  end.

(** ** Reading the manifest back

    [json.loads], the reader of what [json.dump] writes, on the part of
    JSON the script can produce: objects, arrays, strings and non-negative
    integers, with the whitespace [json] allows between tokens.  [None]
    stands for a syntax error and for a document outside this part (a
    float, a negative number, [true], [false], [null], an escape for a
    code point above 255). *)

Definition is_ws (c : ascii) : bool :=
  let n := nat_of_ascii c in
  (n =? 32) || (n =? 9) || (n =? 10) || (n =? 13).

Fixpoint skip_ws (s : str) : str :=
  match s with
  | [] => []
  | c :: s' => if is_ws c then skip_ws s' else s
  end.

Definition hex_value (c : ascii) : option nat :=
  let n := nat_of_ascii c in
  if (48 <=? n) && (n <=? 57) then Some (n - 48)
  else if (97 <=? n) && (n <=? 102) then Some (n - 87)
  else if (65 <=? n) && (n <=? 70) then Some (n - 55)
  else None.

(** The four hexadecimal digits after a backslash and [u]. *)
Definition hex4 (a b c d : ascii) : option nat :=
  match hex_value a, hex_value b, hex_value c, hex_value d with
  | Some x, Some y, Some z, Some w => Some (((x * 16 + y) * 16 + z) * 16 + w)
  | _, _, _, _ => None
  end.

(** The character a one-letter escape stands for. *)
Definition unescape (e : ascii) : option ascii :=
  let n := nat_of_ascii e in
  if (n =? 34) || (n =? 92) || (n =? 47) then Some e
  else if n =? 98 then Some (ascii_of_nat 8)
  else if n =? 102 then Some (ascii_of_nat 12)
  else if n =? 110 then Some (ascii_of_nat 10)
  else if n =? 114 then Some (ascii_of_nat 13)
  else if n =? 116 then Some (ascii_of_nat 9)
  else None.

Definition consed (c : ascii) (r : option (str * str)) : option (str * str) :=
  match r with
  | Some (x, rest) => Some (c :: x, rest)
  | None => None
  end.

(** [scanstring] in strict mode, from behind the opening quote: the text
    up to the closing quote, and what follows it. *)
Fixpoint scan_string (s : str) : option (str * str) :=
  match s with
  | [] => None
  | c :: rest =>
      let n := nat_of_ascii c in
      if n =? 34 then Some ([], rest)
      else if n =? 92 then
        match rest with
        | [] => None
        | e :: rest1 =>
            if nat_of_ascii e =? 117 then
              match rest1 with
              | h1 :: h2 :: h3 :: h4 :: rest2 =>
                  match hex4 h1 h2 h3 h4 with
                  | Some v =>
                      if v <? 256 then consed (ascii_of_nat v) (scan_string rest2)
                      else None
                  | None => None
                  end
              | _ => None
              end
            else
              match unescape e with
              | Some c' => consed c' (scan_string rest1)
              | None => None
              end
        end
      else if n <? 32 then None
      else consed c (scan_string rest)
  end.

Definition digit_value (c : ascii) : option nat :=
  let n := nat_of_ascii c in
  if (48 <=? n) && (n <=? 57) then Some (n - 48) else None.

Fixpoint scan_digits (acc : nat) (s : str) : nat * str :=
  match s with
  | [] => (acc, [])
  | c :: s' =>
      match digit_value c with
      | Some d => scan_digits (10 * acc + d) s'
      | None => (acc, s)
      end
  end.

(** What makes a number a float: a fraction or an exponent. *)
Definition is_float_mark (c : ascii) : bool :=
  let n := nat_of_ascii c in
  (n =? 46) || (n =? 101) || (n =? 69).

(** A number token: [0], or a digit from 1 to 9 followed by digits. *)
Definition scan_number (s : str) : option (nat * str) :=
  match s with
  | [] => None
  | c :: s' =>
      match digit_value c with
      | None => None
      | Some d =>
          let found := if d =? 0 then (0, s') else scan_digits d s' in
          match snd found with
          | [] => Some found
          | c' :: _ => if is_float_mark c' then None else Some found
          end
      end
  end.

(** A Python [dict] keeps one value per key: a later pair replaces the
    value of an equal key, in the place of the first. *)
Fixpoint dict_set (k : str) (v : json) (members : list (str * json))
  : list (str * json) :=
  match members with
  | [] => [(k, v)]
  | (k', v') :: rest =>
      if str_eqb k k' then (k, v) :: rest else (k', v') :: dict_set k v rest
  end.

Definition dict_of_pairs (pairs : list (str * json)) : list (str * json) :=
  fold_left (fun d kv => dict_set (fst kv) (snd kv) d) pairs [].

Definition tagged {A B : Type} (f : A -> B) (r : option (A * str)) : option (B * str) :=
  match r with
  | Some (a, rest) => Some (f a, rest)
  | None => None
  end.

Definition added {A : Type} (a : A) (r : option (list A * str)) : option (list A * str) :=
  match r with
  | Some (l, rest) => Some (a :: l, rest)
  | None => None
  end.

(** [scan_once] at the start of [s], and the loops of [JSONArray] and
    [JSONObject] behind the first item and the first key.  [fuel] bounds
    the nesting and the number of items. *)
Fixpoint parse_value (fuel : nat) (s : str) : option (json * str) :=
  match fuel with
  | 0 => None
  | S fuel' =>
      match s with
      | [] => None
      | c :: s' =>
          let n := nat_of_ascii c in
          if n =? 34 then tagged JStr (scan_string s')
          else if n =? 91 then
            match skip_ws s' with
            | [] => None
            | c1 :: rest =>
                if nat_of_ascii c1 =? 93 then Some (JList [], rest)
                else tagged JList (parse_items fuel' (c1 :: rest))
            end
          else if n =? 123 then
            match skip_ws s' with
            | [] => None
            | c1 :: rest =>
                if nat_of_ascii c1 =? 125 then Some (JDict [], rest)
                else tagged (fun pairs => JDict (dict_of_pairs pairs))
                            (parse_members fuel' (c1 :: rest))
            end
          else tagged JInt (scan_number s)
      end
  end
with parse_items (fuel : nat) (s : str) : option (list json * str) :=
  match fuel with
  | 0 => None
  | S fuel' =>
      match parse_value fuel' s with
      | None => None
      | Some (v, rest) =>
          match skip_ws rest with
          | [] => None
          | c :: rest' =>
              if nat_of_ascii c =? 44 then added v (parse_items fuel' (skip_ws rest'))
              else if nat_of_ascii c =? 93 then Some ([v], rest')
              else None
          end
      end
  end
with parse_members (fuel : nat) (s : str) : option (list (str * json) * str) :=
  match fuel with
  | 0 => None
  | S fuel' =>
      match s with
      | [] => None
      | q :: s' =>
          if nat_of_ascii q =? 34 then
            match scan_string s' with
            | None => None
            | Some (k, rest) =>
                match skip_ws rest with
                | [] => None
                | c1 :: rest1 =>
                    if nat_of_ascii c1 =? 58 then
                      match parse_value fuel' (skip_ws rest1) with
                      | None => None
                      | Some (v, rest2) =>
                          match skip_ws rest2 with
                          | [] => None
                          | c2 :: rest3 =>
                              if nat_of_ascii c2 =? 44 then
                                added (k, v) (parse_members fuel' (skip_ws rest3))
                              else if nat_of_ascii c2 =? 125 then Some ([(k, v)], rest3)
                              else None
                          end
                      end
                    else None
                end
            end
          else None
      end
  end.

(** [json.loads(s)]: one value, with nothing but whitespace around it. *)
Definition loads (s : str) : option json :=
  match parse_value (2 * length s + 2) (skip_ws s) with
  | Some (j, rest) =>
      match skip_ws rest with
      | [] => Some j
      | _ :: _ => None
      end
  | None => None
  end.



(** ** Build Runner *)

(** How [subprocess.run] ends: the command ran and exited with a status,
    or it could not be started and [run] raised. *)
Inductive run_outcome :=
| Completed (returncode : Z)
| LaunchFailed (e : exn).

Inductive event :=
| Chdir (dir : path)
| Run (cwd : path) (command : list str) (outcome : run_outcome).

(** The process-wide state the Build Runner touches: the working
    directory, and the log of what it did. *)
Record process := { cwd : path; trace : list event }.

Definition chdir (dir : path) (st : process) : process :=
  {| cwd := dir; trace := trace st ++ [Chdir dir] |}.

Definition log_run (command : list str) (o : run_outcome) (st : process) : process :=
  {| cwd := cwd st; trace := trace st ++ [Run (cwd st) command o] |}.

(** [COMPILE_COMMAND + [file.name]]. *)
Definition build_command (file : path) : list str := COMPILE_COMMAND ++ [name file].

(** The loop body over the files [rglob] yields.  [run] stands for the
    environment: what launching a command from a directory leads to. *)
Fixpoint compile_loop (run : path -> list str -> run_outcome)
         (files : list path) (st : process) : process * result unit :=
  match files with
  | [] => (st, Ok tt)
  | file :: rest =>
      let saved := cwd st in
      let st1 := chdir (parent file) st in
      let command := build_command file in
      match run (cwd st1) command with
      | LaunchFailed e => (log_run command (LaunchFailed e) st1, Raise e)
      | Completed rc =>
          compile_loop run rest (chdir saved (log_run command (Completed rc) st1))
      end
  end.

(** [compile_code_files(path)] for an absolute [path]: the files are those
    [rglob] finds in the tree as it is when the scan starts; what the
    build commands write is not followed. *)
Definition compile_code_files (run : path -> list str -> run_outcome)
           (fs : node) (p : path) (st : process)
  : option (process * result unit) :=
  option_map (fun files => compile_loop run files st) (rglob fs p FILE_EXTENSION).


(** The commands the Build Runner tried to launch, with the directory each
    was launched from, in order. *)
Fixpoint attempts (t : list event) : list (path * list str) :=
  match t with
  | [] => []
  | Run d command _ :: t' => (d, command) :: attempts t'
  | Chdir _ :: t' => attempts t'
  end.

(** What one pass of the loop adds to the log when the command runs:
    enter the file's directory, run, go back to [saved]. *)
Definition pass (run : path -> list str -> run_outcome) (saved : path)
           (file : path) : list event :=
  [Chdir (parent file);
   Run (parent file) (build_command file) (run (parent file) (build_command file));
   Chdir saved].

Definition launches (run : path -> list str -> run_outcome) (file : path) : Prop :=
  exists rc, run (parent file) (build_command file) = Completed rc.


(** ** The pipeline: [create_new_dirs] and [main]

    How a call of the pipeline ends.  Beside the built-in exceptions there
    are [shutil.Error] with the source paths that failed, the [ValueError]
    of unpacking an argument list of the wrong length, and the plain
    [Exception] of the entry point. *)
Inductive failure :=
| Builtin (e : exn)
| CopyFailed (failed : list path)
| ValueError
| UsageError.

Inductive outcome :=
| Done
| Failed (f : failure).

(** The absolute path with the given components. *)
Definition abs_path (ps : list str) : pure_path :=
  {| absolute := true; parts := ps |}.

(** [os.path.exists] of an absolute path. *)
Definition exists_at (fs : node) (ps : list str) : bool :=
  match walk fs [] ps with
  | Ok _ => true
  | Raise _ => false
  end.

(** The last step of [os.makedirs(name, exist_ok=True)]: [os.mkdir], whose
    [OSError] is swallowed when the path is a directory. *)
Definition mkdir_or_isdir (fs : node) (pp : pure_path) : node * result unit :=
  match os_mkdir fs [] pp with
  | (fs', Ok tt) => (fs', Ok tt)
  | (fs', Raise e) => if is_dir fs' [] pp then (fs', Ok tt) else (fs', Raise e)
  end.

(** [os.makedirs(name, exist_ok=True)] for the first [k] components of the
    absolute path [all]: when the head does not exist it is made first, by
    the same function, and a [FileExistsError] from there is passed over. *)
Fixpoint makedirs_upto (k : nat) (fs : node) (all : list str) : node * result unit :=
  match k with
  | 0 => mkdir_or_isdir fs (abs_path [])
  | S k' =>
      let before :=
        if exists_at fs (firstn k' all) then (fs, Ok tt)
        else match makedirs_upto k' fs all with
             | (fs1, Raise FileExistsError) => (fs1, Ok tt)
             | other => other
             end in
      match before with
      | (fs1, Ok tt) => mkdir_or_isdir fs1 (abs_path (firstn (S k') all))
      | (fs1, Raise e) => (fs1, Raise e)
      end
  end.

Definition makedirs (fs : node) (ps : list str) : node * result unit :=
  makedirs_upto (length ps) fs ps.

(** [a] is [b] or lies above it. *)
Fixpoint is_prefix (a b : path) : bool :=
  match a, b with
  | [], _ => true
  | x :: a', y :: b' => str_eqb x y && is_prefix a' b'
  | _ :: _, [] => false
  end.

Definition overlapping (a b : path) : bool := is_prefix a b || is_prefix b a.

(** [pathlib.Path.joinpath(p, child)] for a string [child]: an anchored
    child replaces [p], any other adds its components. *)
Definition joinpath_str (p : path) (child : str) : pure_path :=
  if absolute (Path child) then Path child
  else abs_path (p ++ parts (Path child)).

(** [copy_and_overwrite(source, dest)] in the filesystem: [copytree] lists
    the source first, then makes the destination directory with its
    missing parents, then copies entry by entry.  [None] when the source
    and the destination directory lie inside one another: there the reads
    of the copy would see its own writes, which [copytree] on two separate
    subtrees does not follow. *)
Definition copy_and_overwrite_at (fs : node) (source : path) (dest : pure_path)
  : option (node * outcome) :=
  match walk fs [] source with
  | Raise e => Some (fs, Failed (Builtin e))
  | Ok qs =>
      match lookup qs fs with
      | Some (Dir es) =>
          match makedirs fs (parts dest) with
          | (fs1, Raise e) => Some (fs1, Failed (Builtin e))
          | (fs1, Ok tt) =>
              match walk fs1 [] (parts dest) with
              | Ok qd =>
                  if overlapping qs qd then None
                  else
                    match copytree (Dir es) (lookup qd fs1) with
                    | (Some d', Copied) => Some (store qd d' fs1, Done)
                    | (Some d', CopyErrors failed) =>
                        Some (store qd d' fs1, Failed (CopyFailed failed))
                    | (_, CopyRaised e) => Some (fs1, Failed (Builtin e))
                    | (None, _) => None
                    end
              | Raise _ => None
              end
          end
      | Some (File _) => Some (fs, Failed (Builtin NotADirectoryError))
      | None => Some (fs, Failed (Builtin FileNotFoundError))
      end
  end.

(** [create_new_dirs(old_dirs, new_dirpath, new_dirs)]: [zip] pairs the two
    lists up to the shorter one; the first failure ends the loop. *)
Fixpoint create_new_dirs (fs : node) (old_dirs : list path) (new_dirpath : path)
         (new_dirs : list str) : option (node * outcome) :=
  match old_dirs, new_dirs with
  | src_path :: old_dirs', new_dir :: new_dirs' =>
      match copy_and_overwrite_at fs src_path (joinpath_str new_dirpath new_dir) with
      | None => None
      | Some (fs1, Done) => create_new_dirs fs1 old_dirs' new_dirpath new_dirs'
      | Some (fs1, Failed f) => Some (fs1, Failed f)
      end
  | _, _ => Some (fs, Done)
  end.

(** What a run works on: the filesystem, and the process state. *)
Record world := { files : node; proc : process }.

Definition of_result (r : result unit) : outcome :=
  match r with
  | Ok _ => Done
  | Raise e => Failed (Builtin e)
  end.

(** [main(args)].  Relative paths are resolved against the working
    directory of the process.  What the build commands write is not part
    of the tree. *)
Definition main (run : path -> list str -> run_outcome) (w : world)
           (args : list str) : option (world * outcome) :=
  match args with
  | [source; target] =>
      match get_absolute_path (files w) (cwd (proc w)) source with
      | Raise e => Some (w, Failed (Builtin e))
      | Ok source_path =>
          match find_all_game_paths (files w) source_path with
          | None => None
          | Some game_dirs =>
              match get_names_from_paths game_dirs (py "game") with
              | None => None
              | Some (Raise e) => Some (w, Failed (Builtin e))
              | Some (Ok new_game_dirs) =>
                  match setup_target_dir (files w) (cwd (proc w)) target with
                  | (fs1, Raise e) =>
                      Some ({| files := fs1; proc := proc w |}, Failed (Builtin e))
                  | (fs1, Ok target_path) =>
                      match create_new_dirs fs1 game_dirs target_path new_game_dirs with
                      | None => None
                      | Some (fs2, Failed f) =>
                          Some ({| files := fs2; proc := proc w |}, Failed f)
                      | Some (fs2, Done) =>
                          match make_json_metadata_file fs2 target_path new_game_dirs with
                          | (fs3, Raise e) =>
                              Some ({| files := fs3; proc := proc w |},
                                    Failed (Builtin e))
                          | (fs3, Ok tt) =>
                              match compile_code_files run fs3 target_path (proc w) with
                              | None => None
                              | Some (st', r) =>
                                  Some ({| files := fs3; proc := st' |}, of_result r)
                              end
                          end
                      end
                  end
              end
          end
      end
  | _ => Some (w, Failed ValueError)
  end.

(** The entry point: [sys.argv] has to hold the script name and two
    arguments. *)
Definition script (run : path -> list str -> run_outcome) (w : world)
           (argv : list str) : option (world * outcome) :=
  if negb (length argv =? 3) then Some (w, Failed UsageError)
  else main run w (tl argv).


(** ** Sample data

    Concrete trees and environments on which the statements below are
    tried.  First a harvested tree with three build sources in one
    directory, and two environments: in one the second build exits with
    status 1, in the other it cannot be launched. *)
Definition sample_target : path := [py "harvest"].

Definition sample_fs : node :=
  Dir [(py "harvest",
        Dir [(py "One",
              Dir [(py "a.go", File (py "package main"));
                   (py "b.go", File (py "package"));
                   (py "c.go", File (py "package main"))]);
             (py "metadata.json", File (py "stale"))])].

Definition sample_files : list path :=
  [[py "harvest"; py "One"; py "a.go"];
   [py "harvest"; py "One"; py "b.go"];
   [py "harvest"; py "One"; py "c.go"]].

Definition sample_process : process := {| cwd := [py "home"]; trace := [] |}.

Definition second_exits_1 (d : path) (command : list str) : run_outcome :=
  if str_eqb (last command []) (py "b.go") then Completed 1 else Completed 0.

Definition second_not_launched (d : path) (command : list str) : run_outcome :=
  if str_eqb (last command []) (py "b.go") then LaunchFailed FileNotFoundError
  else Completed 0.

(** A source directory and a destination that already holds an older copy
    and a file of its own. *)
Definition sample_source : node :=
  Dir [(py "main.go", File (py "package main"));
       (py "assets", Dir [(py "logo.png", File (py "PNG"))])].

Definition sample_dest : node :=
  Dir [(py "main.go", File (py "old"));
       (py "notes.txt", File (py "mine"));
       (py "assets", Dir [(py "extra.png", File (py "kept"))])].

(** A home directory with a harvest directory in it. *)
Definition sample_home : node :=
  Dir [(py "home", Dir [(py "harvest", Dir [(py "One", Dir [])])])].

(** A source with a regular file [a], and a destination that has a
    directory of that name with a file [a] inside. *)
Definition clash_source : node := Dir [(py "a", File (py "new"))].

Definition clash_dest : node := Dir [(py "a", Dir [(py "a", File (py "old"))])].

(** A home directory with a source root: four directories with [game] in
    their names, and a regular file. *)
Definition sample_src : node :=
  Dir [(py "GameOne",
        Dir [(py "main.go", File (py "package main"));
             (py "lib", Dir [(py "util.go", File (py "package lib"))])]);
       (py "MyGameTwo", Dir []);
       (py "notagame", Dir [(py "readme.txt", File (py "r"))]);
       (py "gamefile", File (py "f"));
       (py "GAME3", Dir [])].

Definition sample_tree : node := Dir [(py "home", Dir [(py "src", sample_src)])].

Definition sample_world : world :=
  {| files := sample_tree; proc := {| cwd := [py "home"]; trace := [] |} |}.

Definition always_builds (d : path) (command : list str) : run_outcome :=
  Completed 0.


(** ** Auxiliary notions for the proofs *)

(** The compiled form of a pattern without metacharacters. *)
Definition lits (p : str) : Re.regex := map (fun c => (Re.Lit c, Re.One)) p.

(** Both regular files, or both directories. *)
Definition same_kind (a b : node) : Prop :=
  match a, b with
  | File _, File _ => True
  | Dir _, Dir _ => True
  | _, _ => False
  end.

(** Induction over a tree together with the entries of its directories. *)
Fixpoint node_entries_ind (P : node -> Prop)
         (HF : forall data, P (File data))
         (HD : forall es, Forall (fun e => P (snd e)) es -> P (Dir es))
         (n : node) {struct n} : P n :=
  match n with
  | File data => HF data
  | Dir es =>
      HD es ((fix all (l : entries_t) : Forall (fun e => P (snd e)) l :=
                match l with
                | [] => Forall_nil _
                | (k, child) :: l' =>
                    Forall_cons (k, child) (node_entries_ind P HF HD child) (all l')
                end) es)
  end.

(** A match consumes at most what is left and satisfies the acceptance
    test. *)
Definition bounded (ok : nat -> bool) (k : nat -> str -> option nat) : Prop :=
  forall n s m, k n s = Some m -> n <= m <= n + length s /\ ok m = true.

(** The number of rounds [findall] can still make. *)
Definition rounds_left (must_advance : bool) (s : str) : nat :=
  2 * length s + (if must_advance then 0 else 1).

(** A path of plain names: no component is [..]. *)
Definition plain (ps : list str) : bool :=
  forallb (fun c => negb (is_dotdot c)) ps.

(** A component as [pathlib] keeps it below a resolved path: not empty,
    not [.], not [..]. *)
Definition proper_name (c : str) : bool :=
  negb (str_eqb c []) && negb (str_eqb c (py ".")) && negb (is_dotdot c).


(** [FILE_EXTENSION] as [fnmatch] reads it. *)
Definition GO_GLOB : list Fnmatch.item :=
  [Fnmatch.AnySeq;
   Fnmatch.Single (Fnmatch.Char ".");
   Fnmatch.Single (Fnmatch.Char "g");
   Fnmatch.Single (Fnmatch.Char "o")].

(** A build command as the Build Runner forms it: [go build] and a name
    ending in [.go], launched from a directory at or below [root]. *)
Definition build_of (root : path) (a : path * list str) : Prop :=
  is_prefix root (fst a) = true
  /\ exists stem, snd a = [py "go"; py "build"; stem ++ py ".go"].


(** The destination is free for the source: no directory of the
    destination stands where the source has a regular file, and no regular
    file where the source has a directory. *)
Fixpoint compatible (n : node) (old : option node) : bool :=
  match n with
  | File _ => negb (is_dir_node old)
  | Dir sub =>
      match old with
      | Some (File _) => false
      | Some (Dir d) =>
          forallb (fun e => match e with
                            | (nm, child) => compatible child (assoc nm d)
                            end) sub
      | None => true
      end
  end.


(** What is found in the destination carries the source node [m]: the
    same regular file, or a directory where [m] is one. *)
Definition carries (m : node) (found : option node) : Prop :=
  match m with
  | File x => found = Some (File x)
  | Dir _ => is_dir_node found = true
  end.

Definition merge_source : entries_t :=
  [(py "main.go", File (py "package main"));
   (py "lib", Dir [(py "util.go", File (py "package lib"))])].

Definition merge_dest : option node :=
  Some (Dir [(py "lib", Dir [(py "old.go", File (py "package old"))]);
             (py "main.go", File (py "stale"))]).


(** A source root with a directory whose name [DIR_PATTERN] accepts
    although it does not hold the word. *)
Definition odd_world : world :=
  {| files := Dir [(py "home",
                    Dir [(py "src",
                          Dir [(py "GameOne", Dir [(py "main.go", File (py "package main"))]);
                               (py "g|me", Dir [])])])];
     proc := {| cwd := [py "home"]; trace := [] |} |}.


(** Every path of [a] is a path of [b], of the same kind. *)
Definition keeps_all (a b : node) : Prop :=
  forall p n, lookup p a = Some n ->
              exists n', lookup p b = Some n' /\ same_kind n n'.


(** The sample world after a run with source [src] and target [harvest]
    in which every build command runs. *)
Definition sample_names : list str := [py "One"; py "MyTwo"; py "nota"; py "3"].

Definition sample_harvested : world :=
  {| files :=
       Dir [(py "home",
             Dir [(py "src", sample_src);
                  (py "harvest",
                   Dir [(py "One",
                         Dir [(py "main.go", File (py "package main"));
                              (py "lib", Dir [(py "util.go", File (py "package lib"))])]);
                        (py "MyTwo", Dir []);
                        (py "nota", Dir [(py "readme.txt", File (py "r"))]);
                        (py "3", Dir []);
                        (py "metadata.json", File (dumps (metadata sample_names)))])])];
     proc :=
       {| cwd := [py "home"];
          trace := flat_map (pass always_builds [py "home"])
                            [[py "home"; py "harvest"; py "One"; py "main.go"];
                             [py "home"; py "harvest"; py "One"; py "lib"; py "util.go"]] |} |}.


(** A source root whose only directory is named by the bare word, and a
    target directory with a file of its own. *)
Definition bare_tree : node :=
  Dir [(py "home",
        Dir [(py "src",
              Dir [(py "game", Dir [(py "main.go", File (py "package main"))])]);
             (py "harvest", Dir [(py "notes.txt", File (py "mine"))])])].


(* ================================================================== *)
(** * Properties *)
(* ================================================================== *)

Lemma str_eqb_eq (a b : str) : str_eqb a b = true <-> a = b.
Proof.
  unfold str_eqb. destruct (list_eq_dec ascii_dec a b); split; congruence.
Qed.

Lemma str_eqb_refl (a : str) : str_eqb a a = true.
Proof. now apply str_eqb_eq. Qed.

Lemma str_eqb_neq (a b : str) : str_eqb a b = false <-> a <> b.
Proof.
  unfold str_eqb. destruct (list_eq_dec ascii_dec a b); split; congruence.
Qed.

Lemma ci_eqb_refl (a : ascii) : ci_eqb a a = true.
Proof. apply Ascii.eqb_refl. Qed.

(** ** Strings *)

Lemma prefixb_split (a s : str) :
  prefixb a s = true -> s = a ++ skipn (length a) s.
Proof.
  revert s; induction a as [|x a IH]; intros [|y s]; simpl; try easy.
  intros H. apply andb_prop in H as [Hxy Ha].
  apply Ascii.eqb_eq in Hxy. subst. f_equal. now apply IH.
Qed.

Lemma prefixb_length (a s : str) : prefixb a s = true -> length a <= length s.
Proof.
  revert s; induction a as [|x a IH]; intros [|y s]; simpl; try easy; try lia.
  intros H. apply andb_prop in H as [_ Ha]. apply IH in Ha. lia.
Qed.

Lemma prefixb_extend (a s t : str) :
  prefixb a s = true -> prefixb a (s ++ t) = true.
Proof.
  revert s; induction a as [|x a IH]; intros [|y s]; simpl; try easy.
  intros H. apply andb_prop in H as [-> Ha]. simpl. now apply IH.
Qed.

Lemma ci_prefixb_length (p s : str) :
  ci_prefixb p s = true -> length p <= length s.
Proof.
  revert s; induction p as [|x p IH]; intros [|y s]; simpl; try easy; try lia.
  intros H. apply andb_prop in H as [_ Hp]. apply IH in Hp. lia.
Qed.

(** The text found where [p] matches without case is itself matched by
    whatever [p] matches without case. *)
Lemma ci_prefixb_trans (p s t : str) :
  ci_prefixb p s = true ->
  prefixb (firstn (length p) s) t = true ->
  ci_prefixb p t = true.
Proof.
  revert s t; induction p as [|x p IH]; intros [|y s] [|z t]; simpl; try easy.
  intros H1 H2.
  apply andb_prop in H1 as [Hxy Hp]. apply andb_prop in H2 as [Hyz Hm].
  apply Ascii.eqb_eq in Hyz. subst z. rewrite Hxy. simpl. eauto.
Qed.

Lemma ci_prefixb_firstn (p s : str) :
  ci_prefixb p s = true -> prefixb (firstn (length p) s) s = true.
Proof.
  revert s; induction p as [|x p IH]; intros [|y s]; simpl; try easy.
  intros H. apply andb_prop in H as [_ Hp].
  rewrite Ascii.eqb_refl. now apply IH.
Qed.

(** ** [str.replace] *)

Lemma replace_from_skip (old new : str) (k : nat) (s : str) :
  k <= length s ->
  replace_from old new k s = replace_from old new 0 (skipn k s).
Proof.
  revert k; induction s as [|c s IH]; intros [|k] Hk; simpl in *;
    try reflexivity; try lia.
  apply IH. lia.
Qed.

Lemma replace_from_hit (old new s : str) :
  old <> [] -> prefixb old s = true ->
  replace_from old new 0 s
  = new ++ replace_from old new 0 (skipn (length old) s).
Proof.
  intros Hne Hp. pose proof (prefixb_length _ _ Hp) as Hlen.
  destruct old as [|x old]; [congruence|].
  destruct s as [|c s]; [discriminate|].
  cbn [replace_from]. rewrite Hp. f_equal.
  simpl in Hlen. simpl length. rewrite Nat.sub_succ, Nat.sub_0_r.
  rewrite replace_from_skip by lia. reflexivity.
Qed.

Lemma replace_from_miss (old new : str) (c : ascii) (s : str) :
  prefixb old (c :: s) = false ->
  replace_from old new 0 (c :: s) = c :: replace_from old new 0 s.
Proof. intros H. cbn [replace_from]. now rewrite H. Qed.

Lemma replace_empty_old (s : str) : replace [] [] s = s.
Proof.
  unfold replace. simpl. induction s as [|c s IH]; simpl; congruence.
Qed.

(** Text in which [old] does not occur is left as it is. *)
Lemma replace_absent (old s : str) :
  occurs old s = false -> replace old [] s = s.
Proof.
  destruct old as [|x old]; [intros; apply replace_empty_old|].
  unfold replace. induction s as [|c s IH]; [reflexivity|].
  intros H. cbn [occurs] in H. apply orb_false_iff in H as [Hp Ho].
  rewrite replace_from_miss by exact Hp. f_equal. now apply IH.
Qed.

(** [replace] seen from the outside: the text is cut at copies of [old];
    what comes back is the pieces between them, none of which holds [old],
    put together in order. *)
Lemma replace_removes_copies (old : str) :
  old <> [] ->
  forall s, exists piece pieces,
    s = join old (piece :: pieces)
    /\ replace old [] s = concat (piece :: pieces)
    /\ Forall (fun q => occurs old q = false) (piece :: pieces).
Proof.
  intros Hne.
  assert (Hempty : occurs old [] = false).
  { destruct old; [congruence | reflexivity]. }
  assert (Hrep : forall s, replace old [] s = replace_from old [] 0 s).
  { intros s. destruct old; [congruence | reflexivity]. }
  assert (Hcons : forall c q qs, join old ((c :: q) :: qs) = c :: join old (q :: qs)).
  { intros c q [|q' qs]; reflexivity. }
  intros s. remember (length s) as n eqn:Hn. revert s Hn.
  induction n as [n IH] using lt_wf_ind. intros s Hn.
  destruct s as [|c s].
  - exists [], []. repeat split; [now rewrite Hrep | now constructor].
  - destruct (prefixb old (c :: s)) eqn:E.
    + pose proof (prefixb_length _ _ E) as Hlen.
      assert (Hpos : 0 < length old) by (destruct old; [congruence | simpl; lia]).
      assert (Hlt : length (skipn (length old) (c :: s)) < n).
      { rewrite length_skipn. subst n. lia. }
      destruct (IH _ Hlt _ eq_refl) as (q & qs & Hs & Hr & Hall).
      exists [], (q :: qs). split; [|split].
      * change (join old ([] :: q :: qs)) with ([] ++ old ++ join old (q :: qs)).
        rewrite <- Hs. cbn [app]. now apply prefixb_split.
      * rewrite Hrep, replace_from_hit by assumption.
        rewrite <- Hrep, Hr. reflexivity.
      * now constructor.
    + assert (Hlt : length s < n) by (subst n; simpl; lia).
      destruct (IH _ Hlt s eq_refl) as (q & qs & Hs & Hr & Hall).
      exists (c :: q), qs. split; [|split].
      * rewrite Hcons. now f_equal.
      * rewrite Hrep, replace_from_miss by assumption.
        rewrite <- Hrep, Hr. reflexivity.
      * pose proof (Forall_inv Hall) as Hq. cbv beta in Hq.
        constructor; [|exact (Forall_inv_tail Hall)].
        cbn [occurs]. rewrite Hq, orb_false_r.
        destruct (prefixb old (c :: q)) eqn:E2; [|reflexivity].
        assert (Hext : exists t, c :: s = (c :: q) ++ t).
        { rewrite Hs. destruct qs as [|q' qs]; cbn [join].
          - exists []. now rewrite app_nil_r.
          - eexists. reflexivity. }
        destruct Hext as [t Ht]. rewrite Ht in E.
        now rewrite (prefixb_extend _ _ t E2) in E.
Qed.

(** ** Literal patterns under [re] *)

Lemma atom_of_plain (c : ascii) :
  Re.is_special c = false -> Re.atom_of c = Some (Re.Lit c).
Proof.
  intros H. unfold Re.atom_of. rewrite H.
  destruct (Ascii.eqb c ".") eqn:E; [|reflexivity].
  apply Ascii.eqb_eq in E. subst. discriminate.
Qed.

Lemma quant_of_plain (c : ascii) :
  Re.is_special c = false -> Re.quant_of c = None.
Proof.
  intros H. unfold Re.quant_of.
  destruct (Ascii.eqb c "*") eqn:E1;
    [apply Ascii.eqb_eq in E1; subst; discriminate|].
  destruct (Ascii.eqb c "+") eqn:E2;
    [apply Ascii.eqb_eq in E2; subst; discriminate|].
  destruct (Ascii.eqb c "?") eqn:E3;
    [apply Ascii.eqb_eq in E3; subst; discriminate|].
  reflexivity.
Qed.

(** A pattern without metacharacters compiles to its own characters. *)
Lemma compile_literal (p : str) :
  literal p = true -> Re.compile p = Some (lits p).
Proof.
  induction p as [|c p IH]; [reflexivity|].
  intros H. cbn [literal forallb] in H. apply andb_prop in H as [Hc Hp].
  apply negb_true_iff in Hc.
  cbn [Re.compile]. rewrite (atom_of_plain _ Hc).
  destruct p as [|q p]; [reflexivity|].
  pose proof Hp as Hq. cbn [forallb] in Hq. apply andb_prop in Hq as [Hq _].
  apply negb_true_iff in Hq. rewrite (quant_of_plain _ Hq).
  fold (literal (q :: p)) in Hp. rewrite (IH Hp). reflexivity.
Qed.

Lemma match_here_lits (p : str) (ok : nat -> bool) (n : nat) (s : str) :
  Re.match_here (lits p) ok n s
  = if ci_prefixb p s && ok (n + length p) then Some (n + length p) else None.
Proof.
  revert n s; induction p as [|c p IH]; intros n s; simpl.
  - rewrite Nat.add_0_r. reflexivity.
  - destruct s as [|d s]; [reflexivity|].
    unfold ci_eqb at 1. fold (ci_eqb c d).
    destruct (ci_eqb c d); simpl; [|reflexivity].
    rewrite IH. now rewrite Nat.add_succ_r.
Qed.

Lemma search_lits (p : str) (pos : nat) (s : str) :
  Re.search (lits p) false pos s
  = option_map (fun i => (pos + i, length p)) (find_ci p s).
Proof.
  revert pos; induction s as [|c s IH]; intros pos.
  - cbn [Re.search find_ci]. rewrite match_here_lits. cbn [Re.accepts negb orb].
    rewrite andb_true_r. destruct (ci_prefixb p []); simpl;
      [now rewrite Nat.add_0_r | reflexivity].
  - cbn [Re.search find_ci]. rewrite match_here_lits. cbn [Re.accepts negb orb].
    rewrite andb_true_r. destruct (ci_prefixb p (c :: s)); simpl.
    + now rewrite Nat.add_0_r.
    + rewrite IH. destruct (find_ci p s); simpl; [|reflexivity].
      now rewrite Nat.add_succ_r.
Qed.

(** [findall] on a literal pattern: nothing when the pattern is absent,
    otherwise the text at its first occurrence comes first. *)
Lemma findall_lits (p s : str) :
  match find_ci p s with
  | None => Re.findall (lits p) s = []
  | Some i => exists rest,
      Re.findall (lits p) s = firstn (length p) (skipn i s) :: rest
  end.
Proof.
  unfold Re.findall. rewrite Nat.add_comm. cbn [Nat.add Re.findall_from].
  rewrite search_lits. destruct (find_ci p s); simpl; eauto.
Qed.

Lemma find_ci_Some (p s : str) (i : nat) :
  find_ci p s = Some i ->
  ci_prefixb p (skipn i s) = true /\ i + length p <= length s /\
  forall j, j < i -> ci_prefixb p (skipn j s) = false.
Proof.
  revert i; induction s as [|c s IH]; intros i; cbn [find_ci].
  - destruct (ci_prefixb p []) eqn:E; [|discriminate].
    intros [= <-]. pose proof (ci_prefixb_length _ _ E). simpl in *.
    repeat split; [assumption | lia | intros; lia].
  - destruct (ci_prefixb p (c :: s)) eqn:E.
    + intros [= <-]. pose proof (ci_prefixb_length _ _ E). simpl in *.
      repeat split; [assumption | lia | intros; lia].
    + destruct (find_ci p s) as [i'|] eqn:F; [|discriminate].
      intros [= <-]. destruct (IH _ eq_refl) as (H1 & H2 & H3).
      repeat split; [assumption | simpl; lia |].
      intros [|j] Hj; [exact E | simpl; apply H3; lia].
Qed.

(** Before the first case-insensitive occurrence nothing is replaced; at
    it, the matched text is. *)
Lemma replace_from_first_match (p s : str) (i : nat) :
  p <> [] ->
  find_ci p s = Some i ->
  let m := firstn (length p) (skipn i s) in
  replace_from m [] 0 s
  = firstn i s ++ replace_from m [] 0 (skipn (i + length p) s).
Proof.
  intros Hp. revert i; induction s as [|c s IH]; intros i F m.
  - destruct (find_ci_Some _ _ _ F) as (_ & Hlen & _).
    destruct p; [congruence | simpl in Hlen; lia].
  - destruct (find_ci_Some _ _ _ F) as (Hat & Hlen & Hbefore).
    assert (Hm : length m = length p).
    { unfold m. rewrite length_firstn, length_skipn. lia. }
    assert (Hne : m <> []).
    { intros E. rewrite E in Hm. destruct p; [congruence | discriminate]. }
    destruct i as [|i].
    + rewrite replace_from_hit; [| exact Hne | now apply ci_prefixb_firstn].
      simpl. now rewrite Hm.
    + cbn [firstn app]. rewrite replace_from_miss.
      * f_equal. cbn [find_ci] in F.
        destruct (ci_prefixb p (c :: s)) eqn:E; [discriminate|].
        destruct (find_ci p s) as [i'|] eqn:F'; [|discriminate].
        injection F as <-. exact (IH i' eq_refl).
      * destruct (prefixb m (c :: s)) eqn:E; [|reflexivity].
        pose proof (Hbefore 0 ltac:(lia)) as H0. simpl in H0.
        rewrite (ci_prefixb_trans p _ (c :: s) Hat E) in H0.
        discriminate.
Qed.

Lemma replace_first_match (p s : str) (i : nat) :
  find_ci p s = Some i ->
  replace (firstn (length p) (skipn i s)) [] s = strip_every_copy p s.
Proof.
  intros F. unfold strip_every_copy. rewrite F.
  destruct p as [|x p].
  - cbn [length firstn]. rewrite !replace_empty_old, Nat.add_0_r.
    now rewrite firstn_skipn.
  - pose proof (replace_from_first_match (x :: p) s i ltac:(discriminate) F) as R.
    cbv zeta in R. unfold replace.
    destruct (find_ci_Some _ _ _ F) as (_ & Hlen & _).
    destruct (firstn (length (x :: p)) (skipn i s)) eqn:Em; [|exact R].
    apply (f_equal (@length ascii)) in Em.
    rewrite length_firstn, length_skipn in Em. cbn [length] in *. lia.
Qed.

(** ** The rounds of [findall] *)

Lemma star_loop_bounded (ok : nat -> bool) (a : Re.atom)
      (k : nat -> str -> option nat) :
  bounded ok k -> bounded ok (Re.star_loop a k).
Proof.
  intros Hk n s. revert n. induction s as [|c s IH]; intros n m; cbn [Re.star_loop].
  - apply Hk.
  - destruct (Re.atom_matches a c); [|apply Hk].
    destruct (Re.star_loop a k (S n) s) as [m'|] eqn:E.
    + intros [= <-]. apply IH in E as [Hm Hok]. split; [simpl; lia | exact Hok].
    + apply Hk.
Qed.

Lemma match_here_bounded (r : Re.regex) (ok : nat -> bool) :
  bounded ok (Re.match_here r ok).
Proof.
  induction r as [|[a q] r IH]; intros n s m; cbn [Re.match_here].
  - destruct (ok n) eqn:E; [|discriminate]. intros [= <-]. split; [lia | exact E].
  - destruct q.
    + destruct s as [|c s]; [discriminate|].
      destruct (Re.atom_matches a c); [|discriminate].
      intros H. apply IH in H as [Hm Hok]. split; [simpl; lia | exact Hok].
    + destruct s as [|c s]; [apply IH|].
      destruct (Re.atom_matches a c); [|apply IH].
      destruct (Re.match_here r ok (S n) s) as [m'|] eqn:E.
      * intros [= <-]. apply IH in E as [Hm Hok]. split; [simpl; lia | exact Hok].
      * apply IH.
    + apply star_loop_bounded, IH.
    + destruct s as [|c s]; [discriminate|].
      destruct (Re.atom_matches a c); [|discriminate].
      intros H. apply (star_loop_bounded ok a _ IH) in H as [Hm Hok].
      split; [simpl; lia | exact Hok].
Qed.

Lemma search_bounded (r : Re.regex) (must_advance : bool) (pos : nat) (s : str)
      (b n : nat) :
  Re.search r must_advance pos s = Some (b, n) ->
  pos <= b /\ (b - pos) + n <= length s /\
  (must_advance = true -> b = pos -> n <> 0).
Proof.
  revert must_advance pos. induction s as [|c s IH]; intros ma pos; cbn [Re.search].
  - destruct (Re.match_here r (Re.accepts ma) 0 []) as [m|] eqn:E; [|discriminate].
    intros [= <- <-]. apply match_here_bounded in E as [Hm Hok].
    unfold Re.accepts in Hok. repeat split; try lia.
    intros -> _ ->. discriminate.
  - destruct (Re.match_here r (Re.accepts ma) 0 (c :: s)) as [m|] eqn:E.
    + intros [= <- <-]. apply match_here_bounded in E as [Hm Hok].
      unfold Re.accepts in Hok. repeat split; try lia.
      intros -> _ ->. discriminate.
    + intros H. apply IH in H as (H1 & H2 & _). simpl. repeat split; lia.
Qed.

(** With more fuel than rounds left, the fuel does not matter: the scan
    ends by itself. *)
Lemma findall_from_enough (r : Re.regex) (fuel1 fuel2 : nat) :
  forall must_advance s,
    rounds_left must_advance s < fuel1 ->
    rounds_left must_advance s < fuel2 ->
    Re.findall_from fuel1 r must_advance s = Re.findall_from fuel2 r must_advance s.
Proof.
  revert fuel2. induction fuel1 as [|fuel1 IH]; intros fuel2 ma s H1 H2; [lia|].
  destruct fuel2 as [|fuel2]; [lia|]. cbn [Re.findall_from].
  destruct (Re.search r ma 0 s) as [[b n]|] eqn:E; [|reflexivity].
  apply search_bounded in E as (_ & Hlen & Hadv). f_equal.
  assert (Hless : rounds_left (n =? 0) (skipn (b + n) s) < rounds_left ma s).
  { unfold rounds_left. rewrite length_skipn.
    destruct (Nat.eqb_spec n 0) as [->|Hn].
    - destruct ma.
      + destruct b; [now specialize (Hadv eq_refl eq_refl) | lia].
      + lia.
    - destruct ma; lia. }
  apply IH; lia.
Qed.

(** ** Name Transformer *)

Lemma strip_match_literal (p s : str) :
  strip_match (lits p) s
  = if contains_ci p s then Ok (strip_every_copy p s) else Raise IndexError.
Proof.
  unfold strip_match, contains_ci. pose proof (findall_lits p s) as H.
  destruct (find_ci p s) as [i|] eqn:F.
  - destruct H as [rest ->]. f_equal. now apply replace_first_match.
  - now rewrite H.
Qed.

Lemma names_loop_literal_ok (p : str) (paths : list path) :
  Forall (fun q => contains_ci p (name q) = true) paths ->
  names_loop (lits p) paths
  = Ok (map (fun q => strip_every_copy p (name q)) paths).
Proof.
  induction 1 as [|q paths Hq _ IH]; [reflexivity|].
  cbn [names_loop map]. rewrite strip_match_literal, Hq. cbn [bind].
  rewrite IH. reflexivity.
Qed.

Lemma names_loop_literal_raises (p : str) (paths : list path) :
  Exists (fun q => contains_ci p (name q) = false) paths ->
  names_loop (lits p) paths = Raise IndexError.
Proof.
  induction 1 as [q paths Hq | q paths _ IH]; cbn [names_loop];
    rewrite strip_match_literal.
  - now rewrite Hq.
  - destruct (contains_ci p (name q)); [|reflexivity].
    cbn [bind]. now rewrite IH.
Qed.

(** C1, as the code has it.  For a pattern without metacharacters and
    directory names that all hold it (letter case ignored), the Name
    Transformer returns, name by name, the name without its first
    case-insensitive occurrence of the pattern and without any later copy
    of the text matched there ([strip_every_copy]); all other characters
    stay, in order.  When that text has no later copy, this is the name
    with exactly the first occurrence cut out. *)
Theorem get_names_strips_every_copy (paths : list path) (p : str) :
  literal p = true ->
  Forall (fun q => contains_ci p (name q) = true) paths ->
  get_names_from_paths paths p
  = Some (Ok (map (fun q => strip_every_copy p (name q)) paths))
  /\ (forall s i,
         find_ci p s = Some i ->
         occurs (firstn (length p) (skipn i s)) (skipn (i + length p) s) = false ->
         Some (strip_every_copy p s) = remove_first_ci p s).
Proof.
  intros Hlit Hall. split.
  - unfold get_names_from_paths. destruct paths as [|q paths]; [reflexivity|].
    rewrite (compile_literal _ Hlit). f_equal. now apply names_loop_literal_ok.
  - intros s i F Hocc. unfold strip_every_copy, remove_first_ci. rewrite F.
    cbv zeta. now rewrite (replace_absent _ _ Hocc).
Qed.

Lemma get_names_strips_every_copy_witness :
  get_names_from_paths [[py "src"; py "MyGameTwo"]; [py "src"; py "GameGAMEGame"]]
                       (py "game")
  = Some (Ok [py "MyTwo"; py "GAME"]).
Proof.
  refine (proj1 (get_names_strips_every_copy
                   [[py "src"; py "MyGameTwo"]; [py "src"; py "GameGAMEGame"]]
                   (py "game") _ _)).
  - reflexivity.
  - repeat constructor.
Defined.

(** C1 as worded fails: of the name [GameGame] the wording leaves [Game],
    the code leaves nothing. *)
Lemma get_names_removes_later_copy :
  remove_first_ci (py "game") (py "GameGame") = Some (py "Game") /\
  get_names_from_paths [[py "src"; py "GameGame"]] (py "game") = Some (Ok [[]]) /\
  get_names_from_paths [[py "src"; py "GameGame"]] (py "game")
  <> Some (Ok [py "Game"]).
Proof. repeat split; [vm_compute; reflexivity .. | vm_compute; discriminate]. Qed.

Lemma names_loop_no_match (r : Re.regex) (paths : list path) :
  Exists (fun q => Re.findall r (name q) = []) paths ->
  names_loop r paths = Raise IndexError.
Proof.
  induction paths as [|q paths IH]; intros Hex; [inversion Hex|].
  cbn [names_loop]. unfold strip_match at 1.
  destruct (Re.findall r (name q)) as [|m ms] eqn:E; [reflexivity|].
  cbn [bind]. inversion Hex as [? ? Hq|? ? Hrest]; subst; [congruence|].
  now rewrite (IH Hrest).
Qed.

Lemma names_loop_empty_match (r : Re.regex) (paths : list path) :
  Forall (fun q => exists rest, Re.findall r (name q) = [] :: rest) paths ->
  names_loop r paths = Ok (map name paths).
Proof.
  induction paths as [|q paths IH]; intros Hall; [reflexivity|].
  inversion Hall as [|? ? [rest Hq] Hrest]; subst.
  cbn [names_loop map]. unfold strip_match at 1.
  rewrite Hq, replace_empty_old. cbn [bind]. now rewrite (IH Hrest).
Qed.

(** C3, as the code has it.  The loop body is the indexing of the list of
    matches followed by the replacement, with no test of the code's own in
    between.  So for every pattern: as soon as the pattern has no match in
    one directory name, the call ends in the [IndexError] of indexing the
    empty list and no list of names comes back; and where the first match
    is the empty string (a pattern such as [x*] on a name without [x]),
    there is no failure at all and every name is passed through as it
    is.  For a pattern without metacharacters, a name that does not
    hold the pattern as a substring, letter case ignored, is a name in
    which the pattern has no match. *)
Theorem get_names_absent_pattern_raises (to_strip : str) (r : Re.regex)
        (paths : list path) :
  Re.compile to_strip = Some r ->
  (forall q, strip_match r (name q)
             = (m <- first_item (Re.findall r (name q)) ;;
                Ok (replace m [] (name q))))
  /\ (Exists (fun q => Re.findall r (name q) = []) paths ->
      get_names_from_paths paths to_strip = Some (Raise IndexError))
  /\ (Forall (fun q => exists rest, Re.findall r (name q) = [] :: rest) paths ->
      get_names_from_paths paths to_strip = Some (Ok (map name paths)))
  /\ (literal to_strip = true ->
      forall s, contains_ci to_strip s = false -> Re.findall r s = []).
Proof.
  intros Hr. split; [|split; [|split]].
  - intros q. unfold strip_match. now destruct (Re.findall r (name q)).
  - intros Hex. unfold get_names_from_paths.
    destruct paths as [|q paths]; [inversion Hex|].
    rewrite Hr. f_equal. now apply names_loop_no_match.
  - intros Hall. unfold get_names_from_paths.
    destruct paths as [|q paths]; [reflexivity|].
    rewrite Hr. f_equal. now apply names_loop_empty_match.
  - intros Hlit s Hs. rewrite (compile_literal _ Hlit) in Hr.
    injection Hr as <-. pose proof (findall_lits to_strip s) as H.
    unfold contains_ci in Hs. now destruct (find_ci to_strip s).
Qed.

Lemma get_names_absent_pattern_raises_witness :
  get_names_from_paths [[py "harvest"; py "One"]] (py "game")
  = Some (Raise IndexError)
  /\ get_names_from_paths [[py "harvest"; py "baab"]] (py "x*")
     = Some (Ok [py "baab"]).
Proof.
  split.
  - destruct (get_names_absent_pattern_raises
                (py "game") (lits (py "game")) [[py "harvest"; py "One"]] eq_refl)
      as (_ & Hraise & _).
    apply Hraise. apply Exists_cons_hd. reflexivity.
  - destruct (get_names_absent_pattern_raises
                (py "x*") [(Re.Lit "x", Re.Star)] [[py "harvest"; py "baab"]] eq_refl)
      as (_ & _ & Hpass & _).
    apply Hpass. constructor; [|constructor].
    exists [[]; []; []; []]. reflexivity.
Defined.

(** C3, the claim at a name the Name Transformer has produced.  With the
    pattern [game], the name [One] is neither left as it is nor refused by
    a check: the list of matches is empty, indexing it raises
    [IndexError], and that built-in exception leaves the function; in a
    run of [main] it is what ends the run, where the only failure the
    script raises itself is the usage error of the entry point.  With the
    pattern [x*], the name [baab], in which no [x] occurs, is passed
    through unmodified without any failure. *)
Lemma get_names_index_error_unguarded :
  Re.compile (py "game") = Some (lits (py "game"))
  /\ Re.findall (lits (py "game")) (py "One") = []
  /\ first_item (Re.findall (lits (py "game")) (py "One")) = Raise IndexError
  /\ get_names_from_paths [[py "harvest"; py "One"]] (py "game")
     = Some (Raise IndexError)
  /\ get_names_from_paths [[py "harvest"; py "One"]] (py "game")
     <> Some (Ok [py "One"])
  /\ main always_builds odd_world [py "src"; py "harvest"]
     = Some (odd_world, Failed (Builtin IndexError))
  /\ get_names_from_paths [[py "harvest"; py "baab"]] (py "x*")
     = Some (Ok [py "baab"]).
Proof.
  repeat split; try (vm_compute; reflexivity). vm_compute. discriminate.
Qed.

(** C10.  The pattern is read as a regular expression.  With a dot in the
    pattern the text removed from [gXmeg.me] is the regex match [gXme],
    where a literal search would take [g.me]; with a star, [Gaaame] is
    found and removed where the literal text [ga*me] does not occur at
    all. *)
Theorem get_names_pattern_is_regex :
  exists (p1 p2 n1 n2 : str),
    existsb Re.is_special p1 = true /\ existsb Re.is_special p2 = true /\
    In "."%char p1 /\ In "*"%char p2 /\
    get_names_from_paths [[n1]] p1 = Some (Ok [py "g.me"]) /\
    remove_first_ci p1 n1 = Some (py "gXme") /\
    get_names_from_paths [[n2]] p2 = Some (Ok [py "1"]) /\
    remove_first_ci p2 n2 = None.
Proof.
  exists (py "g.me"), (py "ga*me"), (py "gXmeg.me"), (py "Gaaame1").
  repeat split; try (vm_compute; reflexivity); vm_compute; tauto.
Qed.

(** ** The filesystem *)

Lemma assoc_set_entry_same (k : str) (v : node) (es : entries_t) :
  assoc k (set_entry k v es) = Some v.
Proof.
  induction es as [|[k' v'] es IH]; simpl.
  - now rewrite str_eqb_refl.
  - destruct (str_eqb k k') eqn:E; simpl; rewrite ?str_eqb_refl, ?E; auto.
Qed.

Lemma assoc_set_entry_other (k k' : str) (v : node) (es : entries_t) :
  k' <> k -> assoc k' (set_entry k v es) = assoc k' es.
Proof.
  intros Hne. apply str_eqb_neq in Hne.
  induction es as [|[k2 v2] es IH]; simpl.
  - now rewrite Hne.
  - destruct (str_eqb k k2) eqn:E; simpl.
    + apply str_eqb_eq in E. subst k2. now rewrite Hne.
    + now rewrite IH.
Qed.

(** Writing back what is there changes nothing. *)
Lemma set_entry_same (k : str) (v : node) (es : entries_t) :
  assoc k es = Some v -> set_entry k v es = es.
Proof.
  induction es as [|[k' v'] es IH]; simpl; [discriminate|].
  destruct (str_eqb k k') eqn:E.
  - apply str_eqb_eq in E. now intros [= ->]; subst.
  - intros H. now rewrite IH.
Qed.

Lemma lookup_app (p q : path) (n : node) :
  lookup (p ++ q) n
  = match lookup p n with Some m => lookup q m | None => None end.
Proof.
  revert n; induction p as [|c p IH]; intros n; simpl; [reflexivity|].
  destruct n as [|es]; [reflexivity|].
  destruct (assoc c es); [apply IH | reflexivity].
Qed.

(** Whatever holds an existing path exists, and is a directory. *)
Lemma lookup_parent (p : path) (c : str) (fs n : node) :
  lookup (joinpath p c) fs = Some n ->
  exists es, lookup p fs = Some (Dir es) /\ assoc c es = Some n.
Proof.
  unfold joinpath. rewrite lookup_app.
  destruct (lookup p fs) as [[|es]|]; simpl; try discriminate.
  destruct (assoc c es) eqn:E; [|discriminate].
  intros [= ->]. eauto.
Qed.

Lemma lookup_removelast (p : path) (fs n : node) :
  lookup p fs = Some n -> exists m, lookup (parent p) fs = Some m.
Proof.
  unfold parent. destruct p as [|c0 p0]; [simpl; eauto|].
  destruct (@exists_last _ (c0 :: p0) ltac:(discriminate)) as [q [c ->]].
  intros H. rewrite removelast_last.
  destruct (lookup_parent q c fs n H) as (es & Hq & _). eauto.
Qed.

Lemma same_kind_refl (a : node) : same_kind a a.
Proof. destruct a; exact I. Qed.

Lemma store_cons (c : str) (p : path) (leaf : str) (v : node) (es : entries_t) :
  store (c :: joinpath p leaf) v (Dir es)
  = match assoc c es with
    | Some m => Dir (set_entry c (store (joinpath p leaf) v m) es)
    | None => Dir es
    end.
Proof. unfold joinpath. destruct p; reflexivity. Qed.

(** What is stored under an existing directory is found there. *)
Lemma lookup_store_leaf (d : path) (leaf : str) (v fs : node) (es : entries_t) :
  lookup d fs = Some (Dir es) ->
  lookup (joinpath d leaf) (store (joinpath d leaf) v fs) = Some v.
Proof.
  revert fs; induction d as [|c d IH]; intros fs H.
  - simpl in H. injection H as ->. simpl. now rewrite assoc_set_entry_same.
  - destruct fs as [|es0]; [discriminate|]. simpl in H.
    destruct (assoc c es0) as [m|] eqn:E; [|discriminate].
    change (joinpath (c :: d) leaf) with (c :: joinpath d leaf).
    rewrite store_cons, E. cbn [lookup]. rewrite assoc_set_entry_same.
    now apply IH.
Qed.

(** Adding an entry under a fresh name keeps every path that existed, with
    its kind. *)
Lemma lookup_store_fresh (d : path) (leaf : str) (v fs : node) (es : entries_t) :
  lookup d fs = Some (Dir es) -> assoc leaf es = None ->
  forall p n, lookup p fs = Some n ->
    exists n', lookup p (store (joinpath d leaf) v fs) = Some n' /\ same_kind n n'.
Proof.
  revert fs; induction d as [|c d IH]; intros fs Hd Hfresh p n Hp.
  - simpl in Hd. injection Hd as ->. simpl.
    destruct p as [|c p]; simpl in *.
    + injection Hp as <-. eexists; split; [reflexivity | exact I].
    + destruct (assoc c es) as [m|] eqn:E; [|discriminate].
      rewrite assoc_set_entry_other by congruence.
      rewrite E. exists n. split; [assumption | apply same_kind_refl].
  - destruct fs as [|es0]; [discriminate|]. simpl in Hd.
    destruct (assoc c es0) as [m|] eqn:E; [|discriminate].
    change (joinpath (c :: d) leaf) with (c :: joinpath d leaf).
    rewrite store_cons, E.
    destruct p as [|c2 p]; simpl in *.
    + injection Hp as <-. eexists; split; [reflexivity | exact I].
    + destruct (list_eq_dec ascii_dec c2 c) as [->|Hne].
      * rewrite assoc_set_entry_same. rewrite E in Hp. now apply (IH m).
      * rewrite assoc_set_entry_other by assumption.
        exists n. split; [assumption | apply same_kind_refl].
Qed.

(** ** Walking and resolving paths *)

Lemma walk_app (fs : node) (cur : path) (a b : list str) :
  walk fs cur (a ++ b) = bind (walk fs cur a) (fun q => walk fs q b).
Proof.
  revert cur; induction a as [|c a IH]; intros cur; simpl; [reflexivity|].
  destruct (lookup cur fs) as [[|es]|]; try reflexivity.
  destruct (is_dotdot c); [apply IH|].
  destruct (lookup (joinpath cur c) fs); [apply IH | reflexivity].
Qed.

(** Where the kernel's walk arrives, [realpath] arrives too, strict or
    not. *)
Lemma walk_realpath (fs : node) (strict : bool) (cur : path) (comps : list str)
      (q : path) :
  walk fs cur comps = Ok q -> realpath_from fs strict cur comps = Ok q.
Proof.
  revert cur; induction comps as [|c cs IH]; intros cur; simpl; [easy|].
  destruct (lookup cur fs) as [[|es]|]; try discriminate.
  destruct (is_dotdot c); [apply IH|].
  destruct (lookup (joinpath cur c) fs); [|discriminate].
  destruct strict; apply IH.
Qed.

(** A walk that succeeds still succeeds once more paths exist. *)
Lemma walk_mono (fs fs' : node) (cur : path) (comps : list str) (q : path) :
  (forall p n, lookup p fs = Some n ->
               exists n', lookup p fs' = Some n' /\ same_kind n n') ->
  walk fs cur comps = Ok q -> walk fs' cur comps = Ok q.
Proof.
  intros Hk. revert cur; induction comps as [|c cs IH]; intros cur; simpl; [easy|].
  destruct (lookup cur fs) as [[|es]|] eqn:E; try discriminate.
  destruct (Hk _ _ E) as (n' & -> & Hs). destruct n'; [destruct Hs|].
  destruct (is_dotdot c); [apply IH|].
  destruct (lookup (joinpath cur c) fs) eqn:E2; [|discriminate].
  destruct (Hk _ _ E2) as (n2 & -> & _). apply IH.
Qed.

(** In strict mode [realpath] only returns paths that exist. *)
Lemma realpath_strict_exists (fs : node) (cur : path) (comps : list str) (q : path) :
  (exists m, lookup cur fs = Some m) ->
  realpath_from fs true cur comps = Ok q ->
  exists m, lookup q fs = Some m.
Proof.
  revert cur; induction comps as [|c cs IH]; intros cur Hcur; simpl.
  - now intros [= <-].
  - destruct (is_dotdot c).
    + apply IH. destruct Hcur as [m Hm]. now apply lookup_removelast in Hm.
    + destruct (lookup (joinpath cur c) fs) as [m|] eqn:E.
      * apply IH. eauto.
      * destruct (lookup cur fs) as [[|]|]; discriminate.
Qed.

(** ** Path Resolver *)

(** The resolver hands back only paths that exist, whenever the path
    string is not empty. *)
Lemma get_absolute_path_exists (fs : node) (wd : path) (dir_file : str) (q : path) :
  dir_file <> [] ->
  (exists m, lookup wd fs = Some m) ->
  get_absolute_path fs wd dir_file = Ok q ->
  exists m, lookup q fs = Some m.
Proof.
  intros Hne Hwd. unfold get_absolute_path, resolve.
  destruct dir_file; [congruence|]. cbn [truthy].
  apply realpath_strict_exists. unfold anchor.
  destruct (absolute _); [destruct fs; simpl; eauto | assumption].
Qed.

(** C5, the code at a path that names nothing: in an empty working
    directory, resolving [missing] raises [FileNotFoundError]; the claim has
    it return the absolute form [/missing]. *)
Theorem get_absolute_path_missing_raises :
  get_absolute_path (Dir []) [] (py "missing") = Raise FileNotFoundError /\
  resolve (Dir []) [] (Path (py "missing")) false = Ok [py "missing"].
Proof. split; reflexivity. Qed.

(** ** Target Preparer *)

Lemma parts_split (l : list str) :
  l <> [] -> l = removelast l ++ [last l []].
Proof. intros H. now apply app_removelast_last. Qed.

Lemma Path_parts_truthy (s : str) : parts (Path s) <> [] -> truthy s = true.
Proof. destruct s; [intros H; now elim H | reflexivity]. Qed.

Lemma os_mkdir_nonempty (fs : node) (wd : path) (pp : pure_path) :
  parts pp <> [] ->
  os_mkdir fs wd pp
  = let leaf := last (parts pp) [] in
    match walk fs (anchor wd pp) (removelast (parts pp)) with
    | Raise e => (fs, Raise e)
    | Ok d =>
        match lookup d fs with
        | Some (Dir es) =>
            if is_dotdot leaf then (fs, Raise FileExistsError)
            else match assoc leaf es with
                 | Some _ => (fs, Raise FileExistsError)
                 | None => (store (joinpath d leaf) (Dir []) fs, Ok tt)
                 end
        | Some (File _) => (fs, Raise NotADirectoryError)
        | None => (fs, Raise FileNotFoundError)
        end
    end.
Proof. unfold os_mkdir. destruct (parts pp); [congruence | reflexivity]. Qed.

(** [os.mkdir] on something that is there. *)
Lemma os_mkdir_exists (fs : node) (wd : path) (pp : pure_path) (q : path) :
  walk fs (anchor wd pp) (parts pp) = Ok q ->
  os_mkdir fs wd pp = (fs, Raise FileExistsError).
Proof.
  unfold os_mkdir. destruct (parts pp) as [|c0 l0] eqn:El; [reflexivity|].
  rewrite <- El. intros Hw.
  assert (Hne : parts pp <> []) by (rewrite El; discriminate).
  rewrite (parts_split _ Hne), walk_app in Hw.
  destruct (walk fs (anchor wd pp) (removelast (parts pp))) as [d|e]; [|discriminate].
  cbn [bind walk] in Hw.
  destruct (lookup d fs) as [[|es]|] eqn:Ed; try discriminate.
  destruct (is_dotdot (last (parts pp) [])); [reflexivity|].
  destruct (lookup (joinpath d (last (parts pp) [])) fs) as [n|] eqn:En;
    [|discriminate].
  destruct (lookup_parent _ _ _ _ En) as (es' & Hd' & Ha).
  rewrite Ed in Hd'. injection Hd' as <-. now rewrite Ha.
Qed.

(** C4, as the code has it.  The Target Preparer (1) leaves the filesystem
    as it is and raises nothing when the destination is already a
    directory, (2) creates the destination when it is absent and the
    directory that is to hold it exists, and in both cases returns the
    absolute path, free of [.] and [..], at which the destination now is;
    (3) it does not create missing parent directories: when the walk to the
    parent fails with [FileNotFoundError], so does the call, and nothing is
    created. *)
Theorem setup_target_dir_cases (fs : node) (wd : path) (dirname : str) :
  let pp := Path dirname in
  let leaf := last (parts pp) [] in
  (forall q,
      walk fs (anchor wd pp) (parts pp) = Ok q ->
      is_dir_node (lookup q fs) = true ->
      setup_target_dir fs wd dirname = (fs, Ok q))
  /\ (forall d es,
         parts pp <> [] ->
         walk fs (anchor wd pp) (removelast (parts pp)) = Ok d ->
         lookup d fs = Some (Dir es) ->
         is_dotdot leaf = false ->
         assoc leaf es = None ->
         let fs' := store (joinpath d leaf) (Dir []) fs in
         setup_target_dir fs wd dirname = (fs', Ok (joinpath d leaf))
         /\ lookup (joinpath d leaf) fs' = Some (Dir []))
  /\ (parts pp <> [] ->
      walk fs (anchor wd pp) (removelast (parts pp)) = Raise FileNotFoundError ->
      setup_target_dir fs wd dirname = (fs, Raise FileNotFoundError)).
Proof.
  intros pp leaf. split; [|split].
  - intros q Hw Hdir. unfold setup_target_dir, mkdir. fold pp.
    rewrite (os_mkdir_exists _ _ _ _ Hw).
    unfold is_dir. rewrite Hw, Hdir. cbn [andb].
    unfold get_absolute_path, resolve. fold pp.
    now rewrite (walk_realpath _ _ _ _ _ Hw).
  - intros d es Hne Hw Hd Hdd Hfresh fs'.
    pose proof (lookup_store_leaf d leaf (Dir []) fs es Hd) as Hnew.
    fold fs' in Hnew. split; [|exact Hnew].
    pose proof (lookup_store_fresh d leaf (Dir []) fs es Hd Hfresh) as Hkeep.
    fold fs' in Hkeep.
    assert (Hmk : os_mkdir fs wd pp = (fs', Ok tt)).
    { rewrite (os_mkdir_nonempty _ _ _ Hne). cbv zeta. fold leaf.
      now rewrite Hw, Hd, Hdd, Hfresh. }
    unfold setup_target_dir, mkdir. fold pp. rewrite Hmk. f_equal.
    unfold get_absolute_path, resolve. fold pp.
    rewrite (Path_parts_truthy dirname Hne).
    apply walk_realpath.
    rewrite (parts_split (parts pp) Hne). fold leaf.
    rewrite walk_app, (walk_mono fs fs' _ _ d Hkeep Hw).
    cbn [bind walk].
    destruct (Hkeep d _ Hd) as (n' & -> & Hs).
    destruct n'; [destruct Hs|]. now rewrite Hdd, Hnew.
  - intros Hne Hw. unfold setup_target_dir, mkdir. fold pp.
    rewrite (os_mkdir_nonempty _ _ _ Hne). cbv zeta. now rewrite Hw.
Qed.

Lemma setup_target_dir_cases_witness :
  setup_target_dir sample_home [py "home"] (py "harvest")
  = (sample_home, Ok [py "home"; py "harvest"])
  /\ setup_target_dir sample_home [py "home"] (py "fresh")
     = (Dir [(py "home", Dir [(py "harvest", Dir [(py "One", Dir [])]);
                              (py "fresh", Dir [])])],
        Ok [py "home"; py "fresh"])
  /\ setup_target_dir sample_home [py "home"] (py "a/b")
     = (sample_home, Raise FileNotFoundError).
Proof.
  pose proof (setup_target_dir_cases sample_home [py "home"] (py "harvest"))
    as (H1 & _ & _).
  pose proof (setup_target_dir_cases sample_home [py "home"] (py "fresh"))
    as (_ & H2 & _).
  pose proof (setup_target_dir_cases sample_home [py "home"] (py "a/b"))
    as (_ & _ & H3).
  split; [|split].
  - apply H1; reflexivity.
  - refine (proj1 (H2 [py "home"] [(py "harvest", Dir [(py "One", Dir [])])] _ _ _ _ _));
      try reflexivity.
    discriminate.
  - apply H3; [discriminate | reflexivity].
Defined.

(** C4 as worded fails: with [a] missing, preparing [a/b] raises
    [FileNotFoundError] and creates neither [a] nor [a/b]. *)
Lemma setup_target_dir_missing_parent :
  setup_target_dir (Dir []) [] (py "a/b") = (Dir [], Raise FileNotFoundError).
Proof. reflexivity. Qed.

(** ** Game Directory Finder *)

Lemma translate_DIR_PATTERN : Fnmatch.translate DIR_PATTERN = Some DIR_GLOB.
Proof. reflexivity. Qed.

Lemma fullmatch_any_seq (s : str) : Fnmatch.fullmatch [Fnmatch.AnySeq] s = true.
Proof.
  cbn [Fnmatch.fullmatch]. induction s as [|c s IH]; [reflexivity|].
  simpl. exact IH.
Qed.

(** The names the pattern takes are those holding such a window. *)
Lemma fullmatch_DIR_GLOB (s : str) : Fnmatch.fullmatch DIR_GLOB s = game_like s.
Proof.
  unfold DIR_GLOB. cbn [Fnmatch.fullmatch].
  induction s as [|c1 s IH]; [reflexivity|].
  cbn [game_like]. rewrite <- IH. clear IH.
  match goal with |- ?a || ?r = ?b || ?r' => change r with r'; f_equal end.
  destruct s as [|c2 [|c3 [|c4 rest]]]; cbn [Fnmatch.single_matches xorb];
    unfold in_class; rewrite ?andb_false_r; try reflexivity.
  pose proof (fullmatch_any_seq rest) as Hany. cbn [Fnmatch.fullmatch] in Hany.
  rewrite Hany, andb_true_r, !andb_assoc. reflexivity.
Qed.

Lemma find_all_game_paths_eq (fs : node) (source_dir : path) :
  find_all_game_paths fs source_dir
  = Some (filter (fun item => is_dir_node (lookup item fs))
                 (map (fun e => joinpath source_dir (fst e))
                      (filter (fun e => game_like (fst e)) (scandir fs source_dir)))).
Proof.
  unfold find_all_game_paths, glob.
  change (negb (one_component DIR_PATTERN)) with false. cbv iota. rewrite translate_DIR_PATTERN. cbn [option_map].
  do 3 f_equal. apply filter_ext. intros e. apply fullmatch_DIR_GLOB.
Qed.

(** What does hold of the Finder: it returns children of the source root
    that are directories, each with such a window in its name. *)
Lemma find_all_game_paths_sound (fs : node) (source_dir : path) (found : list path)
      (item : path) :
  find_all_game_paths fs source_dir = Some found -> In item found ->
  is_dir_node (lookup item fs) = true /\
  exists e, In e (scandir fs source_dir) /\ item = joinpath source_dir (fst e)
            /\ game_like (fst e) = true.
Proof.
  rewrite find_all_game_paths_eq. intros [= <-] Hin.
  apply filter_In in Hin as [Hin Hdir]. split; [exact Hdir|].
  apply in_map_iff in Hin as (e & <- & He).
  apply filter_In in He as [He Hg]. eauto.
Qed.

(** C2, the code on a directory named [g|me]: the Finder returns it,
    although [game] does not occur in the name in any letter case. *)
Theorem find_all_game_paths_takes_bar_name :
  find_all_game_paths (Dir [(py "src", Dir [(py "g|me", Dir [])])]) [py "src"]
  = Some [[py "src"; py "g|me"]]
  /\ contains_ci (py "game") (py "g|me") = false.
Proof. split; reflexivity. Qed.

Lemma ci_eqb_in_class (c : ascii) :
  (ci_eqb "g" c = true -> in_class (py "g|G") c = true) /\
  (ci_eqb "a" c = true -> in_class (py "a|A") c = true) /\
  (ci_eqb "m" c = true -> in_class (py "m|M") c = true) /\
  (ci_eqb "e" c = true -> in_class (py "e|E") c = true).
Proof.
  destruct c as [[] [] [] [] [] [] [] []]; vm_compute;
    repeat split; intros; solve [reflexivity | discriminate].
Qed.

(** Every name that holds [game] in some letter case is taken. *)
Lemma contains_game_game_like (s : str) :
  contains_ci (py "game") s = true -> game_like s = true.
Proof.
  unfold contains_ci. induction s as [|c1 s IH]; [discriminate|].
  cbn [find_ci game_like].
  destruct (ci_prefixb (py "game") (c1 :: s)) eqn:E.
  - intros _. destruct s as [|c2 [|c3 [|c4 rest]]];
      try (simpl in E; rewrite ?andb_false_r in E; discriminate).
    simpl in E. rewrite andb_true_r in E.
    apply andb_prop in E as [E1 E]. apply andb_prop in E as [E2 E].
    apply andb_prop in E as [E3 E4].
    rewrite (proj1 (ci_eqb_in_class c1) E1).
    rewrite (proj1 (proj2 (ci_eqb_in_class c2)) E2).
    rewrite (proj1 (proj2 (proj2 (ci_eqb_in_class c3))) E3).
    rewrite (proj2 (proj2 (proj2 (ci_eqb_in_class c4))) E4).
    reflexivity.
  - destruct (find_ci (py "game") s); [|discriminate].
    intros _. rewrite IH by reflexivity. apply orb_true_r.
Qed.

Lemma find_all_game_paths_complete (fs : node) (source_dir : path) (e : str * node) :
  In e (scandir fs source_dir) ->
  contains_ci (py "game") (fst e) = true ->
  is_dir_node (lookup (joinpath source_dir (fst e)) fs) = true ->
  exists found, find_all_game_paths fs source_dir = Some found
                /\ In (joinpath source_dir (fst e)) found.
Proof.
  intros He Hc Hd. rewrite find_all_game_paths_eq. eexists; split; [reflexivity|].
  apply filter_In. split; [|exact Hd].
  apply in_map_iff. exists e. split; [reflexivity|].
  apply filter_In. split; [exact He | now apply contains_game_game_like].
Qed.

(** ** Build Runner *)

Lemma attempts_app (a b : list event) : attempts (a ++ b) = attempts a ++ attempts b.
Proof.
  induction a as [|[d|d c o] a IH]; simpl; [reflexivity | assumption |].
  now rewrite IH.
Qed.

Lemma attempts_passes (run : path -> list str -> run_outcome) (saved : path)
      (files : list path) :
  attempts (flat_map (pass run saved) files)
  = map (fun f => (parent f, build_command f)) files.
Proof. induction files as [|f files IH]; simpl; [reflexivity | now rewrite IH]. Qed.

(** While every command can be launched the loop runs to its end, whatever
    the exit statuses. *)
Lemma compile_loop_completes (run : path -> list str -> run_outcome)
      (files : list path) (st : process) :
  Forall (launches run) files ->
  compile_loop run files st
  = ({| cwd := cwd st; trace := trace st ++ flat_map (pass run (cwd st)) files |},
     Ok tt).
Proof.
  intros H. revert st. induction H as [|f files [rc Hf] _ IH]; intros st.
  - simpl. rewrite app_nil_r. now destruct st.
  - cbn [compile_loop]. cbn [chdir cwd]. rewrite Hf. rewrite IH.
    cbn [chdir log_run cwd trace flat_map]. unfold pass at 2. rewrite Hf.
    f_equal. f_equal. rewrite <- !app_assoc. reflexivity.
Qed.

(** The first command that cannot be launched ends the loop: its exception
    leaves the function, from inside the file's directory. *)
Lemma compile_loop_launch_failure (run : path -> list str -> run_outcome)
      (before after : list path) (f : path) (e : exn) (st : process) :
  Forall (launches run) before ->
  run (parent f) (build_command f) = LaunchFailed e ->
  compile_loop run (before ++ f :: after) st
  = ({| cwd := parent f;
        trace := trace st ++ flat_map (pass run (cwd st)) before
                 ++ [Chdir (parent f);
                     Run (parent f) (build_command f) (LaunchFailed e)] |},
     Raise e).
Proof.
  intros H Hf. revert st. induction H as [|g before [rc Hg] _ IH]; intros st.
  - cbn [app compile_loop chdir cwd]. rewrite Hf.
    unfold log_run, chdir. cbn [cwd trace flat_map app]. f_equal. f_equal.
    now rewrite <- app_assoc.
  - cbn [app compile_loop chdir cwd]. rewrite Hg. rewrite IH.
    cbn [chdir log_run cwd trace flat_map]. unfold pass at 2. rewrite Hg.
    f_equal. f_equal. rewrite <- !app_assoc. reflexivity.
Qed.

(** C7.  When every build command is launched and exits, with whatever
    status, the Build Runner returns; for every matched file, in order, the
    log shows the change into the file's directory, the command, and the
    change back to the directory recorded before; and the working
    directory at the end is the one at the start. *)
Theorem compile_code_files_restores_cwd
        (run : path -> list str -> run_outcome) (fs : node) (p : path)
        (st : process) (files : list path) :
  rglob fs p FILE_EXTENSION = Some files ->
  Forall (launches run) files ->
  exists st',
    compile_code_files run fs p st = Some (st', Ok tt)
    /\ cwd st' = cwd st
    /\ trace st' = trace st ++ flat_map (pass run (cwd st)) files.
Proof.
  intros Hg Hall. unfold compile_code_files. rewrite Hg. cbn [option_map].
  rewrite (compile_loop_completes run files st Hall).
  eexists; split; [reflexivity|]. split; reflexivity.
Qed.

(** C6, as the code has it.  A build command that exits, with status zero
    or not, does not stop the Build Runner: when every command is launched,
    every matched file is attempted, in enumeration order, and the call
    returns.  A command that cannot be launched does stop it: the exception
    of the launch leaves the Build Runner, and the files after that one are
    not attempted. *)
Theorem compile_code_files_attempts
        (run : path -> list str -> run_outcome) (fs : node) (p : path)
        (st : process) (files : list path) :
  rglob fs p FILE_EXTENSION = Some files ->
  (Forall (launches run) files ->
   exists st',
     compile_code_files run fs p st = Some (st', Ok tt)
     /\ attempts (trace st')
        = attempts (trace st) ++ map (fun f => (parent f, build_command f)) files)
  /\ (forall before f after e,
         files = before ++ f :: after ->
         Forall (launches run) before ->
         run (parent f) (build_command f) = LaunchFailed e ->
         exists st',
           compile_code_files run fs p st = Some (st', Raise e)
           /\ attempts (trace st')
              = attempts (trace st)
                ++ map (fun g => (parent g, build_command g)) (before ++ [f])).
Proof.
  intros Hg. unfold compile_code_files. rewrite Hg. cbn [option_map]. split.
  - intros Hall. rewrite (compile_loop_completes run files st Hall).
    eexists; split; [reflexivity|]. cbn [trace].
    now rewrite attempts_app, attempts_passes.
  - intros before f after e -> Hb Hf.
    rewrite (compile_loop_launch_failure run before after f e st Hb Hf).
    eexists; split; [reflexivity|]. cbn [trace].
    rewrite !attempts_app, attempts_passes, map_app. reflexivity.
Qed.

Lemma sample_files_launch : Forall (launches second_exits_1) sample_files.
Proof. repeat constructor; eexists; reflexivity. Qed.

Lemma compile_code_files_restores_cwd_witness :
  exists st',
    compile_code_files second_exits_1 sample_fs sample_target sample_process
    = Some (st', Ok tt)
    /\ cwd st' = [py "home"]
    /\ trace st' = flat_map (pass second_exits_1 [py "home"]) sample_files.
Proof.
  exact (compile_code_files_restores_cwd second_exits_1 sample_fs sample_target
           sample_process sample_files eq_refl sample_files_launch).
Defined.

Lemma compile_code_files_attempts_witness :
  (exists st',
      compile_code_files second_exits_1 sample_fs sample_target sample_process
      = Some (st', Ok tt)
      /\ attempts (trace st')
         = map (fun f => (parent f, build_command f)) sample_files)
  /\ (exists st',
         compile_code_files second_not_launched sample_fs sample_target
                            sample_process
         = Some (st', Raise FileNotFoundError)
         /\ attempts (trace st')
            = [([py "harvest"; py "One"], [py "go"; py "build"; py "a.go"]);
               ([py "harvest"; py "One"], [py "go"; py "build"; py "b.go"])]).
Proof.
  split.
  - exact (proj1 (compile_code_files_attempts second_exits_1 sample_fs
                    sample_target sample_process sample_files eq_refl)
                 sample_files_launch).
  - refine (proj2 (compile_code_files_attempts second_not_launched sample_fs
                     sample_target sample_process sample_files eq_refl)
                  [[py "harvest"; py "One"; py "a.go"]]
                  [py "harvest"; py "One"; py "b.go"]
                  [[py "harvest"; py "One"; py "c.go"]]
                  FileNotFoundError eq_refl _ eq_refl).
    repeat constructor. exists 0%Z. reflexivity.
Defined.

(** C6 as worded fails: when the second of three builds cannot be launched,
    the exception ends the Build Runner and [c.go] is never attempted. *)
Lemma compile_code_files_launch_failure_aborts :
  exists st',
    compile_code_files second_not_launched sample_fs sample_target sample_process
    = Some (st', Raise FileNotFoundError)
    /\ attempts (trace st')
       = [([py "harvest"; py "One"], [py "go"; py "build"; py "a.go"]);
          ([py "harvest"; py "One"], [py "go"; py "build"; py "b.go"])]
    /\ ~ In ([py "harvest"; py "One"], [py "go"; py "build"; py "c.go"])
            (attempts (trace st')).
Proof.
  eexists. split; [vm_compute; reflexivity|]. split; [reflexivity|].
  vm_compute. intros [H|[H|[]]]; discriminate.
Qed.

(** ** Metadata Writer *)

Lemma parent_joinpath (p : path) (c : str) : parent (joinpath p c) = p.
Proof. apply removelast_last. Qed.

Lemma name_joinpath (p : path) (c : str) : name (joinpath p c) = c.
Proof. apply last_last. Qed.

(** A path of plain names that exists is walked as it is. *)
Lemma walk_existing (fs : node) (cur : path) (comps : list str) (n : node) :
  forallb (fun c => negb (is_dotdot c)) comps = true ->
  lookup (cur ++ comps) fs = Some n ->
  walk fs cur comps = Ok (cur ++ comps).
Proof.
  revert cur; induction comps as [|c cs IH]; intros cur Hplain Hl.
  - now rewrite app_nil_r.
  - cbn [forallb] in Hplain. apply andb_prop in Hplain as [Hc Hcs].
    apply negb_true_iff in Hc.
    change (cur ++ c :: cs) with (cur ++ [c] ++ cs) in *.
    rewrite app_assoc in *. fold (joinpath cur c) in *.
    pose proof Hl as Hl'. rewrite lookup_app in Hl'.
    destruct (lookup (joinpath cur c) fs) as [m|] eqn:Em; [|discriminate].
    destruct (lookup_parent _ _ _ _ Em) as (es & Hcur & _).
    cbn [walk]. rewrite Hcur, Hc, Em. now apply IH.
Qed.

(** *** The reader undoes the writer *)

Lemma scan_string_escape_char (c : ascii) (rest : str) :
  scan_string (escape_char c ++ rest) = consed c (scan_string rest).
Proof.
  destruct c as [[] [] [] [] [] [] [] []]; reflexivity.
Qed.

Lemma scan_string_escaped (s rest : str) :
  scan_string (flat_map escape_char s ++ quote ++ rest) = Some (s, rest).
Proof.
  induction s as [|c s IH]; [reflexivity|].
  cbn [flat_map]. rewrite <- app_assoc, scan_string_escape_char, IH.
  reflexivity.
Qed.

Lemma parse_value_encode_str (fuel : nat) (s rest : str) :
  parse_value (S fuel) (encode_str s ++ rest) = Some (JStr s, rest).
Proof.
  unfold encode_str. rewrite <- !app_assoc.
  change (quote ++ flat_map escape_char s ++ quote ++ rest)
    with (ascii_of_nat 34 :: (flat_map escape_char s ++ quote ++ rest)).
  cbn [parse_value]. change (nat_of_ascii (ascii_of_nat 34) =? 34) with true.
  cbv iota. now rewrite scan_string_escaped.
Qed.

Lemma scan_digits_uint (d : Decimal.uint) :
  forall acc c rest,
    digit_value c = None ->
    scan_digits acc (py (NilEmpty.string_of_uint d) ++ c :: rest)
    = (Nat.of_uint_acc d acc, c :: rest).
Proof.
  induction d as [|d IH|d IH|d IH|d IH|d IH|d IH|d IH|d IH|d IH|d IH];
    intros acc c rest Hc;
    try (cbn [NilEmpty.string_of_uint py String.list_ascii_of_string app
              scan_digits Nat.of_uint_acc];
         change (digit_value "0") with (Some 0);
         change (digit_value "1") with (Some 1);
         change (digit_value "2") with (Some 2);
         change (digit_value "3") with (Some 3);
         change (digit_value "4") with (Some 4);
         change (digit_value "5") with (Some 5);
         change (digit_value "6") with (Some 6);
         change (digit_value "7") with (Some 7);
         change (digit_value "8") with (Some 8);
         change (digit_value "9") with (Some 9);
         cbv iota;
         change (py (NilEmpty.string_of_uint d) ++ c :: rest)
           with (py (NilEmpty.string_of_uint d) ++ c :: rest);
         rewrite (IH _ c rest Hc); f_equal; f_equal;
         rewrite Nat.tail_mul_spec; lia).
  cbn [NilEmpty.string_of_uint py String.list_ascii_of_string app scan_digits Nat.of_uint_acc].
  now rewrite Hc.
Qed.

(** The decimal digits of a number do not start with a zero, unless the
    number is zero. *)
Lemma to_uint_head (n : nat) :
  Nat.to_uint n = Decimal.D0 Decimal.Nil
  \/ match Nat.to_uint n with
     | Decimal.Nil | Decimal.D0 _ => False
     | _ => True
     end.
Proof.
  pose proof (DecimalNat.Unsigned.to_of (Nat.to_uint n)) as H.
  rewrite DecimalNat.Unsigned.of_to in H.
  destruct (Nat.to_uint n) as [|d|d|d|d|d|d|d|d|d|d]; try (right; exact I).
  - discriminate H.
  - left. rewrite DecimalFacts.unorm_D0 in H.
    destruct (Decimal.uint_eq_dec (Decimal.nzhead d) Decimal.Nil) as [E|E].
    + unfold Decimal.unorm in H. rewrite E in H. congruence.
    + rewrite (DecimalFacts.unorm_nzhead d E) in H.
      now elim (DecimalFacts.nzhead_nonzero d d).
Qed.

Lemma scan_number_encode_int (n : nat) (c : ascii) (rest : str) :
  digit_value c = None -> is_float_mark c = false ->
  scan_number (encode_int n ++ c :: rest) = Some (n, c :: rest).
Proof.
  intros Hd Hf. unfold encode_int.
  pose proof (DecimalNat.Unsigned.of_to n) as Hn.
  destruct (to_uint_head n) as [H0|Hnz].
  - rewrite H0 in *. cbn in Hn. subst n.
    cbn [NilEmpty.string_of_uint py String.list_ascii_of_string app scan_number].
    change (digit_value "0") with (Some 0). cbv iota. cbn [Nat.eqb snd].
    now rewrite Hf.
  - unfold Nat.of_uint in Hn.
    destruct (Nat.to_uint n) as [|d|d|d|d|d|d|d|d|d|d]; try contradiction;
      cbn [NilEmpty.string_of_uint py String.list_ascii_of_string app scan_number];
      [ change (digit_value "1") with (Some 1)
      | change (digit_value "2") with (Some 2)
      | change (digit_value "3") with (Some 3)
      | change (digit_value "4") with (Some 4)
      | change (digit_value "5") with (Some 5)
      | change (digit_value "6") with (Some 6)
      | change (digit_value "7") with (Some 7)
      | change (digit_value "8") with (Some 8)
      | change (digit_value "9") with (Some 9) ];
      cbv iota; cbn [Nat.eqb];
      change (String.list_ascii_of_string (NilEmpty.string_of_uint d))
        with (py (NilEmpty.string_of_uint d));
      rewrite (scan_digits_uint d _ c rest Hd); cbn [snd]; rewrite Hf;
      f_equal; f_equal; exact Hn.
Qed.

Lemma parse_value_number (fuel : nat) (s : str) (n : nat) (rest : str) :
  scan_number s = Some (n, rest) ->
  parse_value (S fuel) s = Some (JInt n, rest).
Proof.
  intros H. destruct s as [|h t]; [discriminate|].
  assert (Hh : exists d, digit_value h = Some d).
  { cbn [scan_number] in H. destruct (digit_value h) as [d|]; [eauto | discriminate]. }
  destruct Hh as [d Hd]. unfold digit_value in Hd. cbv zeta in Hd.
  destruct ((48 <=? nat_of_ascii h) && (nat_of_ascii h <=? 57)) eqn:E;
    [|discriminate].
  apply andb_prop in E as [E1 E2].
  apply Nat.leb_le in E1. apply Nat.leb_le in E2.
  cbn [parse_value]. cbv zeta.
  replace (nat_of_ascii h =? 34) with false by (symmetry; apply Nat.eqb_neq; lia).
  replace (nat_of_ascii h =? 91) with false by (symmetry; apply Nat.eqb_neq; lia).
  replace (nat_of_ascii h =? 123) with false by (symmetry; apply Nat.eqb_neq; lia).
  now rewrite H.
Qed.

Lemma join_encode_str_head (sep d : str) (l : list str) (r : str) :
  exists t, join sep (encode_str d :: l) ++ r = ascii_of_nat 34 :: t.
Proof. destruct l; unfold encode_str, quote; cbn [join app]; eauto. Qed.

Lemma join_cons2 (sep x y : str) (l : list str) :
  join sep (x :: y :: l) = x ++ sep ++ join sep (y :: l).
Proof. reflexivity. Qed.

Lemma parse_items_step (fuel : nat) (s : str) :
  parse_items (S fuel) s
  = match parse_value fuel s with
    | None => None
    | Some (v, rest) =>
        match skip_ws rest with
        | [] => None
        | c :: rest' =>
            if nat_of_ascii c =? 44 then added v (parse_items fuel (skip_ws rest'))
            else if nat_of_ascii c =? 93 then Some ([v], rest')
            else None
        end
    end.
Proof. reflexivity. Qed.

(** The items of an array of strings, from the first item on. *)
Lemma parse_items_encoded (dirs : list str) :
  forall d fuel rest,
    length dirs + 1 <= fuel ->
    parse_items (S fuel)
                (join (py ", ") (map encode_str (d :: dirs)) ++ py "]" ++ rest)
    = Some (map JStr (d :: dirs), rest).
Proof.
  induction dirs as [|d2 dirs IH]; intros d fuel rest Hfuel;
    (destruct fuel as [|fuel]; [cbn [length] in Hfuel; lia|]);
    rewrite parse_items_step.
  - cbn [map join]. rewrite parse_value_encode_str. reflexivity.
  - pose proof (IH d2 fuel rest ltac:(cbn [length] in Hfuel; lia)) as Hrest.
    cbn [map] in *. rewrite join_cons2, <- !app_assoc.
    rewrite parse_value_encode_str.
    destruct (join_encode_str_head (py ", ") d2 (map encode_str dirs)
                                   (py "]" ++ rest)) as [t Ht].
    set (X := join (py ", ") (encode_str d2 :: map encode_str dirs)
                ++ py "]" ++ rest) in *.
    assert (Hws : skip_ws X = X) by (rewrite Ht; reflexivity).
    change (py ", " ++ X) with (","%char :: " "%char :: X).
    change (skip_ws (","%char :: " "%char :: X)) with (","%char :: " "%char :: X).
    cbv iota. change (nat_of_ascii "," =? 44) with true. cbv iota.
    change (skip_ws (" "%char :: X)) with (skip_ws X).
    rewrite Hws, Hrest. reflexivity.
Qed.

Lemma parse_value_step (fuel : nat) (c : ascii) (s' : str) :
  parse_value (S fuel) (c :: s')
  = let n := nat_of_ascii c in
    if n =? 34 then tagged JStr (scan_string s')
    else if n =? 91 then
      match skip_ws s' with
      | [] => None
      | c1 :: rest =>
          if nat_of_ascii c1 =? 93 then Some (JList [], rest)
          else tagged JList (parse_items fuel (c1 :: rest))
      end
    else if n =? 123 then
      match skip_ws s' with
      | [] => None
      | c1 :: rest =>
          if nat_of_ascii c1 =? 125 then Some (JDict [], rest)
          else tagged (fun pairs => JDict (dict_of_pairs pairs))
                      (parse_members fuel (c1 :: rest))
      end
    else tagged JInt (scan_number (c :: s')).
Proof. reflexivity. Qed.

(** An array of strings as [dumps] writes it. *)
Lemma parse_value_array (dirs : list str) (fuel : nat) (rest : str) :
  length dirs <= fuel ->
  parse_value (S (S fuel))
              (py "[" ++ join (py ", ") (map encode_str dirs) ++ py "]" ++ rest)
  = Some (JList (map JStr dirs), rest).
Proof.
  intros Hfuel.
  change (py "[" ++ join (py ", ") (map encode_str dirs) ++ py "]" ++ rest)
    with ("["%char :: (join (py ", ") (map encode_str dirs) ++ py "]" ++ rest)).
  rewrite parse_value_step. cbv zeta.
  change (nat_of_ascii "[" =? 34) with false.
  change (nat_of_ascii "[" =? 91) with true. cbv iota.
  destruct dirs as [|d dirs]; [reflexivity|].
  pose proof (parse_items_encoded dirs d fuel rest
                ltac:(cbn [length] in Hfuel; lia)) as Hitems.
  cbn [map] in *.
  destruct (join_encode_str_head (py ", ") d (map encode_str dirs)
                                 (py "]" ++ rest)) as [t Ht].
  set (X := join (py ", ") (encode_str d :: map encode_str dirs)
              ++ py "]" ++ rest) in *.
  assert (Hws : skip_ws X = X) by (rewrite Ht; reflexivity).
  rewrite Hws. rewrite Ht at 1.
  change (nat_of_ascii (ascii_of_nat 34) =? 93) with false. cbv iota.
  rewrite <- Ht, Hitems. reflexivity.
Qed.

(** A key of an object and the colon behind it. *)
Lemma parse_members_key (fuel : nat) (k rest : str) :
  parse_members (S fuel) (encode_str k ++ py ": " ++ rest)
  = match parse_value fuel (skip_ws rest) with
    | None => None
    | Some (v, rest2) =>
        match skip_ws rest2 with
        | [] => None
        | c2 :: rest3 =>
            if nat_of_ascii c2 =? 44 then
              added (k, v) (parse_members fuel (skip_ws rest3))
            else if nat_of_ascii c2 =? 125 then Some ([(k, v)], rest3)
            else None
        end
    end.
Proof.
  unfold encode_str. rewrite <- !app_assoc.
  change (quote ++ flat_map escape_char k ++ quote ++ py ": " ++ rest)
    with (ascii_of_nat 34 :: (flat_map escape_char k ++ quote ++ py ": " ++ rest)).
  cbn [parse_members].
  change (nat_of_ascii (ascii_of_nat 34) =? 34) with true. cbv iota.
  rewrite scan_string_escaped. reflexivity.
Qed.

Lemma skip_ws_encode_str (s rest : str) :
  skip_ws (encode_str s ++ rest) = encode_str s ++ rest.
Proof. reflexivity. Qed.

Lemma skip_ws_encode_int (n : nat) (rest : str) :
  skip_ws (encode_int n ++ py "}" ++ rest) = encode_int n ++ py "}" ++ rest.
Proof.
  pose proof (scan_number_encode_int n "}"%char rest eq_refl eq_refl) as H.
  change (py "}" ++ rest) with ("}"%char :: rest).
  destruct (encode_int n ++ "}"%char :: rest) as [|h t]; [reflexivity|].
  cbn [scan_number] in H. unfold digit_value in H. cbv zeta in H.
  destruct ((48 <=? nat_of_ascii h) && (nat_of_ascii h <=? 57)) eqn:E;
    [|discriminate].
  apply andb_prop in E as [E1 E2].
  apply Nat.leb_le in E1. apply Nat.leb_le in E2.
  cbn [skip_ws]. unfold is_ws. cbv zeta.
  replace (nat_of_ascii h =? 32) with false by (symmetry; apply Nat.eqb_neq; lia).
  replace (nat_of_ascii h =? 9) with false by (symmetry; apply Nat.eqb_neq; lia).
  replace (nat_of_ascii h =? 10) with false by (symmetry; apply Nat.eqb_neq; lia).
  replace (nat_of_ascii h =? 13) with false by (symmetry; apply Nat.eqb_neq; lia).
  reflexivity.
Qed.

(** The text of a manifest. *)
Lemma dumps_metadata_text (dirs : list str) :
  dumps (metadata dirs)
  = py "{" ++ encode_str (py "game_names") ++ py ": "
      ++ (py "[" ++ join (py ", ") (map encode_str dirs) ++ py "]"
            ++ py ", " ++ encode_str (py "number_of_games") ++ py ": "
            ++ encode_int (length dirs) ++ py "}" ++ []).
Proof.
  unfold metadata. cbn [dumps map join].
  rewrite map_map. cbn [dumps].
  rewrite app_nil_r, <- !app_assoc. reflexivity.
Qed.

Lemma length_join_encode_str (sep : str) (dirs : list str) :
  length dirs <= length (join sep (map encode_str dirs)).
Proof.
  induction dirs as [|d dirs IH]; [apply Nat.le_refl|].
  destruct dirs as [|d2 dirs].
  - cbn [map join length]. unfold encode_str. rewrite !length_app.
    cbn [quote length]. lia.
  - cbn [map] in *. rewrite join_cons2, !length_app.
    unfold encode_str at 1. rewrite !length_app. cbn [quote length] in *. lia.
Qed.

(** Reading a manifest gives back the object it was written from. *)
Lemma loads_dumps_metadata (dirs : list str) :
  loads (dumps (metadata dirs)) = Some (metadata dirs).
Proof.
  unfold loads.
  assert (Hfuel : length dirs + 4 <= 2 * length (dumps (metadata dirs)) + 2).
  { rewrite dumps_metadata_text. change (py "{") with ["{"%char].
    cbn [app length]. rewrite !length_app.
    pose proof (length_join_encode_str (py ", ") dirs). lia. }
  remember (2 * length (dumps (metadata dirs)) + 2) as F eqn:EF. clear EF.
  destruct F as [|[|[|[|fuel]]]]; try lia.
  rewrite dumps_metadata_text.
  set (tail := py ", " ++ encode_str (py "number_of_games") ++ py ": "
                 ++ encode_int (length dirs) ++ py "}" ++ []).
  set (arr := py "[" ++ join (py ", ") (map encode_str dirs) ++ py "]" ++ tail).
  change (py "{" ++ encode_str (py "game_names") ++ py ": " ++ arr)
    with ("{"%char :: (encode_str (py "game_names") ++ py ": " ++ arr)).
  change (skip_ws ("{"%char :: (encode_str (py "game_names") ++ py ": " ++ arr)))
    with ("{"%char :: (encode_str (py "game_names") ++ py ": " ++ arr)).
  rewrite parse_value_step. cbv zeta.
  change (nat_of_ascii "{" =? 34) with false.
  change (nat_of_ascii "{" =? 91) with false.
  change (nat_of_ascii "{" =? 123) with true. cbv iota.
  rewrite skip_ws_encode_str.
  assert (Hmembers :
            parse_members (S (S (S fuel)))
                          (encode_str (py "game_names") ++ py ": " ++ arr)
            = Some ([(py "game_names", JList (map JStr dirs));
                     (py "number_of_games", JInt (length dirs))], [])).
  { rewrite parse_members_key.
    assert (Harr : skip_ws arr = arr) by reflexivity.
    rewrite Harr. unfold arr.
    rewrite (parse_value_array dirs fuel tail) by lia.
    unfold tail.
    change (skip_ws (py ", " ++ encode_str (py "number_of_games") ++ py ": "
                        ++ encode_int (length dirs) ++ py "}" ++ []))
      with (","%char :: " "%char
              :: (encode_str (py "number_of_games") ++ py ": "
                    ++ encode_int (length dirs) ++ py "}" ++ [])).
    cbv iota. change (nat_of_ascii "," =? 44) with true. cbv iota.
    change (skip_ws (" "%char
                       :: (encode_str (py "number_of_games") ++ py ": "
                             ++ encode_int (length dirs) ++ py "}" ++ [])))
      with (encode_str (py "number_of_games") ++ py ": "
              ++ encode_int (length dirs) ++ py "}" ++ []).
    rewrite parse_members_key, skip_ws_encode_int.
    rewrite (parse_value_number fuel _ (length dirs) (py "}" ++ []));
      [reflexivity|].
    exact (scan_number_encode_int (length dirs) "}"%char [] eq_refl eq_refl). }
  set (doc := encode_str (py "game_names") ++ py ": " ++ arr) in *.
  assert (Hhead : exists t, doc = ascii_of_nat 34 :: t)
    by (unfold doc, encode_str, quote; cbn [app]; eauto).
  destruct Hhead as [t Ht]. rewrite Ht at 1.
  change (nat_of_ascii (ascii_of_nat 34) =? 125) with false. cbv iota.
  rewrite <- Ht, Hmembers. reflexivity.
Qed.

(** C8.  In a destination root that is a directory (with no directory in
    the place of the file), the Metadata Writer returns normally and leaves
    at [destinationRoot/metadata.json] a file whose whole content,
    whatever was at that path before, is one JSON document: read back
    with [json.loads] it is an object in which [game_names] is the list of
    the given names, in their order, and [number_of_games] is the length
    of that list. *)
Theorem make_json_metadata_file_invariant
        (fs : node) (p : path) (dirs : list str) (es : entries_t) :
  forallb (fun c => negb (is_dotdot c)) p = true ->
  lookup p fs = Some (Dir es) ->
  is_dir_node (assoc (py "metadata.json") es) = false ->
  exists fs' content doc names n,
    make_json_metadata_file fs p dirs = (fs', Ok tt)
    /\ lookup (joinpath p (py "metadata.json")) fs' = Some (File content)
    /\ content = dumps (metadata dirs)
    /\ loads content = Some doc
    /\ member (py "game_names") doc = Some (JList names)
    /\ member (py "number_of_games") doc = Some (JInt n)
    /\ names = map JStr dirs
    /\ n = length names.
Proof.
  intros Hplain Hp Hfile.
  exists (store (joinpath p (py "metadata.json")) (File (dumps (metadata dirs))) fs),
         (dumps (metadata dirs)), (metadata dirs), (map JStr dirs), (length dirs).
  repeat match goal with |- _ /\ _ => split end.
  - unfold make_json_metadata_file, write_text.
    rewrite parent_joinpath, name_joinpath.
    rewrite (walk_existing fs [] p (Dir es) Hplain Hp). cbn [app].
    rewrite Hp. destruct (assoc (py "metadata.json") es) as [[|]|];
      try reflexivity; discriminate.
  - now apply (lookup_store_leaf p _ _ fs es).
  - reflexivity.
  - apply loads_dumps_metadata.
  - reflexivity.
  - reflexivity.
  - reflexivity.
  - now rewrite length_map.
Qed.

Lemma make_json_metadata_file_invariant_witness :
  exists fs' content doc names n,
    make_json_metadata_file sample_fs sample_target [py "One"; py "MyTwo"; py "3"]
    = (fs', Ok tt)
    /\ lookup (joinpath sample_target (py "metadata.json")) fs' = Some (File content)
    /\ content = dumps (metadata [py "One"; py "MyTwo"; py "3"])
    /\ loads content = Some doc
    /\ member (py "game_names") doc = Some (JList names)
    /\ member (py "number_of_games") doc = Some (JInt n)
    /\ names = map JStr [py "One"; py "MyTwo"; py "3"]
    /\ n = length names.
Proof.
  refine (make_json_metadata_file_invariant sample_fs sample_target
            [py "One"; py "MyTwo"; py "3"] _ eq_refl eq_refl eq_refl).
Defined.

(** The manifest of section 8, character by character. *)
Lemma dumps_metadata_example :
  dumps (metadata [py "One"; py "MyTwo"; py "3"])
  = py "{" ++ quote ++ py "game_names" ++ quote ++ py ": ["
    ++ quote ++ py "One" ++ quote ++ py ", "
    ++ quote ++ py "MyTwo" ++ quote ++ py ", "
    ++ quote ++ py "3" ++ quote ++ py "], "
    ++ quote ++ py "number_of_games" ++ quote ++ py ": 3}".
Proof. reflexivity. Qed.

(** ** Directory Materializer *)

Lemma set_entry_twice (k : str) (v : node) (es : entries_t) :
  set_entry k v (set_entry k v es) = set_entry k v es.
Proof. apply set_entry_same, assoc_set_entry_same. Qed.

Lemma assoc_None_names (k : str) (es : entries_t) :
  assoc k es = None <-> existsb (str_eqb k) (map fst es) = false.
Proof.
  induction es as [|[k' v] es IH]; simpl; [tauto|].
  destruct (str_eqb k k'); simpl; [split; discriminate | exact IH].
Qed.

(** [copy_entry] rewrites the entry named [nm] and nothing else. *)
Lemma copy_entry_value (rel : path) (n : node) (nm : str) (dst : entries_t) :
  copy_entry rel n nm dst
  = (set_entry nm (fst (entry_value rel n nm (assoc nm dst))) dst,
     snd (entry_value rel n nm (assoc nm dst))).
Proof.
  destruct n as [data|sub]; cbn [copy_entry entry_value].
  - unfold copy2. destruct (assoc nm dst) as [[x|d]|] eqn:E; try reflexivity.
    destruct (assoc nm d) as [[y|d2]|]; try reflexivity.
    cbn [fst snd]. now rewrite (set_entry_same _ _ _ E).
  - destruct (assoc nm dst) as [[x|d]|] eqn:E.
    + cbn [fst snd]. now rewrite (set_entry_same _ _ _ E).
    + now destruct (copy_entries (copy_entry (joinpath rel nm)) sub d).
    + now destruct (copy_entries (copy_entry (joinpath rel nm)) sub []).
Qed.

Section CopyEntries.

(** A way of copying one entry that, like [copy_entry], rewrites the
    entry of that name from what was there. *)
Variable value : node -> str -> option node -> node * list path.
Variable copy_one : node -> str -> entries_t -> entries_t * list path.
Hypothesis copy_one_value : forall n nm dst,
    copy_one n nm dst
    = (set_entry nm (fst (value n nm (assoc nm dst))) dst,
       snd (value n nm (assoc nm dst))).

Lemma copy_entries_cons (nm : str) (child : node) (rest dst : entries_t) :
  copy_entries copy_one ((nm, child) :: rest) dst
  = let dst1 := set_entry nm (fst (value child nm (assoc nm dst))) dst in
    (fst (copy_entries copy_one rest dst1),
     snd (value child nm (assoc nm dst)) ++ snd (copy_entries copy_one rest dst1)).
Proof.
  cbn [copy_entries]. rewrite copy_one_value. cbv zeta.
  now destruct (copy_entries copy_one rest _).
Qed.

(** Names the source does not have are not touched. *)
Lemma copy_entries_other (k : str) (src dst : entries_t) :
  assoc k src = None ->
  assoc k (fst (copy_entries copy_one src dst)) = assoc k dst.
Proof.
  revert dst; induction src as [|[nm child] src IH]; intros dst Hk;
    [reflexivity|].
  rewrite copy_entries_cons. cbn [fst]. cbn [assoc] in Hk.
  destruct (str_eqb k nm) eqn:E; [discriminate|].
  rewrite IH by assumption. apply assoc_set_entry_other.
  now apply str_eqb_neq.
Qed.

(** A name the source has once ends up with the value of its entry. *)
Lemma copy_entries_at (k : str) (child : node) (src dst : entries_t) :
  nodupb (map fst src) = true ->
  assoc k src = Some child ->
  assoc k (fst (copy_entries copy_one src dst))
  = Some (fst (value child k (assoc k dst))).
Proof.
  revert dst; induction src as [|[nm ch] src IH]; intros dst Hnd Hk;
    [discriminate|].
  rewrite copy_entries_cons. cbn [fst]. cbn [assoc] in Hk.
  cbn [map fst nodupb] in Hnd. apply andb_prop in Hnd as [Hfresh Hnd].
  apply negb_true_iff in Hfresh.
  destruct (str_eqb k nm) eqn:E.
  - apply str_eqb_eq in E. subst nm. injection Hk as ->.
    rewrite copy_entries_other by now apply assoc_None_names.
    apply assoc_set_entry_same.
  - rewrite (IH _ Hnd Hk). rewrite assoc_set_entry_other; [reflexivity|].
    now apply str_eqb_neq.
Qed.

(** Copying the same entries again changes nothing and reports the same
    failures, once this holds of every single entry. *)
Lemma copy_entries_again (src dst : entries_t) :
  nodupb (map fst src) = true ->
  Forall (fun e => forall old,
              value (snd e) (fst e) (Some (fst (value (snd e) (fst e) old)))
              = value (snd e) (fst e) old) src ->
  copy_entries copy_one src (fst (copy_entries copy_one src dst))
  = copy_entries copy_one src dst.
Proof.
  revert dst; induction src as [|[nm child] src IH]; intros dst Hnd Hall;
    [reflexivity|].
  cbn [map fst nodupb] in Hnd. apply andb_prop in Hnd as [Hfresh Hnd].
  apply negb_true_iff in Hfresh. apply assoc_None_names in Hfresh.
  inversion Hall as [|e l Hchild Hrest]; subst. cbn [fst snd] in Hchild.
  rewrite (copy_entries_cons nm child src dst). cbv zeta. cbn [fst].
  set (old := assoc nm dst).
  set (dst1 := set_entry nm (fst (value child nm old)) dst).
  set (dst2 := fst (copy_entries copy_one src dst1)).
  assert (Hat : assoc nm dst2 = Some (fst (value child nm old))).
  { unfold dst2. rewrite copy_entries_other by assumption.
    apply assoc_set_entry_same. }
  rewrite (copy_entries_cons nm child src dst2). cbv zeta.
  rewrite Hat, Hchild. rewrite (set_entry_same _ _ _ Hat).
  unfold dst2. rewrite (IH dst1 Hnd Hrest). reflexivity.
Qed.

End CopyEntries.

Lemma well_formed_Dir (es : entries_t) :
  well_formed (Dir es) = true ->
  nodupb (map fst es) = true /\ Forall (fun e => well_formed (snd e) = true) es.
Proof.
  cbn [well_formed]. intros H. apply andb_prop in H as [Hnd Hall].
  split; [assumption|]. apply Forall_forall. intros [k child] Hin.
  rewrite forallb_forall in Hall. exact (Hall _ Hin).
Qed.

Lemma assoc_In (k : str) (n : node) (es : entries_t) :
  assoc k es = Some n -> In (k, n) es.
Proof.
  induction es as [|[k' v] es IH]; simpl; [discriminate|].
  destruct (str_eqb k k') eqn:E.
  - apply str_eqb_eq in E. intros [= ->]. subst. now left.
  - intros H. right. now apply IH.
Qed.

(** Copying one entry a second time leaves the value it left the first
    time, and records the same failures. *)
Lemma entry_value_again (n : node) :
  well_formed n = true ->
  forall rel nm old,
    entry_value rel n nm (Some (fst (entry_value rel n nm old)))
    = entry_value rel n nm old.
Proof.
  induction n as [data|sub IH] using node_entries_ind; intros Hwf rel nm old.
  - cbn [entry_value]. destruct old as [[x|d]|]; try reflexivity.
    destruct (assoc nm d) as [[y|d2]|] eqn:E; cbn [fst].
    + now rewrite assoc_set_entry_same, set_entry_twice.
    + now rewrite E.
    + now rewrite assoc_set_entry_same, set_entry_twice.
  - apply well_formed_Dir in Hwf as [Hnd Hall].
    assert (Hagain : forall d,
               copy_entries (copy_entry (joinpath rel nm)) sub
                            (fst (copy_entries (copy_entry (joinpath rel nm)) sub d))
               = copy_entries (copy_entry (joinpath rel nm)) sub d).
    { intros d.
      apply (copy_entries_again (entry_value (joinpath rel nm))
                                (copy_entry (joinpath rel nm))
                                (copy_entry_value (joinpath rel nm))); [assumption|].
      rewrite Forall_forall in *. intros e He old'.
      apply IH; [assumption | now apply Hall]. }
    cbn [entry_value]. destruct old as [[x|d]|].
    + reflexivity.
    + specialize (Hagain d).
      destruct (copy_entries (copy_entry (joinpath rel nm)) sub d) as [d' e].
      cbn [fst] in *. now rewrite Hagain.
    + specialize (Hagain []).
      destruct (copy_entries (copy_entry (joinpath rel nm)) sub []) as [d' e].
      cbn [fst] in *. now rewrite Hagain.
Qed.

Lemma copy_entries_idempotent (rel : path) (src dst : entries_t) :
  well_formed (Dir src) = true ->
  copy_entries (copy_entry rel) src (fst (copy_entries (copy_entry rel) src dst))
  = copy_entries (copy_entry rel) src dst.
Proof.
  intros Hwf. apply well_formed_Dir in Hwf as [Hnd Hall].
  apply (copy_entries_again (entry_value rel) (copy_entry rel)
                            (copy_entry_value rel)); [assumption|].
  rewrite Forall_forall in *. intros e He old.
  apply entry_value_again. now apply Hall.
Qed.

(** Spared paths hold afterwards what they held before. *)
Lemma copy_entries_frame (p : path) :
  forall rel src dst,
    well_formed (Dir src) = true ->
    spared p src = true ->
    lookup p (Dir (fst (copy_entries (copy_entry rel) src dst)))
    = lookup p (Dir dst).
Proof.
  induction p as [|c p IH]; intros rel src dst Hwf Hl; [discriminate|].
  pose proof Hwf as Hwf'. apply well_formed_Dir in Hwf' as [Hnd Hall].
  cbn [spared] in Hl. cbn [lookup].
  destruct (assoc c src) as [[x|sub]|] eqn:Ec.
  - rewrite (copy_entries_at (entry_value rel) (copy_entry rel)
                             (copy_entry_value rel) c (File x) src dst Hnd Ec).
    destruct p as [|c' p]; [discriminate|].
    cbn [entry_value]. destruct (assoc c dst) as [[y|d]|]; try reflexivity.
    destruct (assoc c d) as [[z|d2]|] eqn:Ed; cbn [fst]; try reflexivity.
    + cbn [lookup]. destruct p as [|m p].
      * apply negb_true_iff, str_eqb_neq in Hl.
        now rewrite assoc_set_entry_other.
      * destruct (list_eq_dec ascii_dec c' c) as [->|Hne].
        -- now rewrite assoc_set_entry_same, Ed.
        -- now rewrite assoc_set_entry_other.
    + cbn [lookup]. destruct p as [|m p].
      * apply negb_true_iff, str_eqb_neq in Hl.
        now rewrite assoc_set_entry_other.
      * destruct (list_eq_dec ascii_dec c' c) as [->|Hne].
        -- now rewrite assoc_set_entry_same, Ed.
        -- now rewrite assoc_set_entry_other.
  - rewrite (copy_entries_at (entry_value rel) (copy_entry rel)
                             (copy_entry_value rel) c (Dir sub) src dst Hnd Ec).
    assert (Hsub : well_formed (Dir sub) = true).
    { rewrite Forall_forall in Hall. exact (Hall _ (assoc_In _ _ _ Ec)). }
    cbn [entry_value]. destruct (assoc c dst) as [[y|d]|].
    + reflexivity.
    + specialize (IH (joinpath rel c) sub d Hsub Hl).
      destruct (copy_entries (copy_entry (joinpath rel c)) sub d) as [d' e].
      exact IH.
    + specialize (IH (joinpath rel c) sub [] Hsub Hl).
      destruct (copy_entries (copy_entry (joinpath rel c)) sub []) as [d' e].
      cbn [fst] in *. rewrite IH. destruct p; [discriminate | reflexivity].
  - now rewrite (copy_entries_other (entry_value rel) (copy_entry rel)
                                    (copy_entry_value rel) c src dst Ec).
Qed.

(** A path absent at the source is spared, unless it repeats the name of
    a regular file of the source right below that file's place. *)
Lemma absent_spared (p : path) :
  forall src,
    lookup p (Dir src) = None ->
    (forall q nm data, p = q ++ [nm; nm] ->
                       lookup (q ++ [nm]) (Dir src) <> Some (File data)) ->
    spared p src = true.
Proof.
  induction p as [|c p IH]; intros src Habs Hrep; [discriminate|].
  cbn [lookup] in Habs. cbn [spared].
  destruct (assoc c src) as [[x|sub]|] eqn:Ec; [| |reflexivity].
  - destruct p as [|c' [|m p]]; [discriminate | | reflexivity].
    apply negb_true_iff, str_eqb_neq. intros ->.
    apply (Hrep [] c x eq_refl). simpl. now rewrite Ec.
  - apply IH; [assumption|]. intros q nm data -> Hq.
    apply (Hrep (c :: q) nm data eq_refl). simpl. now rewrite Ec.
Qed.

(** C9, as the code has it.  For a source tree with unique entry names
    per directory: copying it a second time into what the first copy left
    gives the same destination tree and ends the same way; and every
    destination path that is absent at the source holds after the copy
    what it held before, unless the path is that of a regular file of the
    source followed by the file's name once more. *)
Theorem copy_and_overwrite_merge (source : node) (dest : option node) :
  well_formed source = true ->
  copy_and_overwrite source (fst (copy_and_overwrite source dest))
  = copy_and_overwrite source dest
  /\ (forall d p,
         dest = Some d ->
         lookup p source = None ->
         (forall q nm data, p = q ++ [nm; nm] ->
                            lookup (q ++ [nm]) source <> Some (File data)) ->
         exists d1, fst (copy_and_overwrite source dest) = Some d1
                    /\ lookup p d1 = lookup p d).
Proof.
  intros Hwf. unfold copy_and_overwrite, copytree. split.
  - destruct source as [data|src]; [reflexivity|].
    pose proof (copy_entries_idempotent [] src) as Hi.
    destruct dest as [[x|d]|]; [reflexivity | |].
    + specialize (Hi d Hwf).
      destruct (copy_entries (copy_entry []) src d) as [d' e].
      cbn [fst] in *. now rewrite Hi.
    + specialize (Hi [] Hwf).
      destruct (copy_entries (copy_entry []) src []) as [d' e].
      cbn [fst] in *. now rewrite Hi.
  - intros d p -> Habs Hrep. destruct source as [data|src].
    + eexists; split; reflexivity.
    + destruct d as [x|d]; [eexists; split; reflexivity|].
      pose proof (copy_entries_frame p [] src d Hwf (absent_spared p src Habs Hrep))
        as Hf.
      destruct (copy_entries (copy_entry []) src d) as [d' e].
      eexists; split; [reflexivity | exact Hf].
Qed.

Lemma copy_and_overwrite_merge_witness :
  copy_and_overwrite sample_source
                     (fst (copy_and_overwrite sample_source (Some sample_dest)))
  = copy_and_overwrite sample_source (Some sample_dest)
  /\ exists d1,
      fst (copy_and_overwrite sample_source (Some sample_dest)) = Some d1
      /\ lookup [py "assets"; py "extra.png"] d1
         = lookup [py "assets"; py "extra.png"] sample_dest.
Proof.
  pose proof (copy_and_overwrite_merge sample_source (Some sample_dest) eq_refl)
    as [Hagain Hframe].
  split; [exact Hagain|].
  refine (Hframe sample_dest [py "assets"; py "extra.png"] eq_refl eq_refl _).
  intros [|c1 [|c2 [|c3 q]]] nm data H; try discriminate H.
  injection H as <- H. discriminate H.
Defined.

(** C9 as worded fails: the destination file [a/a] is absent at the
    source, which has a regular file [a]; the copy puts that file inside
    the destination directory [a], over [a/a]. *)
Lemma copy_and_overwrite_writes_into_directory :
  lookup [py "a"; py "a"] clash_source = None
  /\ lookup [py "a"; py "a"] clash_dest = Some (File (py "old"))
  /\ copy_and_overwrite clash_source (Some clash_dest)
     = (Some (Dir [(py "a", Dir [(py "a", File (py "new"))])]), Copied).
Proof. repeat split. Qed.

(* ================================================================== *)
(** * Further properties of the code *)
(* ================================================================== *)

(** ** Game Directory Finder *)

(** X1.  The Finder always returns a list, and a path is in it exactly
    when it is the path of an entry of the source root whose name has four
    characters in a row from the four bracket classes of [DIR_PATTERN], and
    a directory is found at that path. *)
Theorem finder_membership (fs : node) (source_dir : path) :
  exists found,
    find_all_game_paths fs source_dir = Some found
    /\ forall item,
        In item found <->
        (is_dir_node (lookup item fs) = true
         /\ exists e, In e (scandir fs source_dir)
                      /\ item = joinpath source_dir (fst e)
                      /\ game_like (fst e) = true).
Proof.
  rewrite find_all_game_paths_eq. eexists; split; [reflexivity|].
  intros item. rewrite filter_In, in_map_iff. split.
  - intros [(e & <- & He) Hdir]. apply filter_In in He as [He Hg]. eauto.
  - intros [Hdir (e & He & -> & Hg)]. split; [|exact Hdir].
    exists e. split; [reflexivity|]. apply filter_In. auto.
Qed.

(** X2.  The Finder keeps the enumeration order: the names of the paths it
    returns are the names of the listing that pass its two tests, in the
    order of the listing. *)
Theorem finder_keeps_listing_order (fs : node) (source_dir : path) :
  exists found,
    find_all_game_paths fs source_dir = Some found
    /\ map name found
       = map fst
           (filter (fun e => game_like (fst e)
                             && is_dir_node (lookup (joinpath source_dir (fst e)) fs))
                   (scandir fs source_dir)).
Proof.
  rewrite find_all_game_paths_eq. eexists; split; [reflexivity|].
  induction (scandir fs source_dir) as [|e l IH]; [reflexivity|].
  cbn [filter]. destruct (game_like (fst e)); cbn [map filter andb]; [|exact IH].
  destruct (is_dir_node (lookup (joinpath source_dir (fst e)) fs));
    cbn [map]; [|exact IH].
  rewrite name_joinpath. f_equal. exact IH.
Qed.

(** X3.  A source root that is not a directory of the tree (it does not
    exist, or it is a regular file) gives the empty list, not an error. *)
Theorem finder_empty_without_directory (fs : node) (source_dir : path) :
  is_dir_node (lookup source_dir fs) = false ->
  find_all_game_paths fs source_dir = Some [].
Proof.
  intros H. rewrite find_all_game_paths_eq. unfold scandir.
  destruct (lookup source_dir fs) as [[x|es]|]; try reflexivity. discriminate.
Qed.

Lemma finder_empty_without_directory_witness :
  find_all_game_paths sample_fs [py "nowhere"] = Some [].
Proof.
  apply (finder_empty_without_directory sample_fs [py "nowhere"]). reflexivity.
Defined.

(** X4.  Every child directory of the source root whose name holds [game]
    in some letter case is among the paths the Finder returns. *)
Theorem finder_takes_game_directories (fs : node) (source_dir : path)
        (e : str * node) :
  In e (scandir fs source_dir) ->
  contains_ci (py "game") (fst e) = true ->
  is_dir_node (lookup (joinpath source_dir (fst e)) fs) = true ->
  exists found, find_all_game_paths fs source_dir = Some found
                /\ In (joinpath source_dir (fst e)) found.
Proof.
  intros He Hc Hd. rewrite find_all_game_paths_eq. eexists; split; [reflexivity|].
  apply filter_In. split; [|exact Hd].
  apply in_map_iff. exists e. split; [reflexivity|].
  apply filter_In. split; [exact He | now apply contains_game_game_like].
Qed.

Lemma finder_takes_game_directories_witness :
  exists found,
    find_all_game_paths sample_tree [py "home"; py "src"] = Some found
    /\ In [py "home"; py "src"; py "GAME3"] found.
Proof.
  apply (finder_takes_game_directories sample_tree [py "home"; py "src"]
           (py "GAME3", Dir [])).
  - do 4 right. left. reflexivity.
  - reflexivity.
  - reflexivity.
Defined.

(** ** Name Transformer *)

Lemma names_loop_length (r : Re.regex) (paths : list path) (names : list str) :
  names_loop r paths = Ok names -> length names = length paths.
Proof.
  revert names; induction paths as [|q paths IH]; intros names; cbn [names_loop].
  - now intros [= <-].
  - destruct (strip_match r (name q)) as [n|e]; [|discriminate]. cbn [bind].
    destruct (names_loop r paths) as [ns|e]; [|discriminate]. cbn [bind].
    intros [= <-]. simpl. f_equal. now apply IH.
Qed.

(** X5.  Whatever the pattern, when the Name Transformer returns, it
    returns one name for each path it was given: the pairing of
    directories and new names in [create_new_dirs] drops nothing. *)
Theorem get_names_one_per_path (paths : list path) (to_strip : str)
        (names : list str) :
  get_names_from_paths paths to_strip = Some (Ok names) ->
  length names = length paths.
Proof.
  unfold get_names_from_paths. destruct paths as [|q paths].
  - now intros [= <-].
  - destruct (Re.compile to_strip) as [r|]; [|discriminate].
    intros [= H]. exact (names_loop_length r (q :: paths) names H).
Qed.

Lemma get_names_one_per_path_witness :
  length [py "One"; py "MyTwo"]
  = length [[py "src"; py "GameOne"]; [py "src"; py "MyGameTwo"]].
Proof.
  apply (get_names_one_per_path
           [[py "src"; py "GameOne"]; [py "src"; py "MyGameTwo"]] (py "ga+me")).
  reflexivity.
Defined.

(** ** Path Resolver *)

Lemma forallb_removelast {A} (f : A -> bool) (l : list A) :
  forallb f l = true -> forallb f (removelast l) = true.
Proof.
  induction l as [|a [|b l] IH]; [easy | easy |].
  intros H. cbn [forallb] in H. apply andb_prop in H as [Ha Hl].
  cbn [removelast forallb]. rewrite Ha. exact (IH Hl).
Qed.

Lemma forallb_joinpath (f : str -> bool) (p : path) (c : str) :
  forallb f p = true -> f c = true -> forallb f (joinpath p c) = true.
Proof.
  intros Hp Hc. unfold joinpath. rewrite forallb_app, Hp. simpl. now rewrite Hc.
Qed.

(** [realpath] builds its result from proper names only. *)
Lemma realpath_proper (fs : node) (strict : bool) (cur : path) (comps : list str)
      (q : path) :
  forallb proper_name cur = true ->
  forallb (fun c => negb (str_eqb c []) && negb (str_eqb c (py "."))) comps = true ->
  realpath_from fs strict cur comps = Ok q ->
  forallb proper_name q = true.
Proof.
  revert cur; induction comps as [|c cs IH]; intros cur Hcur Hcs; cbn [realpath_from].
  - now intros [= <-].
  - cbn [forallb] in Hcs. apply andb_prop in Hcs as [Hc Hcs].
    destruct (is_dotdot c) eqn:Edd.
    + apply IH; [now apply forallb_removelast | assumption].
    + assert (Hnext : forallb proper_name (joinpath cur c) = true).
      { apply forallb_joinpath; [assumption|]. unfold proper_name.
        now rewrite Hc, Edd. }
      destruct strict.
      * destruct (lookup (joinpath cur c) fs); [now apply IH|].
        destruct (lookup cur fs) as [[|]|]; discriminate.
      * now apply IH.
Qed.

Lemma Path_parts_kept (s : str) :
  forallb (fun c => negb (str_eqb c []) && negb (str_eqb c (py ".")))
          (parts (Path s)) = true.
Proof.
  apply forallb_forall. intros c Hc. cbn [Path parts] in Hc.
  now apply filter_In in Hc as [_ Hc].
Qed.

(** X6.  From a working directory that exists and is given by proper
    names, what the Path Resolver returns for a non-empty path string is a
    path that exists in the tree and is canonical: none of its components
    is empty, [.] or [..]. *)
Theorem resolver_returns_existing_canonical
        (fs : node) (wd : path) (dir_file : str) (q : path) :
  dir_file <> [] ->
  (exists m, lookup wd fs = Some m) ->
  forallb proper_name wd = true ->
  get_absolute_path fs wd dir_file = Ok q ->
  (exists m, lookup q fs = Some m) /\ forallb proper_name q = true.
Proof.
  intros Hne Hwd Hproper Hres. split.
  - exact (get_absolute_path_exists fs wd dir_file q Hne Hwd Hres).
  - unfold get_absolute_path, resolve in Hres.
    apply (realpath_proper _ _ _ _ _) in Hres; [assumption | | apply Path_parts_kept].
    unfold anchor. now destruct (absolute (Path dir_file)).
Qed.

Lemma resolver_returns_existing_canonical_witness :
  (exists m, lookup [py "home"; py "src"; py "GameOne"] sample_tree = Some m)
  /\ forallb proper_name [py "home"; py "src"; py "GameOne"] = true.
Proof.
  apply (resolver_returns_existing_canonical sample_tree [py "home"]
           (py "./src/../src//GameOne/lib/..")).
  - discriminate.
  - eexists. reflexivity.
  - reflexivity.
  - reflexivity.
Defined.

(** X7.  Wherever the kernel's walk of the path string arrives, the Path
    Resolver returns that place. *)
Theorem resolver_follows_walk (fs : node) (wd : path) (dir_file : str) (q : path) :
  walk fs (anchor wd (Path dir_file)) (parts (Path dir_file)) = Ok q ->
  get_absolute_path fs wd dir_file = Ok q.
Proof. intros H. unfold get_absolute_path, resolve. now apply walk_realpath. Qed.

Lemma resolver_follows_walk_witness :
  get_absolute_path sample_tree [py "home"; py "src"] (py "../src/GameOne/lib")
  = Ok [py "home"; py "src"; py "GameOne"; py "lib"].
Proof.
  apply (resolver_follows_walk sample_tree [py "home"; py "src"]
           (py "../src/GameOne/lib")).
  reflexivity.
Defined.

(** ** Paths that do not overlap *)

Lemma is_prefix_app (a b : path) :
  is_prefix a b = true <-> exists r, b = a ++ r.
Proof.
  revert b; induction a as [|x a IH]; intros b; cbn [is_prefix].
  - split; [intros _; now exists b | reflexivity].
  - destruct b as [|y b]; [split; [discriminate | intros [r Hr]; discriminate]|].
    rewrite andb_true_iff, str_eqb_eq, IH. split.
    + intros [-> [r ->]]. now exists r.
    + intros [r Hr]. injection Hr as -> ->. eauto.
Qed.

Lemma is_prefix_refl (a : path) : is_prefix a a = true.
Proof. apply is_prefix_app. exists []. now rewrite app_nil_r. Qed.

(** Storing at [q] leaves every path alone that is neither above nor
    below [q]. *)
Lemma lookup_store_disjoint (q : path) (v : node) :
  forall p fs, overlapping p q = false ->
               lookup p (store q v fs) = lookup p fs.
Proof.
  induction q as [|c q IH]; intros p fs Hov.
  - unfold overlapping in Hov. cbn [is_prefix] in Hov.
    rewrite orb_true_r in Hov. discriminate.
  - destruct fs as [x|es]; [reflexivity|].
    destruct p as [|a p]; [discriminate|].
    unfold overlapping in Hov. cbn [is_prefix] in Hov.
    apply orb_false_iff in Hov as [H1 H2].
    destruct (list_eq_dec ascii_dec a c) as [->|Hne].
    + rewrite str_eqb_refl in H1, H2. cbn [andb] in H1, H2.
      destruct q as [|c' q].
      * destruct p; discriminate.
      * cbn [store]. destruct (assoc c es) as [m|] eqn:E; [|reflexivity].
        cbn [lookup]. rewrite assoc_set_entry_same, E. apply IH.
        unfold overlapping. now rewrite H1, H2.
    + assert (Hsame : forall w, assoc a (set_entry c w es) = assoc a es)
        by (intros w; now apply assoc_set_entry_other).
      destruct q as [|c' q]; cbn [store].
      * cbn [lookup]. now rewrite Hsame.
      * destruct (assoc c es) as [m|]; [|reflexivity].
        cbn [lookup]. now rewrite Hsame.
Qed.

(** A path that exists does not overlap a fresh entry of a directory,
    unless it lies above it. *)
Lemma file_not_overlapping (fs : node) (d : path) (leaf : str) (es : entries_t)
      (p : path) (x : str) :
  lookup d fs = Some (Dir es) -> assoc leaf es = None ->
  lookup p fs = Some (File x) ->
  overlapping p (joinpath d leaf) = false.
Proof.
  intros Hd Hfresh Hp. unfold overlapping.
  assert (Hnew : lookup (joinpath d leaf) fs = None).
  { unfold joinpath. rewrite lookup_app, Hd. simpl. now rewrite Hfresh. }
  apply orb_false_iff. split.
  - destruct (is_prefix p (joinpath d leaf)) eqn:E; [|reflexivity].
    apply is_prefix_app in E as [r Hr].
    rewrite Hr, lookup_app, Hp in Hnew.
    destruct r as [|c r]; [discriminate|].
    destruct (@exists_last _ (c :: r) ltac:(discriminate)) as [r' [c' Hr']].
    rewrite Hr' in Hr. unfold joinpath in Hr. rewrite app_assoc in Hr.
    apply app_inj_tail in Hr as [Hdp _].
    rewrite Hdp, lookup_app, Hp in Hd.
    destruct r'; discriminate.
  - destruct (is_prefix (joinpath d leaf) p) eqn:E; [|reflexivity].
    apply is_prefix_app in E as [r Hr].
    rewrite Hr, lookup_app, Hnew in Hp. discriminate.
Qed.

(** ** Target Preparer *)

(** How [os.mkdir] can end. *)
Lemma os_mkdir_cases (fs : node) (wd : path) (pp : pure_path) :
  (exists e, os_mkdir fs wd pp = (fs, Raise e))
  \/ (exists d es,
         parts pp <> []
         /\ walk fs (anchor wd pp) (removelast (parts pp)) = Ok d
         /\ lookup d fs = Some (Dir es)
         /\ is_dotdot (last (parts pp) []) = false
         /\ assoc (last (parts pp) []) es = None
         /\ os_mkdir fs wd pp
            = (store (joinpath d (last (parts pp) [])) (Dir []) fs, Ok tt)).
Proof.
  destruct (parts pp) as [|c0 l0] eqn:El.
  - left. exists FileExistsError. unfold os_mkdir. now rewrite El.
  - assert (Hne : parts pp <> []) by (rewrite El; discriminate).
    rewrite <- El. rewrite (os_mkdir_nonempty fs wd pp Hne). cbv zeta.
    destruct (walk fs (anchor wd pp) (removelast (parts pp))) as [d|e] eqn:Ew;
      [|left; eauto].
    destruct (lookup d fs) as [[x|es]|] eqn:Ed; [left; eauto | | left; eauto].
    destruct (is_dotdot (last (parts pp) [])) eqn:Edd; [left; eauto|].
    destruct (assoc (last (parts pp) []) es) eqn:Ea; [left; eauto|].
    right. exists d, es. repeat split; assumption.
Qed.

(** After [os.mkdir] made the directory, the walk of the whole path
    arrives at it. *)
Lemma walk_after_mkdir (fs : node) (wd : path) (pp : pure_path) (d : path)
      (es : entries_t) :
  parts pp <> [] ->
  walk fs (anchor wd pp) (removelast (parts pp)) = Ok d ->
  lookup d fs = Some (Dir es) ->
  is_dotdot (last (parts pp) []) = false ->
  assoc (last (parts pp) []) es = None ->
  let fs' := store (joinpath d (last (parts pp) [])) (Dir []) fs in
  walk fs' (anchor wd pp) (parts pp) = Ok (joinpath d (last (parts pp) []))
  /\ lookup (joinpath d (last (parts pp) [])) fs' = Some (Dir []).
Proof.
  intros Hne Hw Hd Hdd Hfresh fs'. set (leaf := last (parts pp) []) in *.
  pose proof (lookup_store_leaf d leaf (Dir []) fs es Hd) as Hnew.
  pose proof (lookup_store_fresh d leaf (Dir []) fs es Hd Hfresh) as Hkeep.
  fold fs' in Hnew, Hkeep. split; [|exact Hnew].
  rewrite (parts_split (parts pp) Hne). fold leaf.
  rewrite walk_app, (walk_mono fs fs' _ _ d Hkeep Hw). cbn [bind walk].
  destruct (Hkeep d _ Hd) as (n' & -> & Hs).
  destruct n'; [destruct Hs|]. now rewrite Hdd, Hnew.
Qed.

(** A destination that is a directory already: nothing changes. *)
Lemma setup_target_dir_existing (fs : node) (wd : path) (dirname : str) (q : path) :
  walk fs (anchor wd (Path dirname)) (parts (Path dirname)) = Ok q ->
  is_dir_node (lookup q fs) = true ->
  setup_target_dir fs wd dirname = (fs, Ok q).
Proof.
  intros Hw Hdir. unfold setup_target_dir, mkdir.
  rewrite (os_mkdir_exists _ _ _ _ Hw).
  unfold is_dir. rewrite Hw, Hdir. cbn [andb].
  unfold get_absolute_path, resolve. now rewrite (walk_realpath _ _ _ _ _ Hw).
Qed.

(** How the Target Preparer can end: with the tree untouched and an
    exception, with the tree untouched and the destination a directory
    already, or with the destination added as a fresh, empty directory. *)
Lemma setup_target_dir_ends (fs : node) (wd : path) (dirname : str) :
  let pp := Path dirname in
  (exists e, setup_target_dir fs wd dirname = (fs, Raise e))
  \/ (exists q,
         walk fs (anchor wd pp) (parts pp) = Ok q
         /\ is_dir_node (lookup q fs) = true
         /\ setup_target_dir fs wd dirname = (fs, Ok q))
  \/ (exists d es leaf,
         lookup d fs = Some (Dir es) /\ assoc leaf es = None
         /\ let fs' := store (joinpath d leaf) (Dir []) fs in
            walk fs' (anchor wd pp) (parts pp) = Ok (joinpath d leaf)
            /\ lookup (joinpath d leaf) fs' = Some (Dir [])
            /\ setup_target_dir fs wd dirname = (fs', Ok (joinpath d leaf))).
Proof.
  intros pp.
  destruct (os_mkdir_cases fs wd pp)
    as [[e He] | (d & es & Hne & Hw & Hd & Hdd & Hfresh & Hmk)].
  - destruct (is_dir fs wd pp) eqn:Edir.
    + unfold is_dir in Edir.
      destruct (walk fs (anchor wd pp) (parts pp)) as [q|] eqn:Ew; [|discriminate].
      right. left. exists q. repeat split; try assumption.
      now apply setup_target_dir_existing.
    + left. exists e. unfold setup_target_dir, mkdir. fold pp.
      rewrite He, Edir. now destruct e.
  - right. right. exists d, es, (last (parts pp) []).
    destruct (walk_after_mkdir fs wd pp d es Hne Hw Hd Hdd Hfresh) as [Hw' Hnew].
    repeat split; try assumption.
    unfold setup_target_dir, mkdir. fold pp. rewrite Hmk. f_equal.
    unfold get_absolute_path, resolve. fold pp. now apply walk_realpath.
Qed.

(** X8.  After a call of the Target Preparer that returned a path, a
    directory is at that path, and a second call with the same argument
    changes nothing and returns the same path. *)
Theorem setup_target_dir_again (fs fs1 : node) (wd : path) (dirname : str)
        (q : path) :
  setup_target_dir fs wd dirname = (fs1, Ok q) ->
  is_dir_node (lookup q fs1) = true
  /\ setup_target_dir fs1 wd dirname = (fs1, Ok q).
Proof.
  intros H.
  destruct (setup_target_dir_ends fs wd dirname)
    as [[e He] | [(q' & Hw & Hdir & Hs) | (d & es & leaf & Hd & Hfresh & Hw & Hnew & Hs)]];
    rewrite H in *.
  - discriminate.
  - injection Hs as -> ->. split; [assumption|].
    now apply setup_target_dir_existing.
  - injection Hs as -> ->. split; [now rewrite Hnew|].
    apply setup_target_dir_existing; [assumption | now rewrite Hnew].
Qed.

Lemma setup_target_dir_again_witness :
  is_dir_node (lookup [py "home"; py "harvest"]
                      (fst (setup_target_dir sample_tree [py "home"] (py "harvest"))))
  = true
  /\ setup_target_dir (fst (setup_target_dir sample_tree [py "home"] (py "harvest")))
                      [py "home"] (py "harvest")
     = (fst (setup_target_dir sample_tree [py "home"] (py "harvest")),
        Ok [py "home"; py "harvest"]).
Proof.
  exact (setup_target_dir_again sample_tree _ [py "home"] (py "harvest")
           [py "home"; py "harvest"] eq_refl).
Defined.

(** X9.  The Target Preparer takes nothing away: when it raises, the tree
    is as it was; in every case each regular file keeps its place and its
    content, and each directory stays a directory. *)
Theorem setup_target_dir_keeps (fs fs1 : node) (wd : path) (dirname : str)
        (r : result path) :
  setup_target_dir fs wd dirname = (fs1, r) ->
  (forall e, r = Raise e -> fs1 = fs)
  /\ (forall p x, lookup p fs = Some (File x) -> lookup p fs1 = Some (File x))
  /\ (forall p, is_dir_node (lookup p fs) = true ->
                is_dir_node (lookup p fs1) = true).
Proof.
  intros H.
  destruct (setup_target_dir_ends fs wd dirname)
    as [[e He] | [(q' & Hw & Hdir & Hs) | (d & es & leaf & Hd & Hfresh & Hw & Hnew & Hs)]];
    rewrite H in *.
  - injection He as -> ->. repeat split; auto.
  - injection Hs as -> ->. repeat split; auto.
  - injection Hs as -> ->. split; [discriminate|]. split.
    + intros p x Hp.
      rewrite lookup_store_disjoint; [assumption|].
      exact (file_not_overlapping fs d leaf es p x Hd Hfresh Hp).
    + intros p Hp. destruct (lookup p fs) as [[x|es']|] eqn:E; try discriminate.
      destruct (lookup_store_fresh d leaf (Dir []) fs es Hd Hfresh p _ E)
        as (n' & -> & Hk).
      destruct n'; [destruct Hk | reflexivity].
Qed.

Lemma setup_target_dir_keeps_witness :
  lookup [py "harvest"; py "One"; py "a.go"]
         (fst (setup_target_dir sample_fs [py "harvest"] (py "Two")))
  = Some (File (py "package main")).
Proof.
  pose proof (setup_target_dir_keeps sample_fs _ [py "harvest"] (py "Two") _ eq_refl)
    as (_ & Hfiles & _).
  exact (Hfiles [py "harvest"; py "One"; py "a.go"] (py "package main") eq_refl).
Defined.

(** ** Metadata Writer *)

Lemma walk_plain (fs : node) (cur : path) (comps : list str) (q : path) :
  plain comps = true -> walk fs cur comps = Ok q -> q = cur ++ comps.
Proof.
  revert cur; induction comps as [|c cs IH]; intros cur Hplain; cbn [walk].
  - intros [= <-]. now rewrite app_nil_r.
  - cbn [plain forallb] in Hplain. apply andb_prop in Hplain as [Hc Hcs].
    apply negb_true_iff in Hc. rewrite Hc.
    destruct (lookup cur fs) as [[|es]|]; try discriminate.
    destruct (lookup (joinpath cur c) fs); [|discriminate].
    intros H. apply (IH _ Hcs) in H. subst q. unfold joinpath.
    now rewrite <- app_assoc.
Qed.

Lemma set_entry_set_entry (k : str) (v w : node) (es : entries_t) :
  set_entry k w (set_entry k v es) = set_entry k w es.
Proof.
  induction es as [|[k' v'] es IH]; simpl.
  - now rewrite str_eqb_refl.
  - destruct (str_eqb k k') eqn:E; simpl.
    + now rewrite str_eqb_refl.
    + now rewrite E, IH.
Qed.

Lemma store_step (c c' : str) (q : path) (v : node) (es : entries_t) :
  store (c :: c' :: q) v (Dir es)
  = match assoc c es with
    | Some m => Dir (set_entry c (store (c' :: q) v m) es)
    | None => Dir es
    end.
Proof. reflexivity. Qed.

(** The later of two stores at one path is the one that counts. *)
Lemma store_store (q : path) (v w : node) :
  forall fs, store q w (store q v fs) = store q w fs.
Proof.
  induction q as [|c q IH]; intros fs; [reflexivity|].
  destruct fs as [x|es]; [reflexivity|].
  destruct q as [|c' q].
  - cbn [store]. now rewrite set_entry_set_entry.
  - rewrite (store_step c c' q v es). destruct (assoc c es) as [m|] eqn:E.
    + rewrite !store_step, assoc_set_entry_same, set_entry_set_entry, E.
      now rewrite IH.
    + now rewrite store_step, E.
Qed.

(** What the directory holding a stored entry looks like afterwards. *)
Lemma lookup_store_parent (d : path) (leaf : str) (v : node) :
  forall fs es,
    lookup d fs = Some (Dir es) ->
    lookup d (store (joinpath d leaf) v fs) = Some (Dir (set_entry leaf v es)).
Proof.
  induction d as [|c d IH]; intros fs es H.
  - simpl in H. injection H as ->. reflexivity.
  - destruct fs as [|es0]; [discriminate|]. simpl in H.
    destruct (assoc c es0) as [m|] eqn:E; [|discriminate].
    change (joinpath (c :: d) leaf) with (c :: joinpath d leaf).
    rewrite store_cons, E. cbn [lookup]. rewrite assoc_set_entry_same.
    now apply IH.
Qed.

(** How a write below a root given by plain names can end. *)
Lemma write_text_ends (fs : node) (p : path) (nm content : str) :
  plain p = true ->
  (exists e, write_text fs (joinpath p nm) content = (fs, Raise e)
             /\ (is_dir_node (lookup p fs) = true ->
                 exists es, lookup p fs = Some (Dir es)
                            /\ is_dir_node (assoc nm es) = true))
  \/ (exists es,
         lookup p fs = Some (Dir es)
         /\ is_dir_node (assoc nm es) = false
         /\ write_text fs (joinpath p nm) content
            = (store (joinpath p nm) (File content) fs, Ok tt)).
Proof.
  intros Hplain. unfold write_text. rewrite parent_joinpath, name_joinpath.
  destruct (lookup p fs) as [[x|es]|] eqn:Ep.
  - left. destruct (walk fs [] p) as [d|e] eqn:Ew.
    + apply (walk_plain _ _ _ _ Hplain) in Ew. cbn [app] in Ew. subst d.
      rewrite Ep. eexists; split; [reflexivity | discriminate].
    + eexists; split; [reflexivity | discriminate].
  - rewrite (walk_existing fs [] p (Dir es) Hplain Ep). cbn [app]. rewrite Ep.
    destruct (assoc nm es) as [[y|d2]|] eqn:Ea.
    + right. exists es. rewrite Ea. repeat split.
    + left. eexists; split; [reflexivity|]. intros _. exists es. now rewrite Ea.
    + right. exists es. rewrite Ea. repeat split.
  - left. destruct (walk fs [] p) as [d|e] eqn:Ew.
    + apply (walk_plain _ _ _ _ Hplain) in Ew. cbn [app] in Ew. subst d.
      rewrite Ep. eexists; split; [reflexivity | discriminate].
    + eexists; split; [reflexivity | discriminate].
Qed.

(** X10.  No merging with an earlier manifest: writing the metadata for
    one list of names and then for another leaves the tree exactly as
    writing for the second list alone, and ends the same way. *)
Theorem make_json_metadata_file_last_wins
        (fs : node) (p : path) (dirs1 dirs2 : list str) :
  plain p = true ->
  make_json_metadata_file (fst (make_json_metadata_file fs p dirs1)) p dirs2
  = make_json_metadata_file fs p dirs2.
Proof.
  intros Hplain. unfold make_json_metadata_file.
  set (nm := py "metadata.json").
  destruct (write_text_ends fs p nm (dumps (metadata dirs1)) Hplain)
    as [(e & -> & _) | (es & Hp & Hnodir & ->)]; [reflexivity|].
  cbn [fst].
  destruct (write_text_ends fs p nm (dumps (metadata dirs2)) Hplain)
    as [(e & _ & Hwhy) | (es2 & _ & _ & ->)].
  - rewrite Hp in Hwhy. destruct (Hwhy eq_refl) as (es' & [= <-] & Hdir).
    rewrite Hdir in Hnodir. discriminate.
  - pose proof (lookup_store_parent p nm (File (dumps (metadata dirs1))) fs es Hp)
      as Hp1.
    destruct (write_text_ends (store (joinpath p nm) (File (dumps (metadata dirs1))) fs)
                              p nm (dumps (metadata dirs2)) Hplain)
      as [(e & _ & Hwhy) | (es1 & _ & _ & ->)].
    + rewrite Hp1 in Hwhy. destruct (Hwhy eq_refl) as (es' & [= <-] & Hdir).
      rewrite assoc_set_entry_same in Hdir. discriminate.
    + now rewrite store_store.
Qed.

Lemma make_json_metadata_file_last_wins_witness :
  make_json_metadata_file
    (fst (make_json_metadata_file sample_fs sample_target [py "Old"]))
    sample_target [py "One"; py "3"]
  = make_json_metadata_file sample_fs sample_target [py "One"; py "3"].
Proof.
  apply (make_json_metadata_file_last_wins sample_fs sample_target
           [py "Old"] [py "One"; py "3"]).
  reflexivity.
Defined.

(** X11.  The Metadata Writer writes one file and nothing else: every path
    that is neither the manifest nor a directory above it holds afterwards
    what it held before; when the call raises the tree is as it was; and
    it raises whenever the destination root is not a directory, which it
    never creates. *)
Theorem make_json_metadata_file_frame
        (fs fs' : node) (p : path) (dirs : list str) (r : result unit) :
  plain p = true ->
  make_json_metadata_file fs p dirs = (fs', r) ->
  (forall q, overlapping q (joinpath p (py "metadata.json")) = false ->
             lookup q fs' = lookup q fs)
  /\ (forall e, r = Raise e -> fs' = fs)
  /\ (is_dir_node (lookup p fs) = false -> exists e, r = Raise e /\ fs' = fs).
Proof.
  intros Hplain. unfold make_json_metadata_file.
  destruct (write_text_ends fs p (py "metadata.json") (dumps (metadata dirs)) Hplain)
    as [(e & -> & _) | (es & Hp & _ & ->)]; intros [= <- <-].
  - repeat split; eauto.
  - split; [|split].
    + intros q Hq. now apply lookup_store_disjoint.
    + discriminate.
    + rewrite Hp. discriminate.
Qed.

Lemma make_json_metadata_file_frame_witness :
  lookup [py "harvest"; py "One"; py "b.go"]
         (fst (make_json_metadata_file sample_fs sample_target [py "One"]))
  = lookup [py "harvest"; py "One"; py "b.go"] sample_fs.
Proof.
  pose proof (make_json_metadata_file_frame sample_fs _ sample_target [py "One"] _
                eq_refl eq_refl) as (Hframe & _ & _).
  exact (Hframe [py "harvest"; py "One"; py "b.go"] eq_refl).
Defined.

(** ** Build Runner *)

Lemma fullmatch_dot_go (t : str) :
  Fnmatch.fullmatch [Fnmatch.Single (Fnmatch.Char ".");
                     Fnmatch.Single (Fnmatch.Char "g");
                     Fnmatch.Single (Fnmatch.Char "o")] t = true
  <-> t = py ".go".
Proof.
  cbn [Fnmatch.fullmatch Fnmatch.single_matches]. split.
  - destruct t as [|a [|b [|c [|d t]]]]; rewrite ?andb_false_r; try discriminate.
    rewrite andb_true_r, !andb_true_iff, !Ascii.eqb_eq.
    now intros (<- & <- & <-).
  - intros ->. reflexivity.
Qed.

Lemma fullmatch_GO_GLOB (s : str) :
  Fnmatch.fullmatch GO_GLOB s = true <-> exists stem, s = stem ++ py ".go".
Proof.
  unfold GO_GLOB. cbn [Fnmatch.fullmatch].
  match goal with |- (?f s = true) <-> _ => set (star := f) end.
  assert (Hstep : forall c t,
             star (c :: t)
             = Fnmatch.fullmatch [Fnmatch.Single (Fnmatch.Char ".");
                                  Fnmatch.Single (Fnmatch.Char "g");
                                  Fnmatch.Single (Fnmatch.Char "o")] (c :: t)
               || star t) by reflexivity.
  induction s as [|c s IH].
  - split; [discriminate | intros [stem H]; destruct stem; discriminate].
  - rewrite Hstep, orb_true_iff, fullmatch_dot_go, IH. split.
    + intros [-> | [stem ->]]; [now exists [] | now exists (c :: stem)].
    + intros [[|a stem] H].
      * left. exact H.
      * right. injection H as -> ->. now exists stem.
Qed.

(** Whatever [rglob] yields lies below the directory it started from and
    has a name the pattern takes. *)
Lemma rglob_node_sound (g : list Fnmatch.item) (n : node) :
  forall dir q,
    In q (rglob_node g dir n) ->
    is_prefix dir (parent q) = true /\ Fnmatch.fullmatch g (name q) = true.
Proof.
  induction n as [data|es IH] using node_entries_ind; intros dir q Hq;
    [destruct Hq|].
  cbn [rglob_node] in Hq. apply in_app_or in Hq as [Hq|Hq].
  - apply in_map_iff in Hq as (e & <- & He). apply filter_In in He as [_ He].
    rewrite parent_joinpath, name_joinpath. split; [apply is_prefix_refl | exact He].
  - apply in_flat_map in Hq as ([nm child] & He & Hq).
    rewrite Forall_forall in IH. specialize (IH _ He). cbn [snd] in IH.
    destruct child as [data|sub]; [destruct Hq|].
    destruct (IH _ _ Hq) as [Hpre Hname]. split; [|exact Hname].
    apply is_prefix_app in Hpre as [r Hr]. apply is_prefix_app.
    exists (nm :: r). rewrite Hr. unfold joinpath. now rewrite <- app_assoc.
Qed.

(** Launched or not, what the loop tried is a front part of the files. *)
Lemma compile_loop_attempts (run : path -> list str -> run_outcome)
      (files : list path) :
  forall st st' r,
    compile_loop run files st = (st', r) ->
    exists tried rest,
      files = tried ++ rest
      /\ attempts (trace st')
         = attempts (trace st) ++ map (fun f => (parent f, build_command f)) tried.
Proof.
  induction files as [|f files IH]; intros st st' r; cbn [compile_loop].
  - intros [= <- <-]. exists [], []. split; [reflexivity|].
    cbn [map]. now rewrite app_nil_r.
  - cbn [chdir cwd].
    destruct (run (parent f) (build_command f)) as [rc|e] eqn:Ef.
    + intros H. apply IH in H as (tried & rest & -> & Ht).
      exists (f :: tried), rest. split; [reflexivity|]. rewrite Ht.
      unfold chdir, log_run. cbn [trace cwd]. rewrite !attempts_app.
      cbn [attempts map app]. rewrite !app_nil_r, <- app_assoc. reflexivity.
    + intros [= <- <-]. exists [f], files. split; [reflexivity|].
      unfold chdir, log_run. cbn [trace cwd]. rewrite !attempts_app.
      cbn [attempts map app]. now rewrite app_nil_r.
Qed.

(** X12.  However the Build Runner ends, every command it tried to launch
    is [go build] followed by one name ending in [.go], launched from a
    directory at or below the root it was given. *)
Theorem compile_code_files_commands
        (run : path -> list str -> run_outcome) (fs : node) (p : path)
        (st st' : process) (r : result unit) :
  compile_code_files run fs p st = Some (st', r) ->
  exists tried,
    attempts (trace st') = attempts (trace st) ++ tried
    /\ Forall (build_of p) tried.
Proof.
  unfold compile_code_files, rglob.
  change (negb (one_component FILE_EXTENSION)) with false. cbv iota.
  change (Fnmatch.translate FILE_EXTENSION) with (Some GO_GLOB).
  cbn [option_map]. intros [= H].
  apply compile_loop_attempts in H as (tried & rest & Hfiles & Ht).
  eexists; split; [exact Ht|].
  apply Forall_forall. intros a Ha.
  apply in_map_iff in Ha as (f & <- & Hf).
  assert (Hin : In f (tried ++ rest)) by (apply in_or_app; now left).
  rewrite <- Hfiles in Hin.
  destruct (lookup p fs) as [n|]; [|destruct Hin].
  apply rglob_node_sound in Hin as [Hpre Hname].
  apply fullmatch_GO_GLOB in Hname as [stem Hstem].
  split; [exact Hpre|]. exists stem. cbn [snd]. unfold build_command.
  now rewrite Hstem.
Qed.

Lemma compile_code_files_commands_witness :
  exists tried,
    attempts (trace (fst (compile_loop second_not_launched sample_files sample_process)))
    = attempts (trace sample_process) ++ tried
    /\ Forall (build_of sample_target) tried.
Proof.
  exact (compile_code_files_commands second_not_launched sample_fs sample_target
           sample_process _ _ eq_refl).
Defined.

(** X13.  A build command that cannot be launched leaves the process in
    the directory of its file: the exception leaves the Build Runner before
    the working directory is changed back. *)
Theorem compile_code_files_failure_leaves_cwd
        (run : path -> list str -> run_outcome) (fs : node) (p : path)
        (st : process) (before after : list path) (f : path) (e : exn) :
  rglob fs p FILE_EXTENSION = Some (before ++ f :: after) ->
  Forall (launches run) before ->
  run (parent f) (build_command f) = LaunchFailed e ->
  exists st',
    compile_code_files run fs p st = Some (st', Raise e)
    /\ cwd st' = parent f.
Proof.
  intros Hg Hb Hf. unfold compile_code_files. rewrite Hg. cbn [option_map].
  rewrite (compile_loop_launch_failure run before after f e st Hb Hf).
  eexists; split; reflexivity.
Qed.

Lemma compile_code_files_failure_leaves_cwd_witness :
  exists st',
    compile_code_files second_not_launched sample_fs sample_target sample_process
    = Some (st', Raise FileNotFoundError)
    /\ cwd st' = [py "harvest"; py "One"].
Proof.
  refine (compile_code_files_failure_leaves_cwd second_not_launched sample_fs
            sample_target sample_process
            [[py "harvest"; py "One"; py "a.go"]]
            [[py "harvest"; py "One"; py "c.go"]]
            [py "harvest"; py "One"; py "b.go"] FileNotFoundError
            eq_refl _ eq_refl).
  repeat constructor. exists 0%Z. reflexivity.
Defined.

(** ** Directory Materializer *)

Lemma set_entry_fresh (k : str) (v : node) (es : entries_t) :
  assoc k es = None -> set_entry k v es = es ++ [(k, v)].
Proof.
  induction es as [|[k' v'] es IH]; simpl; [reflexivity|].
  destruct (str_eqb k k'); [discriminate|]. intros H. now rewrite IH.
Qed.

Lemma assoc_app_fresh (k nm : str) (v : node) (es : entries_t) :
  assoc k es = None -> k <> nm -> assoc k (es ++ [(nm, v)]) = None.
Proof.
  intros Hk Hne. induction es as [|[k' v'] es IH]; simpl in *.
  - apply str_eqb_neq in Hne. now rewrite Hne.
  - destruct (str_eqb k k'); [discriminate | now apply IH].
Qed.

Section CopyEntriesMore.

Variable value : node -> str -> option node -> node * list path.
Variable copy_one : node -> str -> entries_t -> entries_t * list path.
Hypothesis copy_one_value : forall n nm dst,
    copy_one n nm dst
    = (set_entry nm (fst (value n nm (assoc nm dst))) dst,
       snd (value n nm (assoc nm dst))).

(** With unique names the failures are those of the single entries, each
    judged by what the destination held at the start. *)
Lemma copy_entries_errors (src dst : entries_t) :
  nodupb (map fst src) = true ->
  snd (copy_entries copy_one src dst)
  = flat_map (fun e => snd (value (snd e) (fst e) (assoc (fst e) dst))) src.
Proof.
  revert dst; induction src as [|[nm child] src IH]; intros dst Hnd;
    [reflexivity|].
  cbn [map fst nodupb] in Hnd. apply andb_prop in Hnd as [Hfresh Hnd].
  apply negb_true_iff in Hfresh.
  rewrite (copy_entries_cons value copy_one copy_one_value). cbv zeta.
  cbn [snd fst flat_map]. f_equal. rewrite (IH _ Hnd).
  assert (Hall : forall k c, In (k, c) src -> k <> nm).
  { intros k c Hin ->.
    assert (Hex : existsb (str_eqb nm) (map fst src) = true).
    { apply existsb_exists. exists nm. split; [|apply str_eqb_refl].
      apply in_map_iff. now exists (nm, c). }
    rewrite Hex in Hfresh. discriminate. }
  clear IH Hnd Hfresh. induction src as [|[k c] src IH]; [reflexivity|].
  cbn [flat_map fst snd].
  rewrite assoc_set_entry_other by (apply (Hall k c); now left).
  f_equal. apply IH. intros k' c' Hin. apply (Hall k' c'). now right.
Qed.

(** Entries that copy to themselves into nothing, copied into a directory
    that has none of their names, are added at its end as they are. *)
Lemma copy_entries_fresh (src acc : entries_t) :
  nodupb (map fst src) = true ->
  Forall (fun e => value (snd e) (fst e) None = (snd e, [])) src ->
  Forall (fun e => assoc (fst e) acc = None) src ->
  copy_entries copy_one src acc = (acc ++ src, []).
Proof.
  revert acc; induction src as [|[nm child] src IH]; intros acc Hnd Hval Hacc.
  - now rewrite app_nil_r.
  - cbn [map fst nodupb] in Hnd. apply andb_prop in Hnd as [Hfresh Hnd].
    apply negb_true_iff in Hfresh.
    inversion Hval as [|? ? Hv Hvs]; subst. inversion Hacc as [|? ? Ha Has]; subst.
    cbn [fst snd] in Hv, Ha.
    rewrite (copy_entries_cons value copy_one copy_one_value). cbv zeta.
    rewrite Ha, Hv. cbn [fst snd]. rewrite (set_entry_fresh _ _ _ Ha).
    rewrite (IH (acc ++ [(nm, child)]) Hnd Hvs).
    + now rewrite <- app_assoc.
    + rewrite Forall_forall in *. intros [k c] Hin. cbn [fst].
      apply assoc_app_fresh; [exact (Has _ Hin)|].
      intros ->.
      assert (Hex : existsb (str_eqb nm) (map fst src) = true).
      { apply existsb_exists. exists nm. split; [|apply str_eqb_refl].
        apply in_map_iff. now exists (nm, c). }
      rewrite Hex in Hfresh. discriminate.
Qed.

End CopyEntriesMore.

(** Into a place that holds nothing, an entry is copied as it is. *)
Lemma entry_value_fresh (n : node) :
  well_formed n = true ->
  forall rel nm, entry_value rel n nm None = (n, []).
Proof.
  induction n as [data|sub IH] using node_entries_ind; intros Hwf rel nm;
    [reflexivity|].
  apply well_formed_Dir in Hwf as [Hnd Hall]. cbn [entry_value].
  rewrite (copy_entries_fresh (entry_value (joinpath rel nm))
                              (copy_entry (joinpath rel nm))
                              (copy_entry_value (joinpath rel nm)) sub [] Hnd).
  - reflexivity.
  - rewrite Forall_forall in *. intros e He. apply IH; [assumption | now apply Hall].
  - apply Forall_forall. intros e He. reflexivity.
Qed.

Lemma copy_entries_onto_empty (src : entries_t) :
  well_formed (Dir src) = true ->
  copy_entries (copy_entry []) src [] = (src, []).
Proof.
  intros Hwf. apply well_formed_Dir in Hwf as [Hnd Hall].
  rewrite (copy_entries_fresh (entry_value []) (copy_entry [])
                              (copy_entry_value []) src [] Hnd).
  - reflexivity.
  - rewrite Forall_forall in *. intros e He.
    apply entry_value_fresh. now apply Hall.
  - apply Forall_forall. intros e He. reflexivity.
Qed.

(** X14.  Copying a source tree with unique entry names to a destination
    that does not exist, or that is an empty directory, reports no failure
    and leaves at the destination the paths of the source and no other:
    a regular file with the same content exactly where the source has
    one, and a directory exactly where the source has one. *)
Theorem copy_and_overwrite_fresh (src : entries_t) (dest : option node) :
  well_formed (Dir src) = true ->
  dest = None \/ dest = Some (Dir []) ->
  exists d',
    copy_and_overwrite (Dir src) dest = (Some d', Copied)
    /\ forall p,
        (forall x, lookup p d' = Some (File x) <-> lookup p (Dir src) = Some (File x))
        /\ is_dir_node (lookup p d') = is_dir_node (lookup p (Dir src)).
Proof.
  intros Hwf Hdest. exists (Dir src). split.
  - unfold copy_and_overwrite, copytree.
    destruct Hdest as [-> | ->]; now rewrite (copy_entries_onto_empty src Hwf).
  - intros p. split; [intros x; reflexivity | reflexivity].
Qed.

Lemma copy_and_overwrite_fresh_witness :
  exists d',
    copy_and_overwrite sample_src None = (Some d', Copied)
    /\ forall p,
        (forall x, lookup p d' = Some (File x) <-> lookup p sample_src = Some (File x))
        /\ is_dir_node (lookup p d') = is_dir_node (lookup p sample_src).
Proof.
  apply (copy_and_overwrite_fresh
           [(py "GameOne",
             Dir [(py "main.go", File (py "package main"));
                  (py "lib", Dir [(py "util.go", File (py "package lib"))])]);
            (py "MyGameTwo", Dir []);
            (py "notagame", Dir [(py "readme.txt", File (py "r"))]);
            (py "gamefile", File (py "f"));
            (py "GAME3", Dir [])] None).
  - reflexivity.
  - now left.
Defined.

Lemma compatible_None (n : node) : compatible n None = true.
Proof. now destruct n. Qed.

Lemma flat_map_nil {A B : Type} (f : A -> list B) (l : list A) :
  (forall a, In a l -> f a = []) -> flat_map f l = [].
Proof.
  induction l as [|a l IH]; intros H; [reflexivity|].
  cbn [flat_map]. rewrite (H a) by now left.
  apply IH. intros b Hb. apply H. now right.
Qed.

(** The entries of a directory, copied over entries that are free for
    them, given that this works for every single entry. *)
Lemma copy_entries_compatible (rel : path) (sub d0 : entries_t) :
  nodupb (map fst sub) = true ->
  Forall (fun e => forall rel nm old,
              compatible (snd e) old = true ->
              snd (entry_value rel (snd e) nm old) = []
              /\ forall p m, lookup p (snd e) = Some m ->
                             carries m (lookup p (fst (entry_value rel (snd e) nm old))))
         sub ->
  (forall k c, In (k, c) sub -> compatible c (assoc k d0) = true) ->
  snd (copy_entries (copy_entry rel) sub d0) = []
  /\ forall p m, lookup p (Dir sub) = Some m ->
                 carries m (lookup p (Dir (fst (copy_entries (copy_entry rel) sub d0)))).
Proof.
  intros Hnd IH Hcomp. rewrite Forall_forall in IH. split.
  - rewrite (copy_entries_errors (entry_value rel) (copy_entry rel)
                                 (copy_entry_value rel) sub d0 Hnd).
    apply flat_map_nil. intros [k c] Hin. cbn [fst snd].
    apply (IH (k, c) Hin rel k). now apply Hcomp.
  - intros [|c p] m Hm.
    + injection Hm as <-. reflexivity.
    + cbn [lookup] in *. destruct (assoc c sub) as [ch|] eqn:Ec; [|discriminate].
      rewrite (copy_entries_at (entry_value rel) (copy_entry rel)
                               (copy_entry_value rel) c ch sub d0 Hnd Ec).
      apply assoc_In in Ec.
      apply (IH (c, ch) Ec rel c (assoc c d0) (Hcomp _ _ Ec)). exact Hm.
Qed.

Lemma entry_value_compatible (n : node) :
  well_formed n = true ->
  forall rel nm old,
    compatible n old = true ->
    snd (entry_value rel n nm old) = []
    /\ forall p m, lookup p n = Some m ->
                   carries m (lookup p (fst (entry_value rel n nm old))).
Proof.
  induction n as [data|sub IH] using node_entries_ind;
    intros Hwf rel nm old Hcomp.
  - cbn [compatible] in Hcomp. cbn [entry_value].
    destruct old as [[x|d]|]; try discriminate; (split; [reflexivity|]);
      intros [|c p] m Hm; try discriminate; injection Hm as <-; reflexivity.
  - apply well_formed_Dir in Hwf as [Hnd Hall].
    assert (IH' : Forall (fun e => forall rel nm old,
                compatible (snd e) old = true ->
                snd (entry_value rel (snd e) nm old) = []
                /\ forall p m, lookup p (snd e) = Some m ->
                     carries m (lookup p (fst (entry_value rel (snd e) nm old))))
              sub).
    { rewrite Forall_forall in *. intros e He. apply IH; [assumption|].
      now apply Hall. }
    assert (Hd : exists d0,
               (forall k c, In (k, c) sub -> compatible c (assoc k d0) = true)
               /\ entry_value rel (Dir sub) nm old
                  = (Dir (fst (copy_entries (copy_entry (joinpath rel nm)) sub d0)),
                     snd (copy_entries (copy_entry (joinpath rel nm)) sub d0))).
    { cbn [compatible] in Hcomp. cbn [entry_value].
      destruct old as [[x|d]|]; [discriminate| |].
      - exists d. split.
        + intros k c Hin. rewrite forallb_forall in Hcomp.
          exact (Hcomp (k, c) Hin).
        + now destruct (copy_entries (copy_entry (joinpath rel nm)) sub d).
      - exists []. split.
        + intros k c Hin. apply compatible_None.
        + now destruct (copy_entries (copy_entry (joinpath rel nm)) sub []). }
    destruct Hd as (d0 & Hfree & ->). cbn [fst snd].
    apply copy_entries_compatible; assumption.
Qed.

(** Entries copied over entries that are free for them. *)
Lemma copy_entries_free (src d0 : entries_t) :
  well_formed (Dir src) = true ->
  (forall k c, In (k, c) src -> compatible c (assoc k d0) = true) ->
  snd (copy_entries (copy_entry []) src d0) = []
  /\ forall p m, lookup p (Dir src) = Some m ->
                 carries m (lookup p (Dir (fst (copy_entries (copy_entry []) src d0)))).
Proof.
  intros Hwf Hfree. apply well_formed_Dir in Hwf as [Hnd Hall].
  apply copy_entries_compatible; [assumption| |assumption].
  rewrite Forall_forall in *. intros e He. apply entry_value_compatible.
  now apply Hall.
Qed.

(** X15.  A source tree with unique entry names is copied over a
    destination that is free for it (no directory where the source has a
    regular file, no regular file where it has a directory) without any
    failure, and afterwards every regular file of the source is found at
    the same path below the destination with the source's content, and
    every directory of the source is a directory there. *)
Theorem copy_and_overwrite_compatible (src : entries_t) (dest : option node) :
  well_formed (Dir src) = true ->
  compatible (Dir src) dest = true ->
  exists d',
    copy_and_overwrite (Dir src) dest = (Some (Dir d'), Copied)
    /\ forall p m, lookup p (Dir src) = Some m -> carries m (lookup p (Dir d')).
Proof.
  intros Hwf Hcomp.
  assert (Hd : exists d0,
             (forall k c, In (k, c) src -> compatible c (assoc k d0) = true)
             /\ copy_and_overwrite (Dir src) dest
                = (Some (Dir (fst (copy_entries (copy_entry []) src d0))),
                   match snd (copy_entries (copy_entry []) src d0) with
                   | [] => Copied
                   | _ :: _ => CopyErrors (snd (copy_entries (copy_entry []) src d0))
                   end)).
  { cbn [compatible] in Hcomp. unfold copy_and_overwrite, copytree.
    destruct dest as [[x|d]|]; [discriminate| |].
    - exists d. split.
      + intros k c Hin. rewrite forallb_forall in Hcomp.
        exact (Hcomp (k, c) Hin).
      + now destruct (copy_entries (copy_entry []) src d).
    - exists []. split.
      + intros k c Hin. apply compatible_None.
      + now destruct (copy_entries (copy_entry []) src []). }
  destruct Hd as (d0 & Hfree & ->).
  destruct (copy_entries_free src d0 Hwf Hfree) as [Herr Hlook].
  exists (fst (copy_entries (copy_entry []) src d0)).
  rewrite Herr. split; [reflexivity | exact Hlook].
Qed.

Lemma copy_and_overwrite_compatible_witness :
  exists d',
    copy_and_overwrite (Dir merge_source) merge_dest = (Some (Dir d'), Copied)
    /\ forall p m, lookup p (Dir merge_source) = Some m ->
                   carries m (lookup p (Dir d')).
Proof.
  apply (copy_and_overwrite_compatible merge_source merge_dest); reflexivity.
Defined.

(** ** The pipeline *)

(** A copy fails with a built-in exception or with the list of entries
    that could not be copied, never with an argument error. *)
Lemma copy_and_overwrite_at_failures (fs : node) (source : path) (dest : pure_path)
      (fs' : node) (o : outcome) :
  copy_and_overwrite_at fs source dest = Some (fs', o) ->
  o <> Failed ValueError /\ o <> Failed UsageError.
Proof.
  unfold copy_and_overwrite_at. intros H.
  repeat match type of H with
         | context [match ?x with _ => _ end] => destruct x
         end;
    try discriminate; injection H as _ <-; split; discriminate.
Qed.

Lemma create_new_dirs_failures (old_dirs : list path) (new_dirpath : path) :
  forall new_dirs fs fs' o,
    create_new_dirs fs old_dirs new_dirpath new_dirs = Some (fs', o) ->
    o <> Failed ValueError /\ o <> Failed UsageError.
Proof.
  induction old_dirs as [|s old_dirs IH]; intros new_dirs fs fs' o H.
  - cbn [create_new_dirs] in H. injection H as _ <-. split; discriminate.
  - destruct new_dirs as [|nm new_dirs].
    + cbn [create_new_dirs] in H. injection H as _ <-. split; discriminate.
    + cbn [create_new_dirs] in H.
      destruct (copy_and_overwrite_at fs s (joinpath_str new_dirpath nm))
        as [[fs1 [|f]]|] eqn:E; [| |discriminate].
      * exact (IH _ _ _ _ H).
      * injection H as _ <-.
        exact (copy_and_overwrite_at_failures _ _ _ _ _ E).
Qed.

Lemma main_two_arguments (run : path -> list str -> run_outcome) (w : world)
      (source target : str) (w' : world) (o : outcome) :
  main run w [source; target] = Some (w', o) ->
  o <> Failed ValueError /\ o <> Failed UsageError.
Proof.
  cbn [main]. intros H.
  destruct (get_absolute_path (files w) (cwd (proc w)) source) as [sp|e];
    [|injection H as _ <-; split; discriminate].
  destruct (find_all_game_paths (files w) sp) as [gd|]; [|discriminate].
  destruct (get_names_from_paths gd (py "game")) as [[names|e]|];
    [| injection H as _ <-; split; discriminate | discriminate].
  destruct (setup_target_dir (files w) (cwd (proc w)) target) as [fs1 [tp|e]];
    [|injection H as _ <-; split; discriminate].
  destruct (create_new_dirs fs1 gd tp names) as [[fs2 [|f]]|] eqn:E;
    [| |discriminate].
  - destruct (make_json_metadata_file fs2 tp names) as [fs3 [[]|e]];
      [|injection H as _ <-; split; discriminate].
    destruct (compile_code_files run fs3 tp (proc w)) as [[st' [[]|e]]|];
      [| |discriminate]; injection H as _ <-; split; discriminate.
  - injection H as _ <-. exact (create_new_dirs_failures _ _ _ _ _ _ E).
Qed.

(** X16.  The entry point refuses every command line that does not hold
    exactly the script name and two arguments, before anything is read or
    written; and because of that check the unpacking [source, target =
    args] inside [main] never fails when the script is run: no run ends
    with the [ValueError] of a wrong number of values, and a run ends with
    the usage error only for a wrong number of arguments. *)
Theorem script_argument_check (run : path -> list str -> run_outcome) (w : world)
        (argv : list str) (w' : world) (o : outcome) :
  script run w argv = Some (w', o) ->
  o <> Failed ValueError
  /\ (o = Failed UsageError <-> length argv <> 3)
  /\ (length argv <> 3 -> w' = w).
Proof.
  unfold script. intros H.
  destruct (length argv =? 3) eqn:E; cbn [negb] in H.
  - apply Nat.eqb_eq in E.
    destruct argv as [|a0 [|a1 [|a2 [|a3 argv]]]]; try discriminate E.
    cbn [tl] in H. apply main_two_arguments in H as [Hv Hu].
    split; [exact Hv|]. split; [|intros Hn; now elim Hn].
    split; [intros ->; now elim Hu | intros Hn; now elim Hn].
  - apply Nat.eqb_neq in E. injection H as <- <-.
    split; [discriminate|]. split; [|reflexivity].
    split; [intros _; exact E | reflexivity].
Qed.

Lemma script_argument_check_witness :
  script always_builds sample_world [py "get_game_data.py"; py "src"]
  = Some (sample_world, Failed UsageError)
  /\ (Failed UsageError <> Failed ValueError
      /\ (Failed UsageError = Failed UsageError
          <-> length [py "get_game_data.py"; py "src"] <> 3)
      /\ (length [py "get_game_data.py"; py "src"] <> 3
          -> sample_world = sample_world)).
Proof.
  split; [reflexivity|].
  apply (script_argument_check always_builds sample_world
           [py "get_game_data.py"; py "src"] sample_world (Failed UsageError)).
  reflexivity.
Defined.

(** X17.  When the source root holds a directory whose name [DIR_PATTERN]
    accepts but in which the word [game] does not occur in any letter
    case (the bracket classes also accept a vertical bar), [main] ends
    with [IndexError] before it has written anything: the target
    directory is not made, no directory is copied, not even those with a
    fitting name, and no command is run. *)
Theorem main_stops_before_writing (run : path -> list str -> run_outcome)
        (w : world) (source target : str) (source_path : path) (nm : str) :
  get_absolute_path (files w) (cwd (proc w)) source = Ok source_path ->
  is_dir_node (lookup (joinpath source_path nm) (files w)) = true ->
  game_like nm = true ->
  contains_ci (py "game") nm = false ->
  main run w [source; target] = Some (w, Failed (Builtin IndexError)).
Proof.
  intros Hsrc Hdir Hlike Hword. cbn [main]. rewrite Hsrc.
  rewrite find_all_game_paths_eq.
  set (found := filter _ _).
  assert (Hin : In (joinpath source_path nm) found).
  { unfold found. apply filter_In. split; [|exact Hdir].
    destruct (lookup (joinpath source_path nm) (files w)) as [n|] eqn:En;
      [|discriminate].
    apply lookup_parent in En as (es & Hes & Hnm).
    apply in_map_iff. exists (nm, n). split; [reflexivity|].
    apply filter_In. split; [|exact Hlike].
    unfold scandir. rewrite Hes. now apply assoc_In. }
  assert (Hnames : get_names_from_paths found (py "game")
                   = Some (Raise IndexError)).
  { unfold get_names_from_paths. destruct found as [|q found']; [contradiction|].
    rewrite (compile_literal (py "game")) by reflexivity.
    rewrite names_loop_literal_raises; [reflexivity|].
    apply Exists_exists. exists (joinpath source_path nm).
    split; [exact Hin|]. now rewrite name_joinpath. }
  now rewrite Hnames.
Qed.

Lemma main_stops_before_writing_witness :
  main always_builds odd_world [py "src"; py "harvest"]
  = Some (odd_world, Failed (Builtin IndexError)).
Proof.
  apply (main_stops_before_writing always_builds odd_world (py "src")
           (py "harvest") [py "home"; py "src"] (py "g|me"));
    reflexivity.
Defined.

Lemma same_kind_trans (a b c : node) :
  same_kind a b -> same_kind b c -> same_kind a c.
Proof. destruct a, b, c; simpl; tauto. Qed.

Lemma keeps_all_refl (a : node) : keeps_all a a.
Proof. intros p n H. exists n. split; [assumption | apply same_kind_refl]. Qed.

Lemma keeps_all_trans (a b c : node) :
  keeps_all a b -> keeps_all b c -> keeps_all a c.
Proof.
  intros Hab Hbc p n H. destruct (Hab p n H) as (n1 & H1 & K1).
  destruct (Hbc p n1 H1) as (n2 & H2 & K2). exists n2.
  split; [assumption | now apply (same_kind_trans n n1 n2)].
Qed.

(** Replacing one entry by a node that keeps what the entry had. *)
Lemma keeps_all_set_entry (k : str) (v : node) (es : entries_t) :
  (forall old, assoc k es = Some old -> keeps_all old v) ->
  keeps_all (Dir es) (Dir (set_entry k v es)).
Proof.
  intros Hold [|c p] n Hp.
  - injection Hp as <-. eexists. split; [reflexivity | exact I].
  - cbn [lookup] in *. destruct (assoc c es) as [m|] eqn:E; [|discriminate].
    destruct (list_eq_dec ascii_dec c k) as [->|Hne].
    + rewrite assoc_set_entry_same. exact (Hold m E p n Hp).
    + rewrite assoc_set_entry_other by assumption. rewrite E.
      exists n. split; [assumption | apply same_kind_refl].
Qed.

(** Replacing the node at an existing path by one that keeps what was
    there. *)
Lemma keeps_all_store (q : path) (v : node) :
  forall fs old,
    lookup q fs = Some old -> keeps_all old v -> keeps_all fs (store q v fs).
Proof.
  induction q as [|c q IH]; intros fs old Hq Hkeep.
  - injection Hq as <-. exact Hkeep.
  - destruct fs as [x|es]; [discriminate|]. cbn [lookup] in Hq.
    destruct (assoc c es) as [m|] eqn:E; [|discriminate].
    assert (Hst : store (c :: q) v (Dir es) = Dir (set_entry c (store q v m) es)).
    { cbn [store]. destruct q; [reflexivity | now rewrite E]. }
    rewrite Hst. apply keeps_all_set_entry. intros old' Hold'.
    rewrite E in Hold'. injection Hold' as <-. exact (IH m old Hq Hkeep).
Qed.

(** Where a walk from an existing place ends, there is something. *)
Lemma walk_lookup (fs : node) (comps : list str) :
  forall cur q,
    (exists m, lookup cur fs = Some m) ->
    walk fs cur comps = Ok q -> exists m, lookup q fs = Some m.
Proof.
  induction comps as [|c cs IH]; intros cur q Hcur H.
  - injection H as <-. exact Hcur.
  - cbn [walk] in H. destruct (lookup cur fs) as [[x|es]|] eqn:E; try discriminate.
    destruct (is_dotdot c).
    + apply (IH (parent cur) q); [|exact H].
      destruct (lookup_removelast cur fs (Dir es) E) as [m Hm]. now exists m.
    + destruct (lookup (joinpath cur c) fs) as [m|] eqn:Ec; [|discriminate].
      apply (IH (joinpath cur c) q); [now exists m | exact H].
Qed.

(** The loop of [_copytree] keeps every path of the destination, once
    every single entry does. *)
Lemma copy_entries_keeps (rel : path) (src : entries_t) :
  Forall (fun e => forall rel nm old,
              keeps_all old (fst (entry_value rel (snd e) nm (Some old)))) src ->
  forall dst,
    keeps_all (Dir dst) (Dir (fst (copy_entries (copy_entry rel) src dst))).
Proof.
  induction src as [|[nm child] src IH]; intros Hall dst.
  - apply keeps_all_refl.
  - inversion Hall as [|e l Hchild Hrest]; subst. cbn [snd] in Hchild.
    rewrite (copy_entries_cons (entry_value rel) (copy_entry rel)
                               (copy_entry_value rel)).
    cbv zeta. cbn [fst].
    eapply keeps_all_trans; [|apply (IH Hrest)].
    apply keeps_all_set_entry. intros old Hold. rewrite Hold. apply Hchild.
Qed.

Lemma entry_value_keeps (n : node) :
  forall rel nm old, keeps_all old (fst (entry_value rel n nm (Some old))).
Proof.
  induction n as [data|sub IH] using node_entries_ind; intros rel nm old.
  - cbn [entry_value]. destruct old as [x|d].
    + intros [|c p] n Hp; [|discriminate]. injection Hp as <-.
      eexists. split; [reflexivity | exact I].
    + destruct (assoc nm d) as [[y|d2]|] eqn:E; cbn [fst].
      * apply keeps_all_set_entry. intros old Hold. rewrite E in Hold.
        injection Hold as <-. intros [|c p] n Hp; [|discriminate].
        injection Hp as <-. eexists. split; [reflexivity | exact I].
      * apply keeps_all_refl.
      * apply keeps_all_set_entry. intros old Hold. rewrite E in Hold.
        discriminate.
  - cbn [entry_value]. destruct old as [x|d].
    + apply keeps_all_refl.
    + pose proof (copy_entries_keeps (joinpath rel nm) sub IH d) as H.
      now destruct (copy_entries (copy_entry (joinpath rel nm)) sub d).
Qed.

Lemma copytree_keeps (src old d' : node) (o : copy_outcome) :
  copytree src (Some old) = (Some d', o) -> keeps_all old d'.
Proof.
  unfold copytree. destruct src as [x|es].
  - intros [= <- _]. apply keeps_all_refl.
  - destruct old as [y|d].
    + intros [= <- _]. apply keeps_all_refl.
    + assert (H : keeps_all (Dir d) (Dir (fst (copy_entries (copy_entry []) es d)))).
      { apply copy_entries_keeps. apply Forall_forall. intros e _.
        apply entry_value_keeps. }
      destruct (copy_entries (copy_entry []) es d) as [d2 errs].
      intros [= <- _]. exact H.
Qed.

Lemma os_mkdir_keeps (fs : node) (wd : path) (pp : pure_path) :
  keeps_all fs (fst (os_mkdir fs wd pp)).
Proof.
  destruct (os_mkdir_cases fs wd pp) as [[e ->]|(d & es & _ & _ & Hd & _ & Hfresh & ->)].
  - apply keeps_all_refl.
  - exact (lookup_store_fresh d _ (Dir []) fs es Hd Hfresh).
Qed.

Lemma mkdir_or_isdir_keeps (fs : node) (pp : pure_path) :
  keeps_all fs (fst (mkdir_or_isdir fs pp)).
Proof.
  unfold mkdir_or_isdir. pose proof (os_mkdir_keeps fs [] pp) as H.
  destruct (os_mkdir fs [] pp) as [fs' [[]|e]]; [exact H|].
  now destruct (is_dir fs' [] pp).
Qed.

Lemma makedirs_upto_keeps (all : list str) (k : nat) :
  forall fs, keeps_all fs (fst (makedirs_upto k fs all)).
Proof.
  induction k as [|k IH]; intros fs.
  - apply mkdir_or_isdir_keeps.
  - cbn [makedirs_upto].
    destruct (exists_at fs (firstn k all)).
    + apply mkdir_or_isdir_keeps.
    + specialize (IH fs).
      destruct (makedirs_upto k fs all) as [fs1 [[]|e]]; cbn [fst] in IH.
      * eapply keeps_all_trans; [exact IH | apply mkdir_or_isdir_keeps].
      * destruct e; try exact IH.
        eapply keeps_all_trans; [exact IH | apply mkdir_or_isdir_keeps].
Qed.

Lemma copy_and_overwrite_at_keeps (fs : node) (source : path) (dest : pure_path)
      (fs' : node) (o : outcome) :
  copy_and_overwrite_at fs source dest = Some (fs', o) -> keeps_all fs fs'.
Proof.
  unfold copy_and_overwrite_at, makedirs.
  destruct (walk fs [] source) as [qs|e];
    [|intros [= <- _]; apply keeps_all_refl].
  destruct (lookup qs fs) as [[x|es]|];
    [intros [= <- _]; apply keeps_all_refl| |intros [= <- _]; apply keeps_all_refl].
  pose proof (makedirs_upto_keeps (parts dest) (length (parts dest)) fs) as Hmk.
  destruct (makedirs_upto (length (parts dest)) fs (parts dest)) as [fs1 [[]|e]];
    cbn [fst] in Hmk; [|intros [= <- _]; exact Hmk].
  destruct (walk fs1 [] (parts dest)) as [qd|e] eqn:Ew; [|discriminate].
  destruct (overlapping qs qd); [discriminate|].
  destruct (walk_lookup fs1 (parts dest) [] qd) as [old Hold];
    [now exists fs1 | exact Ew |].
  rewrite Hold.
  destruct (copytree (Dir es) (Some old)) as [[d'|] out] eqn:Ec.
  - apply copytree_keeps in Ec.
    assert (Hst : keeps_all fs (store qd d' fs1)).
    { eapply keeps_all_trans; [exact Hmk|].
      exact (keeps_all_store qd d' fs1 old Hold Ec). }
    destruct out; intros [= <- _]; assumption.
  - destruct out; [discriminate | discriminate | intros [= <- _]; exact Hmk].
Qed.

Lemma create_new_dirs_keeps (old_dirs : list path) (new_dirpath : path) :
  forall new_dirs fs fs' o,
    create_new_dirs fs old_dirs new_dirpath new_dirs = Some (fs', o) ->
    keeps_all fs fs'.
Proof.
  induction old_dirs as [|s old_dirs IH]; intros new_dirs fs fs' o H.
  - cbn [create_new_dirs] in H. injection H as <- _. apply keeps_all_refl.
  - destruct new_dirs as [|nm new_dirs].
    + cbn [create_new_dirs] in H. injection H as <- _. apply keeps_all_refl.
    + cbn [create_new_dirs] in H.
      destruct (copy_and_overwrite_at fs s (joinpath_str new_dirpath nm))
        as [[fs1 [|f]]|] eqn:E; [| |discriminate].
      * apply copy_and_overwrite_at_keeps in E.
        eapply keeps_all_trans; [exact E | exact (IH _ _ _ _ H)].
      * injection H as <- _. exact (copy_and_overwrite_at_keeps _ _ _ _ _ E).
Qed.

Lemma setup_target_dir_keeps_all (fs : node) (wd : path) (dirname : str) :
  keeps_all fs (fst (setup_target_dir fs wd dirname)).
Proof.
  destruct (setup_target_dir_ends fs wd dirname)
    as [[e ->]|[(q & _ & _ & ->)|(d & es & leaf & Hd & Hfresh & _ & _ & ->)]].
  - apply keeps_all_refl.
  - apply keeps_all_refl.
  - exact (lookup_store_fresh d leaf (Dir []) fs es Hd Hfresh).
Qed.

Lemma setup_target_dir_path (fs : node) (wd : path) (dirname : str) (fs' : node)
      (q : path) :
  setup_target_dir fs wd dirname = (fs', Ok q) ->
  get_absolute_path fs' wd dirname = Ok q.
Proof.
  unfold setup_target_dir.
  destruct (mkdir true fs wd (Path dirname)) as [fs1 [[]|e]]; [|discriminate].
  now intros [= <- ->].
Qed.

Lemma proper_plain (q : path) : forallb proper_name q = true -> plain q = true.
Proof.
  unfold plain. rewrite !forallb_forall. intros H c Hc.
  specialize (H c Hc). unfold proper_name in H.
  now apply andb_prop in H as [_ H].
Qed.

(** A resolved path holds no [..] when the working directory holds
    none. *)
Lemma get_absolute_path_plain (fs : node) (wd : path) (dir_file : str) (q : path) :
  forallb proper_name wd = true ->
  get_absolute_path fs wd dir_file = Ok q -> plain q = true.
Proof.
  intros Hwd H. apply proper_plain.
  unfold get_absolute_path, resolve in H.
  apply (realpath_proper fs (truthy dir_file) (anchor wd (Path dir_file))
                         (parts (Path dir_file)) q); [|apply Path_parts_kept|exact H].
  unfold anchor. now destruct (absolute (Path dir_file)).
Qed.

Lemma write_text_keeps (fs : node) (p : path) (nm content : str) :
  plain p = true ->
  keeps_all fs (fst (write_text fs (joinpath p nm) content)).
Proof.
  intros Hp.
  destruct (write_text_ends fs p nm content Hp) as [(e & -> & _)|(es & Hd & Hnm & ->)].
  - apply keeps_all_refl.
  - cbn [fst]. destruct (assoc nm es) as [[x|d]|] eqn:E; [| discriminate |].
    + apply (keeps_all_store (joinpath p nm) (File content) fs (File x)).
      * unfold joinpath. rewrite lookup_app, Hd. cbn [lookup]. now rewrite E.
      * intros [|c r] n Hr; [|discriminate]. injection Hr as <-.
        eexists. split; [reflexivity | exact I].
    + exact (lookup_store_fresh p nm (File content) fs es Hd E).
Qed.

(** X18.  A run of [main] deletes nothing and turns no regular file into
    a directory or a directory into a regular file, however it ends: every
    path that exists before the run exists after it, and is of the same
    kind.  (The working directory of the process is a resolved path.) *)
Theorem main_keeps_every_path (run : path -> list str -> run_outcome)
        (w : world) (args : list str) (w' : world) (o : outcome) :
  forallb proper_name (cwd (proc w)) = true ->
  main run w args = Some (w', o) ->
  forall p n, lookup p (files w) = Some n ->
              exists n', lookup p (files w') = Some n' /\ same_kind n n'.
Proof.
  intros Hwd H. change (keeps_all (files w) (files w')).
  destruct args as [|source [|target [|extra args]]];
    try (injection H as <- _; apply keeps_all_refl).
  cbn [main] in H.
  destruct (get_absolute_path (files w) (cwd (proc w)) source) as [sp|e];
    [|injection H as <- _; apply keeps_all_refl].
  destruct (find_all_game_paths (files w) sp) as [gd|]; [|discriminate].
  destruct (get_names_from_paths gd (py "game")) as [[names|e]|];
    [| injection H as <- _; apply keeps_all_refl | discriminate].
  pose proof (setup_target_dir_keeps_all (files w) (cwd (proc w)) target) as H1.
  destruct (setup_target_dir (files w) (cwd (proc w)) target) as [fs1 [tp|e]] eqn:Et;
    cbn [fst] in H1; [|injection H as <- _; exact H1].
  apply setup_target_dir_path in Et.
  apply (get_absolute_path_plain _ _ _ _ Hwd) in Et.
  destruct (create_new_dirs fs1 gd tp names) as [[fs2 out]|] eqn:Ec; [|discriminate].
  apply create_new_dirs_keeps in Ec.
  pose proof (keeps_all_trans _ _ _ H1 Ec) as H2.
  destruct out as [|f]; [|injection H as <- _; exact H2].
  pose proof (write_text_keeps fs2 tp (py "metadata.json")
                               (dumps (metadata names)) Et) as H3.
  unfold make_json_metadata_file in H. cbv zeta in H.
  destruct (write_text fs2 (joinpath tp (py "metadata.json")) (dumps (metadata names)))
    as [fs3 r]; cbn [fst] in H3.
  pose proof (keeps_all_trans _ _ _ H2 H3) as H4.
  destruct r as [[]|e]; [|injection H as <- _; exact H4].
  destruct (compile_code_files run fs3 tp (proc w)) as [[st' r]|]; [|discriminate].
  injection H as <- _. exact H4.
Qed.

Lemma main_keeps_every_path_witness :
  exists n',
    lookup [py "home"; py "src"; py "GameOne"; py "main.go"] (files sample_harvested)
    = Some n'
    /\ same_kind (File (py "package main")) n'.
Proof.
  apply (main_keeps_every_path always_builds sample_world [py "src"; py "harvest"]
           sample_harvested Done).
  - reflexivity.
  - vm_compute. reflexivity.
  - reflexivity.
Defined.

(** With a pattern without metacharacters, the names the loop returns are
    the stripped names of the paths, in order. *)
Lemma names_loop_literal_inv (p : str) (paths : list path) (names : list str) :
  names_loop (lits p) paths = Ok names ->
  names = map (fun q => strip_every_copy p (name q)) paths.
Proof.
  revert names; induction paths as [|q paths IH]; intros names H.
  - now injection H as <-.
  - cbn [names_loop] in H. rewrite strip_match_literal in H.
    destruct (contains_ci p (name q)); [|discriminate]. cbn [bind] in H.
    destruct (names_loop (lits p) paths) as [rest|e]; [|discriminate].
    cbn [bind] in H. injection H as <-. cbn [map]. f_equal. now apply IH.
Qed.

(** A loop that ends without an exception ends in the working directory
    it started in. *)
Lemma compile_loop_ok_cwd (run : path -> list str -> run_outcome)
      (files : list path) :
  forall st st', compile_loop run files st = (st', Ok tt) -> cwd st' = cwd st.
Proof.
  induction files as [|file rest IH]; intros st st' H.
  - now injection H as <-.
  - cbn [compile_loop] in H. cbv zeta in H.
    destruct (run (cwd (chdir (parent file) st)) (build_command file)) as [rc|e];
      [|discriminate].
    apply IH in H. exact H.
Qed.

(** X19.  When a run of [main] ends without an exception, the file
    [metadata.json] in the target directory holds the serialised manifest
    whose names are the names of the directories found under the source,
    in the order found, each with every copy of its first occurrence of
    [game] removed, and the process is back in the working directory it
    started in. *)
Theorem main_done_manifest (run : path -> list str -> run_outcome)
        (w : world) (source target : str) (w' : world) :
  forallb proper_name (cwd (proc w)) = true ->
  main run w [source; target] = Some (w', Done) ->
  exists source_path game_dirs target_path,
    get_absolute_path (files w) (cwd (proc w)) source = Ok source_path
    /\ find_all_game_paths (files w) source_path = Some game_dirs
    /\ snd (setup_target_dir (files w) (cwd (proc w)) target) = Ok target_path
    /\ lookup (joinpath target_path (py "metadata.json")) (files w')
       = Some (File (dumps (metadata
                              (map (fun q => strip_every_copy (py "game") (name q))
                                   game_dirs))))
    /\ cwd (proc w') = cwd (proc w).
Proof.
  intros Hwd H. cbn [main] in H.
  destruct (get_absolute_path (files w) (cwd (proc w)) source) as [sp|e];
    [|discriminate].
  destruct (find_all_game_paths (files w) sp) as [gd|] eqn:Ef; [|discriminate].
  destruct (get_names_from_paths gd (py "game")) as [[names|e]|] eqn:En;
    [|discriminate|discriminate].
  assert (Hnames : names = map (fun q => strip_every_copy (py "game") (name q)) gd).
  { unfold get_names_from_paths in En. destruct gd as [|q gd'].
    - now injection En as <-.
    - rewrite (compile_literal (py "game")) in En by reflexivity.
      injection En as En. now apply names_loop_literal_inv. }
  destruct (setup_target_dir (files w) (cwd (proc w)) target) as [fs1 [tp|e]] eqn:Et;
    [|discriminate].
  apply setup_target_dir_path in Et.
  apply (get_absolute_path_plain _ _ _ _ Hwd) in Et.
  destruct (create_new_dirs fs1 gd tp names) as [[fs2 [|f]]|]; try discriminate.
  unfold make_json_metadata_file in H. cbv zeta in H.
  destruct (write_text_ends fs2 tp (py "metadata.json") (dumps (metadata names)) Et)
    as [(e & Hw & _)|(es & Hd & _ & Hw)]; rewrite Hw in H; [discriminate|].
  destruct (compile_code_files run _ tp (proc w)) as [[st' r]|] eqn:Ec;
    [|discriminate].
  destruct r as [[]|e]; [|discriminate].
  assert (Hw' : w' = {| files := store (joinpath tp (py "metadata.json"))
                                       (File (dumps (metadata names))) fs2;
                        proc := st' |}) by (cbn [of_result] in H; congruence).
  rewrite Hw'. cbn [files proc snd]. exists sp, gd, tp.
  split; [reflexivity|]. split; [exact Ef|]. split; [reflexivity|]. split.
  - rewrite <- Hnames. exact (lookup_store_leaf tp _ _ fs2 es Hd).
  - unfold compile_code_files in Ec.
    destruct (rglob _ tp FILE_EXTENSION) as [found|]; [|discriminate].
    cbn [option_map] in Ec. injection Ec as Ec.
    exact (compile_loop_ok_cwd run found _ _ Ec).
Qed.

Lemma main_done_manifest_witness :
  exists source_path game_dirs target_path,
    get_absolute_path (files sample_world) (cwd (proc sample_world)) (py "src")
    = Ok source_path
    /\ find_all_game_paths (files sample_world) source_path = Some game_dirs
    /\ snd (setup_target_dir (files sample_world) (cwd (proc sample_world))
                             (py "harvest")) = Ok target_path
    /\ lookup (joinpath target_path (py "metadata.json")) (files sample_harvested)
       = Some (File (dumps (metadata
                              (map (fun q => strip_every_copy (py "game") (name q))
                                   game_dirs))))
    /\ cwd (proc sample_harvested) = cwd (proc sample_world).
Proof.
  apply (main_done_manifest always_builds sample_world (py "src") (py "harvest")
           sample_harvested).
  - reflexivity.
  - vm_compute. reflexivity.
Defined.

(** ** Copies inside the filesystem *)

Lemma split_on_absent (sep : ascii) (s : str) :
  existsb (fun c => Ascii.eqb c sep) s = false -> split_on sep s = [s].
Proof.
  induction s as [|c s IH]; [reflexivity|].
  cbn [existsb split_on]. intros H. apply orb_false_iff in H as [Hc Hs].
  rewrite Hc, (IH Hs). reflexivity.
Qed.

(** A name that is a single component is joined as it is. *)
Lemma Path_single (nm : str) :
  proper_name nm = true ->
  existsb (fun c => Ascii.eqb c "/") nm = false ->
  Path nm = {| absolute := false; parts := [nm] |}.
Proof.
  intros Hp Hs. unfold Path. rewrite (split_on_absent _ _ Hs).
  unfold proper_name in Hp. apply andb_prop in Hp as [Hp _].
  cbn [filter]. rewrite Hp. f_equal.
  destruct nm as [|c nm]; [reflexivity|].
  cbn [existsb] in Hs. apply orb_false_iff in Hs as [Hc _].
  cbn [py String.list_ascii_of_string prefixb].
  rewrite Ascii.eqb_sym, Hc. reflexivity.
Qed.

Lemma plain_joinpath (p : path) (c : str) :
  plain p = true -> is_dotdot c = false -> plain (joinpath p c) = true.
Proof.
  intros Hp Hc. unfold plain, joinpath in *. rewrite forallb_app, Hp.
  cbn [forallb]. now rewrite Hc.
Qed.

Lemma proper_not_dotdot (c : str) : proper_name c = true -> is_dotdot c = false.
Proof.
  unfold proper_name. intros H. apply andb_prop in H as [_ H].
  now apply negb_true_iff.
Qed.

Lemma os_mkdir_fresh (fs : node) (d : path) (leaf : str) (es : entries_t) :
  plain d = true -> lookup d fs = Some (Dir es) ->
  is_dotdot leaf = false -> assoc leaf es = None ->
  os_mkdir fs [] (abs_path (joinpath d leaf))
  = (store (joinpath d leaf) (Dir []) fs, Ok tt).
Proof.
  intros Hp Hd Hdd Hfresh.
  rewrite os_mkdir_nonempty
    by (cbn [parts abs_path]; unfold joinpath; intros E;
        now apply app_eq_nil in E as [_ E]).
  cbv zeta. cbn [parts abs_path].
  rewrite (parent_joinpath d leaf : removelast (joinpath d leaf) = d).
  rewrite !(name_joinpath d leaf : last (joinpath d leaf) [] = leaf).
  unfold anchor. cbn [absolute abs_path].
  rewrite (walk_existing fs [] d (Dir es) Hp Hd). cbn [app].
  now rewrite Hd, Hdd, Hfresh.
Qed.

Lemma firstn_length_app {A} (a b : list A) : firstn (length a) (a ++ b) = a.
Proof. induction a as [|x a IH]; [now destruct b | cbn; now rewrite IH]. Qed.

(** [os.makedirs] of a fresh name in an existing directory makes that one
    directory. *)
Lemma makedirs_fresh (fs : node) (d : path) (leaf : str) (es : entries_t) :
  plain d = true -> lookup d fs = Some (Dir es) ->
  is_dotdot leaf = false -> assoc leaf es = None ->
  makedirs fs (joinpath d leaf) = (store (joinpath d leaf) (Dir []) fs, Ok tt).
Proof.
  intros Hp Hd Hdd Hfresh. unfold makedirs, joinpath.
  rewrite length_app, Nat.add_1_r. cbn [makedirs_upto].
  rewrite firstn_length_app. unfold exists_at.
  rewrite (walk_existing fs [] d (Dir es) Hp Hd).
  replace (firstn (S (length d)) (d ++ [leaf])) with (d ++ [leaf])
    by (symmetry; apply firstn_all2; rewrite length_app, Nat.add_1_r; lia).
  unfold mkdir_or_isdir.
  pose proof (os_mkdir_fresh fs d leaf es Hp Hd Hdd Hfresh) as Hmk.
  unfold joinpath in Hmk. now rewrite Hmk.
Qed.

(** X20.  Copying a directory of the filesystem under a new name into an
    existing directory (the name is one path component, the directory has
    no entry of that name, and the new place is not inside the source)
    ends without a failure; afterwards the new path holds exactly the tree
    of the source, and every path outside the new one, the source
    included, holds what it held before. *)
Theorem copy_and_overwrite_at_fresh (fs : node) (source : path) (es : entries_t)
        (new_dirpath : path) (tes : entries_t) (new_dir : str) :
  plain source = true ->
  lookup source fs = Some (Dir es) ->
  well_formed (Dir es) = true ->
  plain new_dirpath = true ->
  lookup new_dirpath fs = Some (Dir tes) ->
  proper_name new_dir = true ->
  existsb (fun c => Ascii.eqb c "/") new_dir = false ->
  assoc new_dir tes = None ->
  overlapping source (joinpath new_dirpath new_dir) = false ->
  exists fs',
    copy_and_overwrite_at fs source (joinpath_str new_dirpath new_dir)
    = Some (fs', Done)
    /\ lookup (joinpath new_dirpath new_dir) fs' = Some (Dir es)
    /\ forall p, overlapping p (joinpath new_dirpath new_dir) = false ->
                 lookup p fs' = lookup p fs.
Proof.
  intros Hps Hsrc Hwf Hpt Htgt Hname Hslash Hfresh Hover.
  pose proof (proper_not_dotdot _ Hname) as Hdd.
  set (qd := joinpath new_dirpath new_dir) in *.
  exists (store qd (Dir es) fs). split; [|split].
  - unfold copy_and_overwrite_at, joinpath_str.
    rewrite (Path_single new_dir Hname Hslash). cbn [absolute parts abs_path].
    rewrite (walk_existing fs [] source (Dir es) Hps Hsrc). cbn [app].
    rewrite Hsrc. fold (joinpath new_dirpath new_dir). fold qd.
    unfold qd at 1.
    rewrite (makedirs_fresh fs new_dirpath new_dir tes Hpt Htgt Hdd Hfresh).
    fold qd.
    assert (Hnew : lookup qd (store qd (Dir []) fs) = Some (Dir []))
      by exact (lookup_store_leaf new_dirpath new_dir (Dir []) fs tes Htgt).
    rewrite (walk_existing (store qd (Dir []) fs) [] qd (Dir []));
      [|exact (plain_joinpath _ _ Hpt Hdd)|exact Hnew].
    cbn [app]. rewrite Hover, Hnew. unfold copytree.
    rewrite (copy_entries_onto_empty es Hwf). now rewrite store_store.
  - exact (lookup_store_leaf new_dirpath new_dir (Dir es) fs tes Htgt).
  - intros p Hp. now apply lookup_store_disjoint.
Qed.

Lemma copy_and_overwrite_at_fresh_witness :
  exists fs',
    copy_and_overwrite_at sample_tree [py "home"; py "src"; py "GameOne"]
                          (joinpath_str [py "home"] (py "One"))
    = Some (fs', Done)
    /\ lookup (joinpath [py "home"] (py "One")) fs'
       = Some (Dir [(py "main.go", File (py "package main"));
                    (py "lib", Dir [(py "util.go", File (py "package lib"))])])
    /\ forall p, overlapping p (joinpath [py "home"] (py "One")) = false ->
                 lookup p fs' = lookup p sample_tree.
Proof.
  apply (copy_and_overwrite_at_fresh sample_tree
           [py "home"; py "src"; py "GameOne"]
           [(py "main.go", File (py "package main"));
            (py "lib", Dir [(py "util.go", File (py "package lib"))])]
           [py "home"] [(py "src", sample_src)] (py "One"));
    reflexivity.
Defined.

(** What is stored at an existing path is found below it. *)
Lemma lookup_store_below (q : path) (v : node) (p : path) :
  forall fs old,
    lookup q fs = Some old -> lookup (q ++ p) (store q v fs) = lookup p v.
Proof.
  induction q as [|c q IH]; intros fs old Hq; [reflexivity|].
  destruct fs as [x|es]; [discriminate|]. cbn [lookup] in Hq.
  destruct (assoc c es) as [m|] eqn:E; [|discriminate].
  assert (Hst : store (c :: q) v (Dir es) = Dir (set_entry c (store q v m) es)).
  { cbn [store]. destruct q; [reflexivity | now rewrite E]. }
  rewrite Hst. cbn [app lookup]. rewrite assoc_set_entry_same.
  exact (IH m old Hq).
Qed.

(** [os.makedirs(..., exist_ok=True)] of a directory that exists changes
    nothing. *)
Lemma makedirs_existing (fs : node) (q : path) (es : entries_t) :
  plain q = true -> lookup q fs = Some (Dir es) -> makedirs fs q = (fs, Ok tt).
Proof.
  intros Hp Hq.
  assert (Hdir : is_dir fs [] (abs_path q) = true).
  { unfold is_dir, anchor. cbn [absolute parts abs_path].
    rewrite (walk_existing fs [] q (Dir es) Hp Hq). cbn [app]. now rewrite Hq. }
  assert (Hlast : mkdir_or_isdir fs (abs_path q) = (fs, Ok tt)).
  { unfold mkdir_or_isdir.
    destruct (os_mkdir_cases fs [] (abs_path q))
      as [[e ->]|(d & es' & Hne & Hw & Hd & _ & Hfresh & _)].
    - now rewrite Hdir.
    - exfalso. cbn [parts abs_path] in *. unfold anchor in Hw.
      cbn [absolute abs_path] in Hw.
      assert (Hpl : plain (removelast q) = true)
        by (apply forallb_removelast; exact Hp).
      apply (walk_plain _ _ _ _ Hpl) in Hw. cbn [app] in Hw. subst d.
      rewrite (parts_split q Hne) in Hq. rewrite lookup_app, Hd in Hq.
      cbn [lookup] in Hq. now rewrite Hfresh in Hq. }
  unfold makedirs. destruct (length q) as [|k] eqn:Ek.
  - destruct q; [exact Hlast | discriminate].
  - cbn [makedirs_upto].
    assert (Hex : exists_at fs (firstn k q) = true).
    { unfold exists_at.
      assert (Hne : q <> []) by (destruct q; [discriminate | discriminate]).
      assert (Hk : firstn k q = removelast q).
      { rewrite (parts_split q Hne) at 1.
        replace k with (length (removelast q)); [apply firstn_length_app|].
        rewrite (parts_split q Hne), length_app, Nat.add_1_r in Ek. lia. }
      rewrite Hk.
      destruct (lookup_removelast q fs (Dir es) Hq) as [m Hm].
      rewrite (walk_existing fs [] (removelast q) m);
        [reflexivity | apply forallb_removelast; exact Hp | exact Hm]. }
    rewrite Hex. rewrite <- Ek, firstn_all. exact Hlast.
Qed.

(** X21.  A found directory whose stripped name is empty (its name is the
    bare word [game], in any letter case) is not copied under a name of
    its own: joining the empty name gives the target directory itself, and
    the directory's content is merged into the target directory.  When
    the target is free for it, the loop goes on with the next pair, every
    regular file of the directory is then found directly below the target
    with its content, and paths outside the target hold what they held. *)
Theorem create_new_dirs_empty_name (fs : node) (source : path) (es : entries_t)
        (new_dirpath : path) (tes : entries_t)
        (old_dirs : list path) (new_dirs : list str) :
  plain source = true ->
  lookup source fs = Some (Dir es) ->
  well_formed (Dir es) = true ->
  plain new_dirpath = true ->
  lookup new_dirpath fs = Some (Dir tes) ->
  compatible (Dir es) (Some (Dir tes)) = true ->
  overlapping source new_dirpath = false ->
  exists fs',
    create_new_dirs fs (source :: old_dirs) new_dirpath ([] :: new_dirs)
    = create_new_dirs fs' old_dirs new_dirpath new_dirs
    /\ (forall p m, lookup p (Dir es) = Some m ->
                    carries m (lookup (new_dirpath ++ p) fs'))
    /\ forall p, overlapping p new_dirpath = false -> lookup p fs' = lookup p fs.
Proof.
  intros Hps Hsrc Hwf Hpt Htgt Hcomp Hover.
  assert (Hfree : forall k c, In (k, c) es -> compatible c (assoc k tes) = true).
  { cbn [compatible] in Hcomp. rewrite forallb_forall in Hcomp.
    intros k c Hin. exact (Hcomp (k, c) Hin). }
  destruct (copy_entries_free es tes Hwf Hfree) as [Herr Hlook].
  set (d' := fst (copy_entries (copy_entry []) es tes)) in *.
  exists (store new_dirpath (Dir d') fs). split; [|split].
  - cbn [create_new_dirs].
    assert (Hcopy : copy_and_overwrite_at fs source (joinpath_str new_dirpath [])
                    = Some (store new_dirpath (Dir d') fs, Done)).
    { unfold copy_and_overwrite_at.
      change (joinpath_str new_dirpath []) with (abs_path (new_dirpath ++ [])).
      rewrite app_nil_r. cbn [parts abs_path].
      rewrite (walk_existing fs [] source (Dir es) Hps Hsrc). cbn [app].
      rewrite Hsrc, (makedirs_existing fs new_dirpath tes Hpt Htgt).
      rewrite (walk_existing fs [] new_dirpath (Dir tes) Hpt Htgt). cbn [app].
      rewrite Hover, Htgt. unfold copytree. fold d' in Herr. unfold d'.
      destruct (copy_entries (copy_entry []) es tes) as [d2 errs].
      cbn [fst snd] in *. now rewrite Herr. }
    now rewrite Hcopy.
  - intros p m Hp. rewrite (lookup_store_below new_dirpath (Dir d') p fs _ Htgt).
    exact (Hlook p m Hp).
  - intros p Hp. now apply lookup_store_disjoint.
Qed.

Lemma create_new_dirs_empty_name_witness :
  exists fs',
    create_new_dirs bare_tree [[py "home"; py "src"; py "game"]]
                    [py "home"; py "harvest"] [[]]
    = create_new_dirs fs' [] [py "home"; py "harvest"] []
    /\ (forall p m,
           lookup p (Dir [(py "main.go", File (py "package main"))]) = Some m ->
           carries m (lookup ([py "home"; py "harvest"] ++ p) fs'))
    /\ forall p, overlapping p [py "home"; py "harvest"] = false ->
                 lookup p fs' = lookup p bare_tree.
Proof.
  apply (create_new_dirs_empty_name bare_tree [py "home"; py "src"; py "game"]
           [(py "main.go", File (py "package main"))]
           [py "home"; py "harvest"]
           [(py "notes.txt", File (py "mine"))] [] []);
    reflexivity.
Defined.
